(** * khal: the configuration parser of [khal/cli.py]

    A shallow embedding of the schema-driven configuration parser
    ([Section], its four subclasses, [ConfigParser] and [validate]) and
    the properties of the specification that concern it.

    Python objects are modelled by the type [value]; a [dict] (and the
    [Namespace] built on it) is an insertion-ordered association list.
    The [RawConfigParser] of the standard library is modelled after
    [read]: an ordered list of sections, each with an ordered list of
    options whose names went through [optionxform], and the options of
    the block of defaults.  The code
    mutates that parser ([remove_option]) and writes to the logger, and
    coercions may raise: all of this lives in the monad [M], whose state
    survives a raised exception, as the Python heap does. *)

From Stdlib Require Import List String Ascii Bool ZArith Arith Lia.
Import ListNotations.
Local Open Scope string_scope.
Local Open Scope list_scope.

Set Implicit Arguments.
Set Warnings "-register-all".

(** ** Strings *)

Module Str.

(** A string is a sequence of characters with code points below 256,
    and a character is its code point.

    [str.lower] on these: the letters A-Z, and the capital letters of
    Latin-1 (U+00C0-U+00DE but the multiplication sign U+00D7), are 32
    below their lower-case forms. *)
Definition lower_ascii (c : ascii) : ascii :=
  let n := nat_of_ascii c in
  if ((65 <=? n) && (n <=? 90)
      || (192 <=? n) && (n <=? 222) && negb (n =? 215))%nat
  then ascii_of_nat (n + 32) else c.

Fixpoint lower (s : string) : string :=
  match s with
  | EmptyString => EmptyString
  | String c s' => String (lower_ascii c) (lower s')
  end.

(** The characters removed by [str.strip()], those for which
    [str.isspace] holds: tab, line feed, vertical tab, form feed and
    carriage return (9-13), the four information separators (28-31),
    space, next line (U+0085) and no-break space (U+00A0). *)
Definition is_space (c : ascii) : bool :=
  let n := nat_of_ascii c in
  ((n =? 32) || ((9 <=? n) && (n <=? 13)) || ((28 <=? n) && (n <=? 31))
   || (n =? 133) || (n =? 160))%nat.

Fixpoint lstrip (s : string) : string :=
  match s with
  | EmptyString => EmptyString
  | String c s' => if is_space c then lstrip s' else s
  end.

Fixpoint rstrip (s : string) : string :=
  match s with
  | EmptyString => EmptyString
  | String c s' =>
      match rstrip s' with
      | EmptyString => if is_space c then EmptyString else String c EmptyString
      | r => String c r
      end
  end.

Definition strip (s : string) : string := rstrip (lstrip s).

(** The longest prefix without a line feed: what [.*] matches. *)
Fixpoint dot_star (s : string) : string :=
  match s with
  | EmptyString => EmptyString
  | String c s' => if Ascii.eqb c "010"%char then EmptyString
                   else String c (dot_star s')
  end.

Fixpoint drop (n : nat) (s : string) : string :=
  match n, s with
  | O, _ => s
  | S n', String _ s' => drop n' s'
  | S _, EmptyString => EmptyString
  end.

Fixpoint take (n : nat) (s : string) : string :=
  match n, s with
  | S n', String c s' => String c (take n' s')
  | _, _ => EmptyString
  end.

Definition all_space (s : string) : bool :=
  forallb is_space (list_ascii_of_string s).

End Str.

(** ** Python values and dicts *)

Inductive value : Type :=
| VNone
| VBool (b : bool)
| VInt (z : Z)
| VStr (s : string)
| VTz (zone : string)                       (* a pytz timezone object *)
| VList (l : list value)
| VNamespace (d : list (string * value)).   (* [Namespace], a dict subclass *)

Definition dict := list (string * value).

Section Assoc.
Variable V : Type.

Fixpoint assoc (k : string) (d : list (string * V)) : option V :=
  match d with
  | [] => None
  | (k', v) :: d' => if String.eqb k k' then Some v else assoc k d'
  end.

(** [d[k] = v]: overwrite in place, or append a new key. *)
Fixpoint assoc_set (k : string) (v : V) (d : list (string * V))
  : list (string * V) :=
  match d with
  | [] => [(k, v)]
  | (k', v') :: d' =>
      if String.eqb k k' then (k, v) :: d' else (k', v') :: assoc_set k v d'
  end.

(** [del d[k]] when the key is there. *)
Fixpoint assoc_del (k : string) (d : list (string * V)) : list (string * V) :=
  match d with
  | [] => []
  | (k', v') :: d' =>
      if String.eqb k k' then d' else (k', v') :: assoc_del k d'
  end.

Definition assoc_mem (k : string) (d : list (string * V)) : bool :=
  match assoc k d with Some _ => true | None => false end.

Definition keys (d : list (string * V)) : list string := map fst d.
End Assoc.

(** ** Exceptions, log records, the parser state *)

Inductive exn : Type :=
| NoSectionError (section : string)
| NoOptionError (option section : string)
| UnknownTimeZoneError (zone : string)
| ValueError (literal : string)
| AttributeError (attr : string)
| IndexError
| TypeError
| SystemExit (msg : string).

(** [except ConfigParserError] catches the two lookup errors of the raw
    parser and nothing else. *)
Definition is_ConfigParserError (e : exn) : bool :=
  match e with
  | NoSectionError _ | NoOptionError _ _ => true
  | _ => false
  end.

Inductive level : Type := WARNING | ERROR | FATAL.

(** The messages of the module, by their format string and arguments.
    Records of level debug ([dump]) are not kept. *)
Inductive message : Type :=
| CannotRead
| CouldNotParse
| MissingRequiredOption (option section : string)
| InvalidCommand (command : string)
| UnknownSection (section : string)
| MissingRequiredSection (group : string)
| UnknownOption (option section : string)
| NotAValidCalendar (cal_name : value).

Definition record := (level * message)%type.

Definition options := list (string * string).
Definition raw_sections := list (string * options).

Record state : Type := mkState {
  _conf_parser : raw_sections;
  log : list record
}.

Inductive res (A : Type) : Type :=
| Ok (a : A)
| Raise (e : exn).
Arguments Ok {A} a.
Arguments Raise {A} e.

Definition M (A : Type) : Type := state -> res A * state.

Definition ret {A} (a : A) : M A := fun st => (Ok a, st).

Definition bind {A B} (c : M A) (k : A -> M B) : M B :=
  fun st =>
    match c st with
    | (Ok a, st') => k a st'
    | (Raise e, st') => (Raise e, st')
    end.

Definition raise {A} (e : exn) : M A := fun st => (Raise e, st).

(** [try: body  except ConfigParserError: handler]; anything else the
    body raises goes through.  The state reached at the raise is kept. *)
Definition try_except {A} (body : M A) (handler : M A) : M A :=
  fun st =>
    match body st with
    | (Ok a, st') => (Ok a, st')
    | (Raise e, st') =>
        if is_ConfigParserError e then handler st' else (Raise e, st')
    end.

Declare Scope monad_scope.
Delimit Scope monad_scope with monad.
Notation "x <- c ;; k" := (bind c (fun x => k))
  (at level 61, c at next level, right associativity) : monad_scope.
Notation "c ;;; k" := (bind c (fun _ => k))
  (at level 61, right associativity) : monad_scope.
Local Open Scope monad_scope.

Definition logger (lv : level) (m : message) : M unit :=
  fun st => (Ok tt, mkState (_conf_parser st) (log st ++ [(lv, m)])).

(** [for x in l: body], the loop-carried variables being [s]. *)
Fixpoint for_each {A S} (l : list A) (body : A -> S -> M S) (s : S) : M S :=
  match l with
  | [] => ret s
  | x :: l' => s' <- body x s ;; for_each l' body s'
  end.

Fixpoint nodupb (l : list string) : bool :=
  match l with
  | [] => true
  | x :: l' => negb (existsb (String.eqb x) l') && nodupb l'
  end.

(** ** The raw parser ([RawConfigParser], after [read])

    Option names are stored in lower case ([optionxform]).  The parser
    keeps the options of the block [[DEFAULT]] apart from its sections
    ([_defaults]); here they are kept in the same association list
    under the name [DEFAULT], which no section can have.  [sections]
    does not list that block, [get] and [options] fall back on it, and
    [remove_option] on a section removes an option of the section
    itself only. *)

Module Raw.

Definition optionxform (option : string) : string := Str.lower option.

Definition DEFAULTSECT : string := "DEFAULT".

(** [self._defaults]. *)
Definition _defaults (cp : raw_sections) : options :=
  match assoc DEFAULTSECT cp with
  | Some d => d
  | None => []
  end.

(** [self._sections[section]], [None] for a [KeyError]. *)
Definition section_dict (cp : raw_sections) (section : string)
  : option options :=
  if String.eqb section DEFAULTSECT then None else assoc section cp.

(** The options of a section as [get] and [options] see them: its own,
    then those of the defaults that it does not have. *)
Definition visible (opts d : options) : options :=
  opts ++ filter (fun o => negb (assoc_mem (fst o) opts)) d.

Definition sections : M (list string) :=
  fun st =>
    (Ok (filter (fun section => negb (String.eqb section DEFAULTSECT))
                (keys (_conf_parser st))),
     st).

Definition options (section : string) : M (list string) :=
  fun st =>
    match section_dict (_conf_parser st) section with
    | None => (Raise (NoSectionError section), st)
    | Some opts =>
        (Ok (keys (visible opts (_defaults (_conf_parser st)))), st)
    end.

Definition get (section option : string) : M string :=
  fun st =>
    let sectiondict :=
      match section_dict (_conf_parser st) section with
      | Some opts => Some opts
      | None => if String.eqb section DEFAULTSECT then Some [] else None
      end in
    match sectiondict with
    | None => (Raise (NoSectionError section), st)
    | Some opts =>
        match assoc (optionxform option)
                    (visible opts (_defaults (_conf_parser st))) with
        | Some v => (Ok v, st)
        | None => (Raise (NoOptionError option section), st)
        end
    end.

Definition remove_option (section option : string) : M bool :=
  fun st =>
    let o := optionxform option in
    if (String.eqb section "" || String.eqb section DEFAULTSECT)%bool then
      let d := _defaults (_conf_parser st) in
      if assoc_mem o d
      then (Ok true,
            mkState (assoc_set DEFAULTSECT (assoc_del o d) (_conf_parser st))
                    (log st))
      else (Ok false, st)
    else
      match assoc section (_conf_parser st) with
      | None => (Raise (NoSectionError section), st)
      | Some opts =>
          (Ok (assoc_mem o opts),
           mkState (assoc_set section (assoc_del o opts) (_conf_parser st))
                   (log st))
      end.

(** A parser without defaults, as [read] leaves it for a file that has
    no block [[DEFAULT]]; no section has the empty name. *)
Definition plain (cp : raw_sections) : Prop :=
  assoc DEFAULTSECT cp = None /\ assoc "" cp = None.

(** The names of the sections of such a file: the keys of a dict,
    none of them [DEFAULT] or empty. *)
Definition names_ok (raw : raw_sections) : Prop :=
  NoDup (keys raw) /\ plain raw.

(** What [read] leaves when it succeeds on a file without a block
    [[DEFAULT]]: the names of its sections, and for each section option
    names that are the keys of a dict. *)
Definition wf (raw : raw_sections) : Prop :=
  names_ok raw /\ Forall (fun s => NoDup (keys (snd s))) raw.

Definition wfb (raw : raw_sections) : bool :=
  nodupb (keys raw)
  && negb (existsb (String.eqb DEFAULTSECT) (keys raw))
  && negb (existsb (String.eqb "") (keys raw))
  && forallb (fun s => nodupb (keys (snd s))) raw.

(** What [read] leaves when it succeeds on any file, the defaults of a
    block [[DEFAULT]] under that name: the names are the keys of a
    dict, a header is never empty, and the option names of each
    section and of the defaults are the keys of a dict. *)
Definition wfd (raw : raw_sections) : bool :=
  nodupb (keys raw)
  && negb (existsb (String.eqb "") (keys raw))
  && forallb (fun s => nodupb (keys (snd s))) raw.

End Raw.

(** The outcome of [self._conf_parser.read(cfile)]: no file could be
    read; the file does not parse, and the parser holds what was read
    before the error; or the file was read, and the parser holds its
    sections and defaults. *)
Inductive read_result : Type :=
| Unreadable
| Malformed (partial : raw_sections)
| Loaded (raw : raw_sections).

(** ** What the module takes from outside: the timezone database of
    pytz, the builtin [int], path expansion and the XDG cache home. *)
Record Env : Type := mkEnv {
  pytz_timezone : string -> option string;
  int : string -> option Z;
  expand : string -> string;     (* os.path.expanduser(os.path.expandvars(x)) *)
  xdg_cache_home : string
}.

(** ** Sections *)

Inductive SectionClass : Type :=
| DefaultSection | LocaleSection | SQLiteSection | CalendarSection.

(** One entry of a schema: [(option, default, filter_)]; the default
    [None] marks a required option. *)
Definition field := (string * value * option (string -> M value))%type.

Record Section : Type := mkSection {
  cls : SectionClass;
  _group : string;
  _schema : option (list field);
  _parsed : dict
}.

Section WithEnv.
Variable env : Env.

Definition _parse_bool_string (v : string) : M value :=
  let v := Str.lower (Str.strip v) in
  if existsb (String.eqb v) ["true"; "yes"; "1"]
  then ret (VBool true)
  else ret (VBool false).

Definition _parse_time_zone (v : string) : M value :=
  match pytz_timezone env v with
  | Some tz => ret (VTz tz)
  | None => raise (UnknownTimeZoneError v)
  end.

Definition commands : list string :=
  ["agenda"; "calendar"; "new"; "interactive"; "printcalendars"].

Definition _parse_commands (command : string) : M value :=
  if negb (existsb (String.eqb command) commands)
  then logger ERROR (InvalidCommand command) ;;; ret VNone
  else ret (VStr command).

Definition expand_path (x : string) : M value := ret (VStr (expand env x)).

Definition py_int (x : string) : M value :=
  match int env x with
  | Some z => ret (VInt z)
  | None => raise (ValueError x)
  end.

(** [Section.__init__] followed by the subclass's own constructor. *)
Definition new (c : SectionClass) : Section :=
  match c with
  | CalendarSection =>
      mkSection c "calendars"
        (Some [("path", VNone, Some expand_path);
               ("readonly", VBool false, Some _parse_bool_string);
               ("color", VStr "", None)]) []
  | SQLiteSection =>
      let default_path := (xdg_cache_home env ++ "/khal/khal.db")%string in
      mkSection c "sqlite"
        (Some [("path", VStr default_path, Some expand_path)]) []
  | LocaleSection =>
      mkSection c "locale"
        (Some [("local_timezone", VNone, Some _parse_time_zone);
               ("default_timezone", VNone, Some _parse_time_zone);
               ("timeformat", VNone, None);
               ("dateformat", VNone, None);
               ("longdateformat", VNone, None);
               ("datetimeformat", VNone, None);
               ("longdatetimeformat", VNone, None);
               ("firstweekday", VInt 0, Some py_int);
               ("encoding", VStr "utf-8", None);
               ("unicode_symbols", VBool true, Some _parse_bool_string)]) []
  | DefaultSection =>
      mkSection c "default"
        (Some [("debug", VBool false, Some _parse_bool_string);
               ("default_command", VStr "calendar", Some _parse_commands);
               ("default_calendar", VBool true, None)]) []
  end.

(** [re.match] of the pattern "calendar " followed by a group [name]
    of any characters but a line feed, ignoring case: the group when
    the pattern matches at the start of [name]. *)
Definition calendar_re (name : string) : option string :=
  if String.eqb (Str.lower (Str.take 9 name)) "calendar "
  then Some (Str.dot_star (Str.drop 9 name))
  else None.

(** [matches]; the calendar section records the captured name in
    [_parsed], so the section comes back with the answer. *)
Definition matches (self : Section) (name : string) : bool * Section :=
  match cls self with
  | CalendarSection =>
      match calendar_re name with
      | Some n =>
          (true, mkSection (cls self) (_group self) (_schema self)
                           (assoc_set "name" (VStr n) (_parsed self)))
      | None => (false, self)
      end
  | _ => (String.eqb (_group self) (Str.lower name), self)
  end.

Definition is_collection (self : Section) : bool :=
  match cls self with
  | CalendarSection => true
  | _ => false
  end.

(** The body of the loop of [Section.parse] for one schema entry; the
    loop carries [self._parsed] and [failed]. *)
Definition parse_field (section : string) (f : field) (acc : dict * bool)
  : M (dict * bool) :=
  let '(option, default, filter_) := f in
  let '(parsed, failed) := acc in
  let filter_ := match filter_ with
                 | None => fun x => ret (VStr x)
                 | Some g => g
                 end in
  try_except
    (raw <- Raw.get section option ;;
     v <- filter_ raw ;;
     Raw.remove_option section option ;;;
     ret (assoc_set option v parsed, failed))
    (failed' <- match default with
                | VNone =>
                    logger ERROR (MissingRequiredOption option section) ;;;
                    ret true
                | _ => ret failed
                end ;;
     Raw.remove_option section option ;;;
     ret (assoc_set option default parsed, failed')).

Definition parse (self : Section) (section : string) : M value :=
  match _schema self with
  | None => ret VNone
  | Some schema =>
      acc <- for_each schema (parse_field section) (_parsed self, false) ;;
      let '(parsed, failed) := acc in
      if failed then ret VNone else ret (VNamespace parsed)
  end.

(** ** ConfigParser *)

Definition _sections : list SectionClass :=
  [DefaultSection; LocaleSection; SQLiteSection; CalendarSection].

Definition _required_sections : list SectionClass :=
  [DefaultSection; LocaleSection; CalendarSection].

Fixpoint first_match (l : list SectionClass) (section : string)
  : option Section :=
  match l with
  | [] => None
  | c :: l' =>
      let (m, parser) := matches (new c) section in
      if m then Some parser else first_match l' section
  end.

Definition _get_section_parser (section : string) : option Section :=
  first_match _sections section.

Definition check_required (items : dict) : M bool :=
  let groupnames := map (fun sec => _group (new sec)) _required_sections in
  for_each groupnames
    (fun group failed =>
       if negb (assoc_mem group items)
       then logger ERROR (MissingRequiredSection group) ;;; ret true
       else ret failed)
    false.

Definition warn_leftovers : M unit :=
  secs <- Raw.sections ;;
  for_each secs
    (fun section _ =>
       opts <- Raw.options section ;;
       for_each opts
         (fun option _ => logger WARNING (UnknownOption option section))
         tt)
    tt.

(** [dump] only writes records of level debug, which the model's log
    does not keep. *)
Definition dump (conf : dict) : M unit := ret tt.

(** [items[group].append(values)]. *)
Definition append (group : string) (values : value) (items : dict)
  : M dict :=
  match assoc group items with
  | Some (VList l) => ret (assoc_set group (VList (l ++ [values])) items)
  | _ => raise (AttributeError "append")
  end.

(** The body of the loop of [parse_config] over the sections; the loop
    carries [items] and [failed]. *)
Definition parse_section (section : string) (acc : dict * bool)
  : M (dict * bool) :=
  let '(items, failed) := acc in
  match _get_section_parser section with
  | None => logger WARNING (UnknownSection section) ;;; ret (items, failed)
  | Some parser =>
      values <- parse parser section ;;
      match values with
      | VNone => ret (items, true)
      | _ =>
          if is_collection parser then
            let items :=
              if negb (assoc_mem (_group parser) items)
              then assoc_set (_group parser) (VList []) items
              else items in
            items <- append (_group parser) values items ;;
            ret (items, failed)
          else ret (assoc_set (_group parser) values items, failed)
      end
  end.

Definition set_conf_parser (raw : raw_sections) : M unit :=
  fun st => (Ok tt, mkState raw (log st)).

Definition parse_config (cfile : read_result) : M value :=
  set_conf_parser [] ;;;
  match cfile with
  | Unreadable => logger ERROR CannotRead ;;; ret VNone
  | Malformed partial =>
      set_conf_parser partial ;;;
      logger ERROR CouldNotParse ;;; ret VNone
  | Loaded raw =>
      set_conf_parser raw ;;;
      secs <- Raw.sections ;;
      acc <- for_each secs parse_section ([], false) ;;
      let '(items, failed) := acc in
      missing <- check_required items ;;
      let failed := missing || failed in
      warn_leftovers ;;;
      dump items ;;;
      if failed then ret VNone else ret (VNamespace items)
  end.

(** ** [validate] and the start of [main_khal] *)

(** Attribute access: on a [Namespace] the key of the dict, on
    anything else here an [AttributeError]. *)
Definition getattr (o : value) (name : string) : M value :=
  match o with
  | VNamespace d =>
      match assoc name d with
      | Some v => ret v
      | None => raise (AttributeError name)
      end
  | _ => raise (AttributeError name)
  end.

Definition index0 (o : value) : M value :=
  match o with
  | VList (x :: _) => ret x
  | _ => raise IndexError
  end.

(** Iteration is only needed over the list stored under [calendars];
    [None] and numbers are not iterable. *)
Definition iter (o : value) : M (list value) :=
  match o with
  | VList l => ret l
  | _ => raise TypeError
  end.

(** Attribute assignment on a [Namespace] sets the key of the dict. *)
Definition setattr (o : value) (name : string) (v : value) : M value :=
  match o with
  | VNamespace d => ret (VNamespace (assoc_set name v d))
  | _ => raise (AttributeError name)
  end.

(** [==] on the values that reach [validate]: strings against strings
    or the boolean default. *)
Definition py_eq (a b : value) : bool :=
  match a, b with
  | VNone, VNone => true
  | VBool x, VBool y => Bool.eqb x y
  | VInt x, VInt y => Z.eqb x y
  | VBool x, VInt y | VInt y, VBool x => Z.eqb (if x then 1 else 0) y
  | VStr x, VStr y => String.eqb x y
  | VTz x, VTz y => String.eqb x y
  | _, _ => false
  end.

Fixpoint map_M {A B} (f : A -> M B) (l : list A) : M (list B) :=
  match l with
  | [] => ret []
  | x :: l' => y <- f x ;; ys <- map_M f l' ;; ret (y :: ys)
  end.

(** [conf.default] is a [Namespace] object mutated in place; here the
    updated namespace is written back under the same key. *)
Definition validate (conf : value) : M value :=
  d <- getattr conf "default" ;;
  cal_name <- getattr d "default_calendar" ;;
  acc <-
    match cal_name with
    | VBool true =>
        cals <- getattr conf "calendars" ;;
        c0 <- index0 cals ;;
        n <- getattr c0 "name" ;;
        d <- getattr conf "default" ;;
        d' <- setattr d "default_calendar" n ;;
        conf' <- setattr conf "default" d' ;;
        ret (conf', true)
    | _ =>
        cals <- getattr conf "calendars" ;;
        cals <- iter cals ;;
        names <- map_M (fun cal => getattr cal "name") cals ;;
        if negb (existsb (py_eq cal_name) names)
        then logger FATAL (NotAValidCalendar cal_name) ;;; ret (conf, false)
        else ret (conf, true)
    end ;;
  let '(conf, rval) := acc in
  if rval then ret conf else ret VNone.

(** [main_khal] from the call of [parse_config] to the exit on an
    invalid configuration. *)
Definition main_khal (cfile : read_result) : M value :=
  conf <- parse_config cfile ;;
  conf <- validate conf ;;
  match conf with
  | VNone => raise (SystemExit "Invalid config file, exiting.")
  | _ => ret conf
  end.
End WithEnv.

Definition st0 : state := mkState [] [].

(** ** The parse as a function of the options of each section

    [Section.parse] reads and removes options of one section only and
    otherwise appends to the log.  The functions below give its effect
    on that section's options; they are related to the code above in
    the lemmas [fields_eq], [parse_section_eq] and [scan_eq]. *)

Definition is_None (v : value) : bool :=
  match v with VNone => true | _ => false end.

Definition run_filter (filter_ : option (string -> M value)) (x : string)
  : res value * list record :=
  let g := match filter_ with
           | None => fun x => ret (VStr x)
           | Some g => g
           end in
  (fst (g x st0), log (snd (g x st0))).

Fixpoint fields (section : string) (schema : list field) (opts : options)
  (acc : dict * bool) : res (dict * bool) * options * list record :=
  match schema with
  | [] => (Ok acc, opts, [])
  | (option, default, filter_) :: schema' =>
      let o := Raw.optionxform option in
      match assoc o opts with
      | Some x =>
          match run_filter filter_ x with
          | (Ok v, l) =>
              let '(r, opts', l') :=
                fields section schema' (assoc_del o opts)
                       (assoc_set option v (fst acc), snd acc) in
              (r, opts', l ++ l')
          | (Raise e, l) => (Raise e, opts, l)
          end
      | None =>
          let l := if is_None default
                   then [(ERROR, MissingRequiredOption option section)]
                   else [] in
          let '(r, opts', l') :=
            fields section schema' opts
                   (assoc_set option default (fst acc),
                    snd acc || is_None default) in
          (r, opts', l ++ l')
      end
  end.

(** How the loop of [parse_config] files the values of a section. *)
Definition store (parser : Section) (values : value) (acc : dict * bool)
  : res (dict * bool) :=
  let '(items, failed) := acc in
  if is_collection parser then
    let items :=
      if negb (assoc_mem (_group parser) items)
      then assoc_set (_group parser) (VList []) items
      else items in
    match assoc (_group parser) items with
    | Some (VList l) =>
        Ok (assoc_set (_group parser) (VList (l ++ [values])) items, failed)
    | _ => Raise (AttributeError "append")
    end
  else Ok (assoc_set (_group parser) values items, failed).

Definition section_run (env : Env) (section : string) (opts : options)
  (acc : dict * bool) : res (dict * bool) * options * list record :=
  match _get_section_parser env section with
  | None => (Ok acc, opts, [(WARNING, UnknownSection section)])
  | Some parser =>
      match _schema parser with
      | None => (Ok (fst acc, true), opts, [])
      | Some schema =>
          let '(r, opts', l) :=
            fields section schema opts (_parsed parser, false) in
          match r with
          | Raise e => (Raise e, opts', l)
          | Ok (parsed, true) => (Ok (fst acc, true), opts', l)
          | Ok (parsed, false) => (store parser (VNamespace parsed) acc, opts', l)
          end
      end
  end.

(** The scan of the sections in file order: the loop-carried variables,
    the options left in each section, the records logged. *)
Fixpoint scan (env : Env) (raw : raw_sections) (acc : dict * bool)
  : res (dict * bool) * raw_sections * list record :=
  match raw with
  | [] => (Ok acc, [], [])
  | (section, opts) :: raw' =>
      match section_run env section opts acc with
      | (Ok acc', opts', l) =>
          let '(r, rest, l') := scan env raw' acc' in
          (r, (section, opts') :: rest, l ++ l')
      | (Raise e, opts', l) => (Raise e, (section, opts') :: raw', l)
      end
  end.

(** The groups [check_required] reports, and the warnings of
    [warn_leftovers] for the options left in the raw parser. *)
Definition missing_required (items : dict) : list string :=
  filter (fun group => negb (assoc_mem group items))
         ["default"; "locale"; "calendars"].

Definition leftovers (raw : raw_sections) : list record :=
  flat_map (fun s : string * options =>
              map (fun o => (WARNING, UnknownOption (fst o) (fst s))) (snd s))
           raw.

(** The schema of [CalendarSection]. *)
Definition calendar_schema (env : Env) : list field :=
  [("path", VNone, Some (expand_path env));
   ("readonly", VBool false, Some _parse_bool_string);
   ("color", VStr "", None)].

(** The names of the entries of [calendars], when each is a namespace
    whose [name] is a string. *)
Definition name_of (cal : value) : option string :=
  match cal with
  | VNamespace d =>
      match assoc "name" d with Some (VStr n) => Some n | _ => None end
  | _ => None
  end.

Fixpoint names_of (cals : list value) : option (list string) :=
  match cals with
  | [] => Some []
  | cal :: cals' =>
      match name_of cal, names_of cals' with
      | Some n, Some ns => Some (n :: ns)
      | _, _ => None
      end
  end.

Definition schema_of (self : Section) : list field :=
  match _schema self with Some schema => schema | None => [] end.

Definition option_names (schema : list field) : list string :=
  map (fun f : field => fst (fst f)) schema.

(** ** Vocabulary of the properties *)

Definition is_Ok {A} (r : res A) : bool :=
  match r with Ok _ => true | Raise _ => false end.

(** The class and the schema that [_get_section_parser] gives a section
    name; no schema for a name that no class matches. *)
Definition class_of (env : Env) (section : string) : option SectionClass :=
  option_map cls (_get_section_parser env section).

Definition schema_for (env : Env) (section : string) : list field :=
  match _get_section_parser env section with
  | Some parser => schema_of parser
  | None => []
  end.

(** What [matches] leaves in [_parsed] before the parse: the captured
    name for a calendar section. *)
Definition parsed0 (env : Env) (section : string) : dict :=
  match _get_section_parser env section with
  | Some parser => _parsed parser
  | None => []
  end.

Definition group_name (c : SectionClass) : string :=
  match c with
  | DefaultSection => "default"
  | LocaleSection => "locale"
  | SQLiteSection => "sqlite"
  | CalendarSection => "calendars"
  end.

Definition is_class (env : Env) (c : SectionClass) (s : string * options)
  : bool :=
  match class_of env (fst s), c with
  | Some DefaultSection, DefaultSection
  | Some LocaleSection, LocaleSection
  | Some SQLiteSection, SQLiteSection
  | Some CalendarSection, CalendarSection => true
  | _, _ => false
  end.

(** The list under [calendars], empty when the key is not there. *)
Definition cal_list (items : dict) : list value :=
  match assoc "calendars" items with
  | Some (VList l) => l
  | _ => []
  end.

(** [calendars], when present, is a list. *)
Definition items_inv (items : dict) : Prop :=
  match assoc "calendars" items with
  | None | Some (VList _) => True
  | Some _ => False
  end.

(** The namespace that [Section.parse] returns for a section, when it
    returns one. *)
Definition values_of (env : Env) (s : string * options) : option value :=
  match class_of env (fst s) with
  | None => None
  | Some _ =>
      match fields (fst s) (schema_for env (fst s)) (snd s)
                   (parsed0 env (fst s), false) with
      | (Ok (parsed, false), _, _) => Some (VNamespace parsed)
      | _ => None
      end
  end.

(** A matched section whose parse returns [None]. *)
Definition fails (env : Env) (s : string * options) : bool :=
  match class_of env (fst s), values_of env s with
  | Some _, None => true
  | _, _ => false
  end.

(** Filing the values of a section: appended under [calendars] for the
    collection class, stored under the group otherwise. *)
Definition put (c : SectionClass) (values : value) (items : dict) : dict :=
  match c with
  | CalendarSection =>
      assoc_set "calendars" (VList (cal_list items ++ [values])) items
  | _ => assoc_set (group_name c) values items
  end.

Definition file_one (env : Env) (items : dict) (s : string * options) : dict :=
  match class_of env (fst s), values_of env s with
  | Some c, Some v => put c v items
  | _, _ => items
  end.

Definition filed (env : Env) (raw : raw_sections) (items : dict) : dict :=
  fold_left (file_one env) raw items.

(** The records of the loop over the sections: errors, and warnings
    for unknown sections. *)
Definition scan_record (rec : record) : Prop :=
  fst rec = ERROR \/ exists n, rec = (WARNING, UnknownSection n).

(** The warning of [warn_leftovers] for an option of a section. *)
Definition is_unknown_option (option section : string) (rec : record) : bool :=
  match rec with
  | (WARNING, UnknownOption o s) => String.eqb o option && String.eqb s section
  | _ => false
  end.

(** The option is one that the schema matched to the section looks up;
    never so for a section that no class matches. *)
Definition looked_up (env : Env) (section option : string) : bool :=
  existsb (fun f : field => String.eqb (Raw.optionxform (fst (fst f))) option)
          (schema_for env section).

Definition matched (env : Env) (s : string * options) : bool :=
  match class_of env (fst s) with Some _ => true | None => false end.

(** The file without its unknown sections and unknown options. *)
Definition known (env : Env) (raw : raw_sections) : raw_sections :=
  map (fun s : string * options =>
         (fst s, filter (fun o => looked_up env (fst s) (fst o)) (snd s)))
      (filter (matched env) raw).

(** The warning of the scan for a section that no class matches. *)
Definition is_unknown_section (section : string) (rec : record) : bool :=
  match rec with
  | (WARNING, UnknownSection s) => String.eqb s section
  | _ => false
  end.

(** What a record that [parse_config] logs for a file is about, [raw]
    being the sections with the options that they show.  A warning
    names a section that no class matches, or an option that a section
    shows and that the schema of the section does not look up; with a
    block [DEFAULT] it may also name one of the options of that block,
    which no parse removes.  An error names an option that the schema
    of a matched section looks up, a command, or a required group. *)
Definition accounted (env : Env) (inherited : list string)
  (raw : raw_sections) (rec : record) : Prop :=
  match rec with
  | (WARNING, UnknownSection section) =>
      In section (keys raw) /\ class_of env section = None
  | (WARNING, UnknownOption option section) =>
      exists opts,
        In (section, opts) raw /\ In option (keys opts)
        /\ (looked_up env section option = false \/ In option inherited)
  | (ERROR, MissingRequiredOption option section) =>
      In section (keys raw) /\ class_of env section <> None
      /\ looked_up env section (Raw.optionxform option) = true
  | (ERROR, InvalidCommand command) =>
      existsb (String.eqb command) commands = false
  | (ERROR, MissingRequiredSection group) =>
      In group ["default"; "locale"; "calendars"]
  | _ => False
  end.

(** The sections that [sections] lists, each with the options that
    [options] lists for it: its own, then the inherited ones. *)
Definition shown (cp : raw_sections) : raw_sections :=
  map (fun s : string * options =>
         (fst s, Raw.visible (snd s) (Raw._defaults cp)))
      (filter (fun s : string * options =>
                 negb (String.eqb (fst s) Raw.DEFAULTSECT)) cp).

(** Two dicts with the same keys and values, whatever the order of
    insertion: equality of Python dicts. *)
Definition dict_equiv (d1 d2 : dict) : Prop :=
  forall k, assoc k d1 = assoc k d2.

(** The same outcome of [parse_config]: the same exception, [None]
    twice, or two configurations that are equal as dicts. *)
Definition same_result (r1 r2 : res value) : Prop :=
  match r1, r2 with
  | Raise e1, Raise e2 => e1 = e2
  | Ok (VNamespace d1), Ok (VNamespace d2) => dict_equiv d1 d2
  | Ok VNone, Ok VNone => True
  | _, _ => False
  end.

(** The loop-carried variables of two scans agree on the keys in [P]. *)
Definition agree_on (P : string -> Prop) (a1 a2 : dict * bool) : Prop :=
  snd a1 = snd a2 /\ forall k, P k -> assoc k (fst a1) = assoc k (fst a2).

Definition rel_res (R : dict * bool -> dict * bool -> Prop)
  (x y : res (dict * bool)) : Prop :=
  match x, y with
  | Ok b1, Ok b2 => R b1 b2
  | Raise e1, Raise e2 => e1 = e2
  | _, _ => False
  end.

(** The shape of the items that the scan assembles: [default] is a
    namespace whose [default_calendar] is the boolean default or a
    string, and [calendars] a non-empty list of named namespaces. *)
Definition default_shape (items : dict) : Prop :=
  match assoc "default" items with
  | None => True
  | Some v =>
      exists d cal_name,
        v = VNamespace d /\ assoc "default_calendar" d = Some cal_name
        /\ (cal_name = VBool true \/ exists s, cal_name = VStr s)
  end.

Definition calendars_shape (items : dict) : Prop :=
  match assoc "calendars" items with
  | None => True
  | Some v =>
      exists cals n0 ns, v = VList cals /\ names_of cals = Some (n0 :: ns)
  end.

(** The value supplied for the option of a field, if any, is accepted by
    the coercion of the field. *)
Definition coerces (opts : options) (f : field) : bool :=
  match assoc (Raw.optionxform (fst (fst f))) opts with
  | Some x => is_Ok (fst (run_filter (snd f) x))
  | None => true
  end.

(** The option of a field is present, or the field has a default. *)
Definition supplied (opts : options) (f : field) : bool :=
  match assoc (Raw.optionxform (fst (fst f))) opts with
  | Some _ => true
  | None => negb (is_None (snd (fst f)))
  end.

Definition coercible (env : Env) (s : string * options) : bool :=
  forallb (coerces (snd s)) (schema_for env (fst s)).

Definition complete (env : Env) (s : string * options) : bool :=
  forallb (supplied (snd s)) (schema_for env (fst s)).

(** The identifiers of the sections named [calendar <identifier>], in
    file order. *)
Definition calendar_names (raw : raw_sections) : list string :=
  flat_map (fun s : string * options =>
              match calendar_re (fst s) with Some n => [n] | None => [] end)
           raw.

(** The options of a section that the parse of a schema leaves. *)
Definition consume (schema : list field) (opts : options) : options :=
  fold_left (fun o (f : field) => assoc_del (Raw.optionxform (fst (fst f))) o)
            schema opts.

Definition left_in (env : Env) (s : string * options) : options :=
  consume (schema_for env (fst s)) (snd s).

(** A coercion reads its argument and may write errors to the log; it
    does not touch the raw parser and raises no [ConfigParserError]. *)
Definition log_only (g : string -> M value) : Prop :=
  forall x st,
    g x st = (fst (g x st0),
              mkState (_conf_parser st) (log st ++ log (snd (g x st0))))
    /\ (forall e, fst (g x st0) = Raise e -> is_ConfigParserError e = false)
    /\ (forall r, In r (log (snd (g x st0))) -> fst r = ERROR).

Definition schema_ok (schema : list field) : Prop :=
  Forall (fun f : field =>
            match snd f with Some g => log_only g | None => True end) schema.

(** ** Vocabulary of the calendar sections

    The sections [calendar <identifier>] of a file and their
    identifiers, said without the matcher of the code. *)

(** The name is the word [calendar], in any case of its letters, a
    space, and the identifier, which has no line feed. *)
Definition calendar_header (name ident : string) : Prop :=
  exists prefix,
    name = (prefix ++ ident)%string
    /\ Str.lower prefix = "calendar "
    /\ ~ In "010"%char (list_ascii_of_string ident).

(** The identifiers of the calendar sections of a file, in file order;
    the other sections have names that do not start with that word and
    a space. *)
Inductive calendar_idents : raw_sections -> list string -> Prop :=
| idents_nil : calendar_idents [] []
| idents_calendar name ident opts raw idents :
    calendar_header name ident ->
    calendar_idents raw idents ->
    calendar_idents ((name, opts) :: raw) (ident :: idents)
| idents_other name opts raw idents :
    Str.lower (Str.take 9 name) <> "calendar " ->
    calendar_idents raw idents ->
    calendar_idents ((name, opts) :: raw) idents.

(** ** Vocabulary of the boolean coercion

    The trimmed, lower-cased form of a string, said without the
    functions of the code. *)




(** ** Vocabulary of the further properties *)

(** The error record of [Section.parse] for a missing required option. *)
Definition is_missing_option (rec : record) : bool :=
  match rec with
  | (ERROR, MissingRequiredOption _ _) => true
  | _ => false
  end.

(** The errors for the required options of a schema that a section
    lacks, in the order of the schema. *)
Definition missing_options (section : string) (schema : list field)
  (opts : options) : list record :=
  map (fun f : field => (ERROR, MissingRequiredOption (fst (fst f)) section))
      (filter (fun f => negb (supplied opts f)) schema).

(** The exceptions of the coercions: pytz on a name it does not know,
    [int] on a string that is no integer. *)
Definition coercion_error (env : Env) (e : exn) : Prop :=
  match e with
  | UnknownTimeZoneError z => pytz_timezone env z = None
  | ValueError x => int env x = None
  | _ => False
  end.


(** ** The collection of calendars of [main_khal]

    [khalendar.Calendar] and [khalendar.CalendarCollection] belong to
    another module.  Of the first only the call is known: the keyword
    arguments that it is given; what it returns, raises or logs is left
    to the module.  A collection is kept as the list of the calendars
    appended to it and its attribute [_default_calendar_name]. *)

Module khalendar.

Record kwargs : Type := mkKwargs {
  name : value;
  dbpath : value;
  path : value;
  readonly : value;
  color : value;
  unicode_symbols : value;
  local_tz : value;
  default_tz : value
}.

Record CalendarCollection (C : Type) : Type := mkCalendarCollection {
  calendars : list C;
  _default_calendar_name : value
}.

End khalendar.

(** [x in l] for a list of strings, as [arguments['-a']] and
    [arguments['-d']] are. *)
Definition py_in (x : value) (l : list string) : bool :=
  existsb (py_eq x) (map VStr l).

(** [l == list()]. *)
Definition is_empty (l : list string) : bool :=
  match l with [] => true | _ => false end.

(** The condition of the loop over [conf.calendars], [a] and [d] being
    [arguments['-a']] and [arguments['-d']]. *)
Definition selected (a d : list string) (cal : value) : M bool :=
  n <- getattr cal "name" ;;
  if py_in n a && is_empty d then ret true
  else
    n <- getattr cal "name" ;;
    ret (negb (py_in n d) && is_empty a).

Section WithKhalendar.
Variable C : Type.
Variable Calendar : khalendar.kwargs -> M C.

(** The call of [khalendar.Calendar]: its arguments are evaluated from
    left to right, then the constructor is called. *)
Definition new_calendar (conf cal : value) : M C :=
  name <- getattr cal "name" ;;
  sqlite <- getattr conf "sqlite" ;;
  dbpath <- getattr sqlite "path" ;;
  path <- getattr cal "path" ;;
  readonly <- getattr cal "readonly" ;;
  color <- getattr cal "color" ;;
  locale <- getattr conf "locale" ;;
  unicode_symbols <- getattr locale "unicode_symbols" ;;
  locale <- getattr conf "locale" ;;
  local_tz <- getattr locale "local_timezone" ;;
  locale <- getattr conf "locale" ;;
  default_tz <- getattr locale "default_timezone" ;;
  Calendar (khalendar.mkKwargs name dbpath path readonly color
                               unicode_symbols local_tz default_tz).

Definition collect (conf : value) (a d : list string) (cals : list value)
  : list C -> M (list C) :=
  for_each cals
    (fun cal collection =>
       sel <- selected a d cal ;;
       if sel : bool
       then c <- new_calendar conf cal ;; ret (collection ++ [c])
       else ret collection).

(** [main_khal] from the creation of the collection to the assignment
    of its default calendar. *)
Definition build_collection (conf : value) (a d : list string)
  : M (khalendar.CalendarCollection C) :=
  cals <- getattr conf "calendars" ;;
  cals <- iter cals ;;
  collection <- collect conf a d cals [] ;;
  default <- getattr conf "default" ;;
  default_calendar <- getattr default "default_calendar" ;;
  ret (khalendar.mkCalendarCollection collection default_calendar).
End WithKhalendar.

(** The calendars that the options [-a] and [-d] select, by name. *)
Definition selects (a d : list string) (n : string) : bool :=
  existsb (String.eqb n) a && is_empty d
  || negb (existsb (String.eqb n) d) && is_empty a.

(** ** The search for the configuration file *)

(** [os.path.join] of two components, as on POSIX. *)
Module os_path.

Definition is_absolute (p : string) : bool :=
  match p with
  | String c _ => Ascii.eqb c "/"
  | EmptyString => false
  end.

Fixpoint ends_with_sep (p : string) : bool :=
  match p with
  | EmptyString => false
  | String c EmptyString => Ascii.eqb c "/"
  | String _ p' => ends_with_sep p'
  end.

Definition join (a b : string) : string :=
  if is_absolute b then b
  else if match a with EmptyString => true | _ => ends_with_sep a end
       then (a ++ b)%string
       else (a ++ "/" ++ b)%string.

End os_path.

(** What the search takes from outside: the name of the product, the
    configuration directories of XDG, [os.path.expanduser] and
    [os.path.exists]. *)
Record Os : Type := mkOs {
  __productname__ : string;
  xdg_config_dirs : list string;
  expanduser : string -> string;
  exists_ : string -> bool
}.

(** The paths that [_find_configuration_file] tries, in order. *)
Definition paths (os : Os) : list string :=
  let DEFAULT_FILE := (__productname__ os ++ ".conf")%string in
  let DEFAULT_PATH := __productname__ os in
  let resource := os_path.join DEFAULT_PATH DEFAULT_FILE in
  let paths : list string := [] in
  let paths :=
    paths ++ map (fun path => os_path.join path resource)
                 (xdg_config_dirs os) in
  let paths :=
    paths ++ [expanduser os (os_path.join "~" ("." ++ resource)%string)] in
  let paths := paths ++ [expanduser os DEFAULT_FILE] in
  paths.

(** [for path in paths: if os.path.exists(path): return path], then
    [return None]. *)
Fixpoint first_existing (os : Os) (paths : list string) : option string :=
  match paths with
  | [] => None
  | path :: paths' =>
      if exists_ os path then Some path else first_existing os paths'
  end.

Definition _find_configuration_file (os : Os) : option string :=
  first_existing os (paths os).

(** [main_khal] from the choice of the configuration file on: [c] is
    [arguments['-c']], [read] what the raw parser reads from a path.
    The level set for [-v] only adds records of level debug, which are
    not kept. *)
Definition main_khal_config (env : Env) (os : Os)
  (read : string -> read_result) (c : option string) : M value :=
  let c := match c with
           | None => _find_configuration_file os
           | Some _ => c
           end in
  match c with
  | None => raise (SystemExit "Cannot find any config file, exiting")
  | Some cfile => main_khal env (read cfile)
  end.

(** ** The methods of [Namespace] *)

Module Namespace.

Definition __dir__ (self : dict) : list string := keys self.

(** [del self[name]] raises a [KeyError] for a key that is not there,
    and [__delattr__] lets it through. *)
Inductive del_result : Type :=
| Deleted (self : dict)
| KeyError (name : string).

Definition __delattr__ (self : dict) (name : string) : del_result :=
  if assoc_mem name self then Deleted (assoc_del name self)
  else KeyError name.

End Namespace.

(** ** Examples *)

Module Examples.

Definition utc_only : Env :=
  mkEnv (fun s => if String.eqb s "UTC" then Some "UTC" else None)
        (fun s => if String.eqb s "0" then Some 0%Z
                  else if String.eqb s "1" then Some 1%Z else None)
        (fun s => s)
        "/home/u/.cache".

Definition locale_opts : options :=
  [("local_timezone", "UTC"); ("default_timezone", "UTC");
   ("timeformat", "%H:%M"); ("dateformat", "%d.%m.");
   ("longdateformat", "%d.%m.%Y"); ("datetimeformat", "%d.%m. %H:%M");
   ("longdatetimeformat", "%d.%m.%Y %H:%M")].

Definition spec_example : raw_sections :=
  [("default", [("default_command", "agenda")]);
   ("locale", locale_opts);
   ("calendar home", [("path", "/tmp/cal")])].

(** The example of the specification with a command outside the enum. *)
Definition bogus_command_file : raw_sections :=
  [("default", [("default_command", "bogus")]);
   ("locale", locale_opts);
   ("calendar home", [("path", "/tmp/cal")])].

(** No section [default], and a timezone that pytz does not know. *)
Definition no_default_bad_timezone : raw_sections :=
  [("locale", [("local_timezone", "Mars/Olympus"); ("colour", "red")]);
   ("calendar home", [("path", "/tmp/cal")])].

(** A file without a section [locale]. *)
Definition no_locale : raw_sections :=
  [("default", []); ("calendar home", [("path", "/tmp/cal")])].

(** The example of the specification with a timezone that pytz does not
    know. *)
Definition bad_timezone_file : raw_sections :=
  [("default", [("default_command", "agenda")]);
   ("locale", ("local_timezone", "Mars/Olympus") :: List.tl locale_opts);
   ("calendar home", [("path", "/tmp/cal")])].

(** A configuration as [parse_config] assembles it, before [validate]. *)
Definition assembled_default : dict :=
  [("debug", VBool false); ("default_command", VStr "agenda");
   ("default_calendar", VBool true)].

Definition assembled_calendars : list value :=
  [VNamespace [("name", VStr "home"); ("path", VStr "/tmp/cal");
               ("readonly", VBool false); ("color", VStr "")];
   VNamespace [("name", VStr "work"); ("path", VStr "/tmp/work");
               ("readonly", VBool true); ("color", VStr "")]].

Definition assembled : dict :=
  [("default", VNamespace assembled_default);
   ("calendars", VList assembled_calendars)].

(** The example of the specification with a section [sqlite]. *)
Definition with_sqlite : raw_sections :=
  spec_example ++ [("sqlite", [("path", "/tmp/khal.db")])].

(** What [parse_config] and [main_khal] make of the two files. *)
Definition spec_outcome : res value * state :=
  Eval vm_compute in main_khal utc_only (Loaded spec_example) st0.

Definition spec_conf : value :=
  Eval vm_compute in
    match fst spec_outcome with Ok v => v | Raise _ => VNone end.

Definition with_sqlite_parsed : res value * state :=
  Eval vm_compute in parse_config utc_only (Loaded with_sqlite) st0.

Definition with_sqlite_items : dict :=
  Eval vm_compute in
    match fst with_sqlite_parsed with Ok (VNamespace i) => i | _ => [] end.

(** The state after the failed load of the file without [locale]. *)
Definition no_locale_parsed : state :=
  Eval vm_compute in snd (parse_config utc_only (Loaded no_locale) st0).

(** A parser with defaults: the section [locale] has one option of the
    schema and one that the schema does not know, and sees the
    [default_timezone] and the [dateformat] of the block [DEFAULT]. *)
Definition inheriting_locale : state :=
  mkState [("DEFAULT", [("default_timezone", "UTC"); ("dateformat", "%d.%m.")]);
           ("locale", [("local_timezone", "UTC"); ("colour", "red")])] [].

Definition inheriting_locale_parsed : state :=
  Eval vm_compute in
    snd (parse (new utc_only LocaleSection) "locale" inheriting_locale).

(** The assembled configuration after [validate]. *)
Definition validated : value :=
  Eval vm_compute in
    match fst (validate (VNamespace assembled) st0) with
    | Ok v => v
    | Raise _ => VNone
    end.

(** A configuration without calendars. *)
Definition no_calendars : dict :=
  [("default", VNamespace assembled_default); ("calendars", VList [])].

(** A system on which no configuration file exists. *)
Definition bare_os : Os :=
  mkOs "khal" ["/etc/xdg"] (fun p => p) (fun _ => false).

(** Three calendar sections among the others, the word [calendar] in
    three cases. *)
Definition three_calendars : raw_sections :=
  [("Calendar Home", [("path", "/tmp/home")]);
   ("default", [("default_command", "agenda")]);
   ("CALENDAR work", [("path", "/tmp/work"); ("readonly", "yes")]);
   ("locale", locale_opts);
   ("calendar Private", [("path", "/tmp/private")])].


(** The three calendars in a file with a block [DEFAULT]: every section
    inherits [readonly] and [color]. *)
Definition three_inheriting : raw_sections :=
  ("DEFAULT", [("readonly", "yes"); ("color", "dark red")])
    :: three_calendars.

(** Two sections [default] in a file with a block [DEFAULT] that sets
    [debug] for both. *)
Definition repeated_inheriting : raw_sections :=
  [("DEFAULT", [("debug", "yes")]);
   ("default", [("default_command", "agenda")]);
   ("locale", locale_opts);
   ("Default", [("default_command", "new")]);
   ("calendar home", [("path", "/tmp/cal")])].

(** Unknown names in a file with a block [DEFAULT], which gives every
    section a [colour] and the [dateformat] that [locale] looks up. *)
Definition unknown_inheriting : raw_sections :=
  [("DEFAULT", [("colour", "red"); ("dateformat", "%d.%m.")]);
   ("default", [("default_command", "agenda"); ("colour", "blue")]);
   ("locale", locale_opts);
   ("plugins", [("path", "/tmp/plugins")]);
   ("calendar home", [("path", "/tmp/cal"); ("sync", "hourly")])].

Definition unknown_inheriting_outcome : res value * state :=
  Eval vm_compute in parse_config utc_only (Loaded unknown_inheriting) st0.

Definition unknown_inheriting_conf : value :=
  Eval vm_compute in
    match fst unknown_inheriting_outcome with Ok v => v | Raise _ => VNone end.

(** A constructor of calendars that keeps the keyword arguments of the
    call and logs nothing. *)
Definition Calendar : khalendar.kwargs -> M khalendar.kwargs :=
  fun kw => ret kw.




(** What [main_khal] makes of the file with three calendars. *)
Definition three_outcome : res value * state :=
  Eval vm_compute in main_khal utc_only (Loaded three_calendars) st0.

Definition three_conf : value :=
  Eval vm_compute in
    match fst three_outcome with Ok v => v | Raise _ => VNone end.

End Examples.

(** * Properties *)

Unset Implicit Arguments.

(** ** Association lists *)

Section AssocFacts.
Variable V : Type.
Implicit Types (d : list (string * V)) (k : string) (v : V).

Lemma assoc_set_same k v d : assoc k (assoc_set k v d) = Some v.
Proof.
  induction d as [|[k' v'] d IH]; simpl.
  - now rewrite String.eqb_refl.
  - destruct (String.eqb k k') eqn:E; simpl.
    + now rewrite String.eqb_refl.
    + now rewrite E.
Qed.

Lemma assoc_set_other k k' v d :
  k' <> k -> assoc k' (assoc_set k v d) = assoc k' d.
Proof.
  intros N. induction d as [|[k0 v0] d IH]; simpl.
  - destruct (String.eqb_spec k' k); [contradiction|reflexivity].
  - destruct (String.eqb_spec k k0) as [->|N0]; simpl.
    + destruct (String.eqb_spec k' k0); [contradiction|reflexivity].
    + destruct (String.eqb k' k0); [reflexivity|exact IH].
Qed.

Lemma assoc_set_lookup k k' v d :
  assoc k' (assoc_set k v d) = if String.eqb k' k then Some v else assoc k' d.
Proof.
  destruct (String.eqb_spec k' k) as [->|N].
  - apply assoc_set_same.
  - now apply assoc_set_other.
Qed.

Lemma assoc_None_notin k d : assoc k d = None <-> ~ In k (keys d).
Proof.
  induction d as [|[k' v'] d IH]; simpl.
  - tauto.
  - destruct (String.eqb_spec k k') as [->|N].
    + split; [discriminate|]. intros H. exfalso. apply H. now left.
    + rewrite IH. split; intros H.
      * intros [E|I]; [now subst|tauto].
      * tauto.
Qed.

Lemma assoc_app_notin k d d' :
  ~ In k (keys d) -> assoc k (d ++ d') = assoc k d'.
Proof.
  induction d as [|[k' v'] d IH]; simpl; [reflexivity|].
  intros H. destruct (String.eqb_spec k k') as [->|N]; [tauto|].
  apply IH. tauto.
Qed.

Lemma assoc_set_app_notin k v d d' :
  ~ In k (keys d) -> assoc_set k v (d ++ d') = d ++ assoc_set k v d'.
Proof.
  induction d as [|[k' v'] d IH]; simpl; [reflexivity|].
  intros H. destruct (String.eqb_spec k k') as [->|N]; [tauto|].
  f_equal. apply IH. tauto.
Qed.

Lemma assoc_set_id k v d : assoc k d = Some v -> assoc_set k v d = d.
Proof.
  induction d as [|[k' v'] d IH]; simpl; [discriminate|].
  destruct (String.eqb_spec k k') as [->|N].
  - now intros [= ->].
  - intros H. f_equal. now apply IH.
Qed.

Lemma assoc_set_set k v v' d :
  assoc_set k v (assoc_set k v' d) = assoc_set k v d.
Proof.
  induction d as [|[k0 v0] d IH]; simpl.
  - now rewrite String.eqb_refl.
  - destruct (String.eqb k k0) eqn:E; simpl.
    + now rewrite String.eqb_refl.
    + rewrite E. now f_equal.
Qed.

Lemma keys_assoc_set k v d :
  keys (assoc_set k v d) = if assoc_mem k d then keys d else keys d ++ [k].
Proof.
  unfold assoc_mem. induction d as [|[k0 v0] d IH]; simpl; [reflexivity|].
  destruct (String.eqb_spec k k0) as [->|N]; simpl; [reflexivity|].
  rewrite IH. now destruct (assoc k d).
Qed.

Lemma NoDup_keys_assoc_set k v d :
  NoDup (keys d) -> NoDup (keys (assoc_set k v d)).
Proof.
  intros ND. rewrite keys_assoc_set. unfold assoc_mem.
  destruct (assoc k d) eqn:E; [exact ND|].
  apply assoc_None_notin in E.
  apply NoDup_app; [exact ND | repeat constructor; simpl; tauto |].
  intros x I [<-|[]]. contradiction.
Qed.

Lemma assoc_del_absent k d : assoc k d = None -> assoc_del k d = d.
Proof.
  induction d as [|[k' v'] d IH]; simpl; [reflexivity|].
  destruct (String.eqb k k'); [discriminate|].
  intros H. f_equal. now apply IH.
Qed.

Lemma assoc_del_other k k' d :
  k' <> k -> assoc k' (assoc_del k d) = assoc k' d.
Proof.
  intros N. induction d as [|[k0 v0] d IH]; simpl; [reflexivity|].
  destruct (String.eqb_spec k k0) as [->|N0]; simpl.
  - destruct (String.eqb_spec k' k0); [contradiction|reflexivity].
  - destruct (String.eqb k' k0); [reflexivity|exact IH].
Qed.

Lemma in_assoc_del k d x : In x (assoc_del k d) -> In x d.
Proof.
  induction d as [|[k0 v0] d IH]; simpl; [tauto|].
  destruct (String.eqb k k0); simpl; [tauto|].
  intros [E|I]; [now left|right; now apply IH].
Qed.

Lemma in_assoc_del_other k d x :
  fst x <> k -> In x d -> In x (assoc_del k d).
Proof.
  intros N. induction d as [|[k0 v0] d IH]; simpl; [tauto|].
  destruct (String.eqb_spec k k0) as [->|N0]; simpl.
  - intros [E|I]; [subst; simpl in N; contradiction|exact I].
  - intros [E|I]; [now left|right; now apply IH].
Qed.

Lemma NoDup_keys_assoc_del k d :
  NoDup (keys d) -> NoDup (keys (assoc_del k d)).
Proof.
  induction d as [|[k0 v0] d IH]; simpl; [trivial|].
  intros ND. inversion ND as [|? ? NI ND']; subst.
  destruct (String.eqb k k0); [exact ND'|].
  simpl. constructor; [|now apply IH].
  intros I. apply NI. unfold keys in *. apply in_map_iff in I.
  destruct I as [x [E I]]. apply in_map_iff. exists x. split; [exact E|].
  eapply in_assoc_del; eassumption.
Qed.

End AssocFacts.

(** ** The coercions *)

Lemma state_eta st : mkState (_conf_parser st) (log st) = st.
Proof. now destruct st. Qed.

Section Filters.
Variable env : Env.

Lemma log_only_bool : log_only _parse_bool_string.
Proof.
  intros x st. unfold _parse_bool_string, ret.
  match goal with |- context [existsb ?f ?l] => destruct (existsb f l) end;
    simpl; rewrite app_nil_r, state_eta;
    (repeat split; [discriminate|intros r []]).
Qed.

Lemma log_only_time_zone : log_only (_parse_time_zone env).
Proof.
  intros x st. unfold _parse_time_zone, ret, raise.
  destruct (pytz_timezone env x); simpl; rewrite app_nil_r, state_eta.
  - repeat split; [discriminate|intros r []].
  - repeat split; [now intros e [= <-]|intros r []].
Qed.

Lemma log_only_commands : log_only _parse_commands.
Proof.
  intros x st. unfold _parse_commands, ret, bind, logger.
  match goal with |- context [negb ?b] => destruct (negb b) end; simpl.
  - repeat split; [discriminate|]. now intros r [<-|[]].
  - rewrite app_nil_r, state_eta. repeat split; [discriminate|intros r []].
Qed.

Lemma log_only_expand_path : log_only (expand_path env).
Proof.
  intros x st. unfold expand_path, ret. simpl.
  rewrite app_nil_r, state_eta. repeat split; [discriminate|intros r []].
Qed.

Lemma log_only_int : log_only (py_int env).
Proof.
  intros x st. unfold py_int, ret, raise.
  destruct (int env x); simpl; rewrite app_nil_r, state_eta.
  - repeat split; [discriminate|intros r []].
  - repeat split; [now intros e [= <-]|intros r []].
Qed.

Lemma new_schema c :
  exists schema, _schema (new env c) = Some schema /\ schema_ok schema.
Proof.
  destruct c; simpl; eexists; (split; [reflexivity|]);
    repeat (apply Forall_cons;
            [simpl;
             auto using log_only_bool, log_only_time_zone,
               log_only_commands, log_only_expand_path, log_only_int|]);
    apply Forall_nil.
Qed.

Lemma filter_run (filter_ : option (string -> M value)) x st :
  match filter_ with Some g => log_only g | None => True end ->
  match filter_ with None => fun x => ret (VStr x) | Some g => g end x st
  = (fst (run_filter filter_ x),
     mkState (_conf_parser st) (log st ++ snd (run_filter filter_ x))).
Proof.
  unfold run_filter. destruct filter_ as [g|]; simpl.
  - intros H. apply (H x st).
  - intros _. unfold ret. simpl. now rewrite app_nil_r, state_eta.
Qed.

Lemma filter_not_caught (filter_ : option (string -> M value)) x e :
  match filter_ with Some g => log_only g | None => True end ->
  fst (run_filter filter_ x) = Raise e -> is_ConfigParserError e = false.
Proof.
  unfold run_filter. destruct filter_ as [g|]; simpl.
  - intros H. apply (H x st0).
  - discriminate.
Qed.

Lemma assoc_app_in (V : Type) k (x : V) (d d' : list (string * V)) :
  assoc k d = Some x -> assoc k (d ++ d') = Some x.
Proof.
  induction d as [|[k0 v0] d IH]; [discriminate|]. simpl.
  destruct (String.eqb k k0); [trivial|exact IH].
Qed.

(** The options that a section sees. *)
Lemma assoc_visible k (opts d : options) :
  assoc k (Raw.visible opts d)
  = match assoc k opts with
    | Some x => Some x
    | None => assoc k d
    end.
Proof.
  unfold Raw.visible. destruct (assoc k opts) as [x|] eqn:A.
  - now apply assoc_app_in.
  - rewrite assoc_app_notin by (now apply assoc_None_notin).
    induction d as [|[k0 v0] d IH]; [reflexivity|]. cbn [filter fst].
    unfold assoc_mem at 1.
    destruct (String.eqb_spec k k0) as [<-|N].
    + rewrite A. simpl. now rewrite String.eqb_refl.
    + destruct (assoc k0 opts); simpl.
      * destruct (String.eqb_spec k k0); [contradiction|exact IH].
      * destruct (String.eqb_spec k k0); [contradiction|exact IH].
Qed.

Lemma visible_nil (opts : options) : Raw.visible opts [] = opts.
Proof. unfold Raw.visible. simpl. apply app_nil_r. Qed.

Lemma plain_defaults cp : Raw.plain cp -> Raw._defaults cp = [].
Proof. intros [H _]. unfold Raw._defaults. now rewrite H. Qed.

Lemma plain_section cp section (opts : options) :
  Raw.plain cp -> assoc section cp = Some opts ->
  section <> "" /\ section <> Raw.DEFAULTSECT
  /\ Raw.section_dict cp section = Some opts.
Proof.
  intros [H1 H2] A. unfold Raw.section_dict.
  destruct (String.eqb_spec section Raw.DEFAULTSECT) as [->|N]; [congruence|].
  repeat split; try assumption. intros ->. congruence.
Qed.

Lemma plain_set cp section (opts opts' : options) :
  Raw.plain cp -> assoc section cp = Some opts ->
  Raw.plain (assoc_set section opts' cp).
Proof.
  intros P A. destruct (plain_section _ _ _ P A) as [N1 [N2 _]].
  destruct P as [H1 H2]. split; rewrite assoc_set_other; auto.
Qed.

(** One turn of the loop of [Section.parse], on a parser with
    defaults: the value is looked up in what the section sees, and only
    an option of the section itself is removed. *)
Lemma parse_field_eq_defaults section option default filter_ acc st opts :
  match filter_ with Some g => log_only g | None => True end ->
  section <> "" ->
  Raw.section_dict (_conf_parser st) section = Some opts ->
  parse_field section (option, default, filter_) acc st =
  match assoc (Raw.optionxform option)
              (Raw.visible opts (Raw._defaults (_conf_parser st))) with
  | Some x =>
      match run_filter filter_ x with
      | (Ok v, l) =>
          (Ok (assoc_set option v (fst acc), snd acc),
           mkState (assoc_set section
                      (assoc_del (Raw.optionxform option) opts)
                      (_conf_parser st))
                   (log st ++ l))
      | (Raise e, l) => (Raise e, mkState (_conf_parser st) (log st ++ l))
      end
  | None =>
      (Ok (assoc_set option default (fst acc), snd acc || is_None default),
       mkState (_conf_parser st)
         (log st ++ if is_None default
                    then [(ERROR, MissingRequiredOption option section)]
                    else []))
  end.
Proof.
  intros Hf Ne Hd. destruct acc as [parsed failed].
  assert (Hs : assoc section (_conf_parser st) = Some opts
               /\ String.eqb section Raw.DEFAULTSECT = false).
  { unfold Raw.section_dict in Hd.
    destruct (String.eqb section Raw.DEFAULTSECT); [discriminate|].
    now split. }
  destruct Hs as [Hs Nd].
  assert (Nb : (String.eqb section "" || String.eqb section Raw.DEFAULTSECT)
               = false).
  { rewrite Nd, orb_false_r. now apply String.eqb_neq. }
  assert (R : forall l,
             Raw.remove_option section option
               (mkState (_conf_parser st) l)
             = (Ok (assoc_mem (Raw.optionxform option) opts),
                mkState (assoc_set section
                           (assoc_del (Raw.optionxform option) opts)
                           (_conf_parser st)) l)).
  { intros l. unfold Raw.remove_option. cbn [_conf_parser log].
    now rewrite Nb, Hs. }
  unfold parse_field, try_except, bind. unfold Raw.get at 1. rewrite Hd.
  destruct (assoc (Raw.optionxform option)
              (Raw.visible opts (Raw._defaults (_conf_parser st))))
    as [x|] eqn:E.
  - rewrite (filter_run _ x st Hf).
    pose proof (filter_not_caught filter_ x) as NC.
    destruct (run_filter filter_ x) as [[v|e] l]; simpl in *.
    + now rewrite R.
    + rewrite (NC e Hf eq_refl). reflexivity.
  - simpl.
    assert (E' : assoc (Raw.optionxform option) opts = None).
    { rewrite assoc_visible in E.
      now destruct (assoc (Raw.optionxform option) opts). }
    assert (R' : forall l,
               Raw.remove_option section option
                 (mkState (_conf_parser st) l)
               = (Ok false, mkState (_conf_parser st) l)).
    { intros l. rewrite R. unfold assoc_mem.
      rewrite E', (assoc_del_absent _ _ _ E').
      do 2 f_equal. now apply assoc_set_id. }
    destruct default; simpl; unfold ret, logger; simpl;
      try (rewrite <- (state_eta st) at 1; rewrite R';
           now rewrite app_nil_r, ?orb_false_r, ?state_eta).
    rewrite R'. now rewrite orb_true_r.
Qed.

(** One turn of the loop of [Section.parse], on a parser without
    defaults. *)
Lemma parse_field_eq section option default filter_ acc st opts :
  match filter_ with Some g => log_only g | None => True end ->
  Raw.plain (_conf_parser st) ->
  assoc section (_conf_parser st) = Some opts ->
  parse_field section (option, default, filter_) acc st =
  match assoc (Raw.optionxform option) opts with
  | Some x =>
      match run_filter filter_ x with
      | (Ok v, l) =>
          (Ok (assoc_set option v (fst acc), snd acc),
           mkState (assoc_set section
                      (assoc_del (Raw.optionxform option) opts)
                      (_conf_parser st))
                   (log st ++ l))
      | (Raise e, l) => (Raise e, mkState (_conf_parser st) (log st ++ l))
      end
  | None =>
      (Ok (assoc_set option default (fst acc), snd acc || is_None default),
       mkState (_conf_parser st)
         (log st ++ if is_None default
                    then [(ERROR, MissingRequiredOption option section)]
                    else []))
  end.
Proof.
  intros Hf P Hs. destruct (plain_section _ _ _ P Hs) as [Ne [_ Hd]].
  rewrite (parse_field_eq_defaults _ _ _ _ _ _ _ Hf Ne Hd).
  now rewrite (plain_defaults _ P), visible_nil.
Qed.

(** The loop of [Section.parse], by the options of its section. *)
Lemma fields_eq section schema :
  schema_ok schema ->
  forall opts acc st,
    Raw.plain (_conf_parser st) ->
    assoc section (_conf_parser st) = Some opts ->
    for_each schema (parse_field section) acc st =
    let '(r, opts', l) := fields section schema opts acc in
    (r, mkState (assoc_set section opts' (_conf_parser st)) (log st ++ l)).
Proof.
  induction 1 as [|[[option default] filter_] schema Hf Hs IH];
    intros opts acc st P Hst.
  - simpl. unfold ret.
    now rewrite (assoc_set_id _ _ _ _ Hst), app_nil_r, state_eta.
  - simpl in Hf. cbn [for_each fields]. unfold bind at 1.
    rewrite (parse_field_eq _ _ _ _ _ _ _ Hf P Hst).
    destruct (assoc (Raw.optionxform option) opts) as [x|] eqn:E.
    + destruct (run_filter filter_ x) as [[v|e] l].
      * rewrite (IH (assoc_del (Raw.optionxform option) opts)); simpl.
        2: exact (plain_set _ _ _ _ P Hst).
        2: apply assoc_set_same.
        destruct (fields _ _ _ _) as [[r opts'] l'].
        now rewrite assoc_set_set, app_assoc.
      * now rewrite (assoc_set_id _ _ _ _ Hst).
    + rewrite (IH opts); simpl; [|exact P|exact Hst].
      destruct (fields _ _ _ _) as [[r opts'] l'].
      now rewrite app_assoc.
Qed.
End Filters.

(** ** The scan of the sections *)

Section Scan.
Variable env : Env.

(** The first class of the registry that matches a section name. *)
Lemma get_section_parser_eq section :
  _get_section_parser env section =
  if String.eqb "default" (Str.lower section)
  then Some (new env DefaultSection)
  else if String.eqb "locale" (Str.lower section)
  then Some (new env LocaleSection)
  else if String.eqb "sqlite" (Str.lower section)
  then Some (new env SQLiteSection)
  else match calendar_re section with
       | Some n =>
           Some (mkSection CalendarSection "calendars"
                   (Some (calendar_schema env)) [("name", VStr n)])
       | None => None
       end.
Proof.
  unfold _get_section_parser, _sections, first_match, matches.
  cbn [new cls _group _schema _parsed].
  destruct (String.eqb "default" (Str.lower section)); [reflexivity|].
  destruct (String.eqb "locale" (Str.lower section)); [reflexivity|].
  destruct (String.eqb "sqlite" (Str.lower section)); [reflexivity|].
  destruct (calendar_re section); reflexivity.
Qed.

Lemma get_section_parser_schema section parser :
  _get_section_parser env section = Some parser ->
  exists c, cls parser = c
            /\ _group parser = _group (new env c)
            /\ _schema parser = _schema (new env c).
Proof.
  rewrite get_section_parser_eq.
  destruct (String.eqb "default" _);
    [intros [= <-]; now exists DefaultSection|].
  destruct (String.eqb "locale" _);
    [intros [= <-]; now exists LocaleSection|].
  destruct (String.eqb "sqlite" _);
    [intros [= <-]; now exists SQLiteSection|].
  destruct (calendar_re section); [|discriminate].
  intros [= <-]; now exists CalendarSection.
Qed.

Lemma parse_section_eq section acc st opts :
  Raw.plain (_conf_parser st) ->
  assoc section (_conf_parser st) = Some opts ->
  parse_section env section acc st =
  let '(r, opts', l) := section_run env section opts acc in
  (r, mkState (assoc_set section opts' (_conf_parser st)) (log st ++ l)).
Proof.
  intros P Hst. destruct acc as [items failed].
  unfold parse_section, section_run.
  destruct (_get_section_parser env section) as [parser|] eqn:G.
  - destruct (get_section_parser_schema _ _ G) as [c [_ [_ Hsch]]].
    destruct (new_schema env c) as [schema [Hs Hok]].
    rewrite Hs in Hsch. unfold parse. rewrite Hsch.
    unfold bind at 1. unfold bind at 1.
    rewrite (fields_eq section schema Hok opts _ st P Hst).
    destruct (fields section schema opts (_parsed parser, false))
      as [[[[parsed [|]]|e] opts'] l]; cbn [fst snd ret]; try reflexivity.
    unfold store. destruct (is_collection parser); [|reflexivity].
    unfold bind, append.
    match goal with
    | |- context [assoc (_group parser) ?d] =>
        destruct (assoc (_group parser) d) as [[]|]; reflexivity
    end.
  - unfold bind, logger, ret; simpl.
    now rewrite (assoc_set_id _ _ _ _ Hst).
Qed.

Lemma plain_keys (a b : raw_sections) :
  keys a = keys b -> Raw.plain a -> Raw.plain b.
Proof.
  intros K [H1 H2]. split; apply assoc_None_notin; rewrite <- K;
    now apply assoc_None_notin.
Qed.

Lemma scan_eq raw :
  forall done acc lg,
    NoDup (keys raw) ->
    (forall k, In k (keys done) -> ~ In k (keys raw)) ->
    Raw.plain (done ++ raw) ->
    for_each (keys raw) (parse_section env) acc (mkState (done ++ raw) lg) =
    let '(r, raw', l) := scan env raw acc in
    (r, mkState (done ++ raw') (lg ++ l)).
Proof.
  induction raw as [|[section opts] raw IH]; intros done acc lg ND Hd P.
  - simpl. unfold ret. now rewrite !app_nil_r.
  - change (keys ((section, opts) :: raw)) with (section :: keys raw).
    cbn [for_each scan]. unfold bind at 1.
    assert (Hn : ~ In section (keys done)).
    { intros I. apply (Hd _ I). now left. }
    rewrite (parse_section_eq section acc _ opts).
    2: exact P.
    2:{ simpl. rewrite assoc_app_notin by exact Hn.
        simpl. now rewrite String.eqb_refl. }
    destruct (section_run env section opts acc) as [[[acc'|e] opts'] l];
      cbn [_conf_parser log];
      rewrite assoc_set_app_notin by exact Hn; simpl;
      rewrite String.eqb_refl.
    + inversion ND as [|? ? NI ND']; subst.
      change (done ++ (section, opts') :: raw)
        with (done ++ [(section, opts')] ++ raw).
      rewrite app_assoc.
      rewrite (IH (done ++ [(section, opts')]) acc' (lg ++ l) ND').
      * destruct (scan env raw acc') as [[r raw'] l'].
        now rewrite <- !app_assoc.
      * intros k I. unfold keys in I. rewrite map_app in I.
        apply in_app_or in I. destruct I as [I|[<-|[]]].
        -- intros I'. apply (Hd _ I). now right.
        -- exact NI.
      * refine (plain_keys _ _ _ P). unfold keys.
        now rewrite <- app_assoc, !map_app.
    + reflexivity.
Qed.

Lemma scan_keys raw :
  forall acc, keys (snd (fst (scan env raw acc))) = keys raw.
Proof.
  induction raw as [|[section opts] raw IH]; intros acc; [reflexivity|].
  cbn [scan].
  destruct (section_run env section opts acc) as [[[acc'|e] opts'] l].
  - specialize (IH acc'). destruct (scan env raw acc') as [[r raw'] l'].
    simpl in *. now rewrite IH.
  - reflexivity.
Qed.

Lemma check_required_eq items st :
  check_required env items st =
  (Ok (negb (match missing_required items with [] => true | _ => false end)),
   mkState (_conf_parser st)
     (log st ++ map (fun g => (ERROR, MissingRequiredSection g))
                    (missing_required items))).
Proof.
  unfold check_required, missing_required, _required_sections.
  cbn [map new _group for_each filter]. unfold bind, logger, ret.
  destruct (assoc_mem "default" items), (assoc_mem "locale" items),
    (assoc_mem "calendars" items); simpl;
    rewrite <- ?app_assoc, ?app_nil_r, ?state_eta; reflexivity.
Qed.

Lemma warn_options_eq section (opts : options) st :
  for_each (keys opts)
    (fun option (_ : unit) => logger WARNING (UnknownOption option section))
    tt st
  = (Ok tt,
     mkState (_conf_parser st)
       (log st ++ map (fun o => (WARNING, UnknownOption (fst o) section))
                      opts)).
Proof.
  revert st. induction opts as [|[o v] opts IH]; intros st; simpl.
  - unfold ret. now rewrite app_nil_r, state_eta.
  - unfold bind, logger. rewrite IH. simpl. now rewrite <- app_assoc.
Qed.

Lemma sections_plain (raw : raw_sections) :
  Raw.plain raw ->
  filter (fun section => negb (String.eqb section Raw.DEFAULTSECT)) (keys raw)
  = keys raw.
Proof.
  intros [H _]. apply assoc_None_notin in H.
  induction (keys raw) as [|k l IH]; [reflexivity|]. simpl.
  destruct (String.eqb_spec k Raw.DEFAULTSECT) as [->|N].
  - exfalso. apply H. now left.
  - simpl. f_equal. apply IH. intros I. apply H. now right.
Qed.

Lemma warn_sections_eq raw :
  forall done lg,
    NoDup (keys raw) ->
    (forall k, In k (keys done) -> ~ In k (keys raw)) ->
    Raw.plain (done ++ raw) ->
    for_each (keys raw)
      (fun section (_ : unit) =>
         bind (Raw.options section)
           (fun opts =>
              for_each opts
                (fun option (_ : unit) =>
                   logger WARNING (UnknownOption option section)) tt))
      tt (mkState (done ++ raw) lg)
    = (Ok tt, mkState (done ++ raw) (lg ++ leftovers raw)).
Proof.
  induction raw as [|[section opts] raw IH]; intros done lg ND Hd P.
  - simpl. unfold ret. now rewrite !app_nil_r.
  - change (keys ((section, opts) :: raw)) with (section :: keys raw).
    cbn [for_each]. unfold bind at 1. unfold bind at 1.
    assert (Hn : ~ In section (keys done)).
    { intros I. apply (Hd _ I). now left. }
    assert (A : assoc section (done ++ (section, opts) :: raw) = Some opts).
    { rewrite assoc_app_notin by exact Hn. simpl.
      now rewrite String.eqb_refl. }
    destruct (plain_section _ _ _ P A) as [_ [_ Sd]].
    unfold Raw.options at 1. cbn [_conf_parser]. rewrite Sd.
    rewrite (plain_defaults _ P), visible_nil. rewrite warn_options_eq.
    inversion ND as [|? ? NI ND']; subst. cbn [_conf_parser log].
    change (done ++ (section, opts) :: raw)
      with (done ++ [(section, opts)] ++ raw).
    rewrite app_assoc.
    rewrite (IH (done ++ [(section, opts)]) _ ND').
    + unfold leftovers. simpl. now rewrite <- !app_assoc.
    + intros k I. unfold keys in I. rewrite map_app in I.
      apply in_app_or in I. destruct I as [I|[<-|[]]].
      * intros I'. apply (Hd _ I). now right.
      * exact NI.
    + now rewrite <- app_assoc.
Qed.

Lemma warn_leftovers_eq raw lg :
  Raw.names_ok raw ->
  warn_leftovers (mkState raw lg) = (Ok tt, mkState raw (lg ++ leftovers raw)).
Proof.
  intros [ND P]. unfold warn_leftovers, bind, Raw.sections.
  cbn [_conf_parser]. rewrite (sections_plain raw P).
  apply (warn_sections_eq raw [] lg ND); [intros k []|exact P].
Qed.

(** [parse_config] on a file that was read, by the scan of its
    sections. *)
Lemma parse_config_eq raw st :
  Raw.names_ok raw ->
  parse_config env (Loaded raw) st =
  let '(r, raw', l) := scan env raw ([], false) in
  match r with
  | Raise e => (Raise e, mkState raw' (log st ++ l))
  | Ok (items, failed) =>
      (Ok (if negb (match missing_required items with
                    | [] => true | _ => false end) || failed
           then VNone else VNamespace items),
       mkState raw'
         (log st ++ l
          ++ map (fun g => (ERROR, MissingRequiredSection g))
                 (missing_required items)
          ++ leftovers raw'))
  end.
Proof.
  intros NO. pose proof NO as [ND P].
  unfold parse_config, set_conf_parser, Raw.sections, dump.
  unfold bind at 1 2 3 4. cbn [_conf_parser log].
  rewrite (sections_plain raw P).
  assert (SE := scan_eq raw [] ([], false) (log st) ND
                  (fun k (I : In k []) => match I with end) P).
  cbn [app] in SE. rewrite SE. clear SE.
  pose proof (scan_keys raw ([], false)) as K.
  destruct (scan env raw ([], false)) as [[[[items failed]|e] raw'] l];
    cbn [fst snd] in K; cbn [app]; [|reflexivity].
  unfold bind at 1. rewrite check_required_eq. cbn [_conf_parser log].
  unfold bind at 1.
  rewrite warn_leftovers_eq
    by (split; [rewrite K; exact ND|exact (plain_keys _ _ (eq_sym K) P)]).
  unfold bind, ret.
  rewrite <- !app_assoc.
  match goal with |- context [negb ?b || failed] =>
    destruct (negb b || failed) end; reflexivity.
Qed.
End Scan.

(** ** Boolean coercion *)





(** The boolean coercion returns a boolean and leaves the state. *)
Lemma parse_bool_string_bool (s : string) (st : state) :
  exists b : bool, _parse_bool_string s st = (Ok (VBool b), st).
Proof.
  unfold _parse_bool_string, ret.
  match goal with |- context [existsb ?f ?l] => destruct (existsb f l) end;
    now eexists.
Qed.

Example parse_bool_string_examples :
  map (fun s => fst (_parse_bool_string s st0))
      ["True"; "yes"; "1"; "TRUE"; "  Yes "; "no"; "0"; "false"; "garbage"; ""]
  = map (fun b => Ok (VBool b))
      [true; true; true; true; true; false; false; false; false; false].
Proof. reflexivity. Qed.

(** ** [validate] *)

Lemma names_of_getattr cals :
  forall ns st,
    names_of cals = Some ns ->
    map_M (fun cal => getattr cal "name") cals st = (Ok (map VStr ns), st).
Proof.
  induction cals as [|cal cals IH]; intros ns st; simpl.
  - now intros [= <-].
  - destruct (name_of cal) as [n|] eqn:N; [|discriminate].
    destruct (names_of cals) as [ns'|]; [|discriminate].
    intros [= <-]. unfold bind. unfold name_of in N.
    destruct cal as [| | | | | |d]; try discriminate. simpl.
    destruct (assoc "name" d) as [[]|]; try discriminate.
    injection N as ->. unfold ret at 1. rewrite (IH ns' st eq_refl).
    reflexivity.
Qed.

Lemma existsb_py_eq s ns :
  existsb (py_eq (VStr s)) (map VStr ns) = true <-> In s ns.
Proof.
  induction ns as [|n ns IH]; simpl; [split; [discriminate|tauto]|].
  rewrite orb_true_iff, IH.
  destruct (String.eqb_spec s n) as [->|N]; split; auto.
  - intros [H|H]; [discriminate|now right].
  - intros [H|H]; [now subst|now right].
Qed.

(** C2.  On a configuration with a non-empty list of calendars:
    when [default.default_calendar] is the boolean [True], [validate]
    sets it to the name of the first calendar and returns the
    configuration; when it is a string naming a calendar, [validate]
    returns the configuration; when it is a string naming none, it
    returns [None]. *)
Theorem validate_spec (items d : dict) (cal_name : value) (cals : list value)
    (n0 : string) (ns : list string) (st : state) :
  assoc "default" items = Some (VNamespace d) ->
  assoc "default_calendar" d = Some cal_name ->
  assoc "calendars" items = Some (VList cals) ->
  names_of cals = Some (n0 :: ns) ->
  (cal_name = VBool true ->
   validate (VNamespace items) st =
   (Ok (VNamespace
          (assoc_set "default"
             (VNamespace (assoc_set "default_calendar" (VStr n0) d)) items)),
    st))
  /\ (forall s, cal_name = VStr s -> In s (n0 :: ns) ->
      validate (VNamespace items) st = (Ok (VNamespace items), st))
  /\ (forall s, cal_name = VStr s -> ~ In s (n0 :: ns) ->
      validate (VNamespace items) st =
      (Ok VNone,
       mkState (_conf_parser st)
               (log st ++ [(FATAL, NotAValidCalendar cal_name)]))).
Proof.
  intros Hd Hc Hl Hn. repeat split.
  - intros ->. unfold validate, bind, getattr, ret. rewrite Hd, Hc, Hl.
    destruct cals as [|cal cals]; [discriminate|]. simpl in Hn.
    destruct (name_of cal) as [n|] eqn:N; [|discriminate].
    destruct (names_of cals); [|discriminate]. injection Hn as -> _.
    unfold name_of in N. destruct cal as [| | | | | |c]; try discriminate.
    simpl. destruct (assoc "name" c) as [[]|]; try discriminate.
    injection N as ->. reflexivity.
  - intros s -> I. unfold validate, bind, getattr, iter, ret.
    rewrite Hd, Hc, Hl. rewrite (names_of_getattr _ _ _ Hn).
    apply existsb_py_eq in I. rewrite I. reflexivity.
  - intros s -> I. unfold validate, bind, getattr, iter, ret.
    rewrite Hd, Hc, Hl. rewrite (names_of_getattr _ _ _ Hn).
    destruct (existsb (py_eq (VStr s)) (map VStr (n0 :: ns))) eqn:X.
    + apply existsb_py_eq in X. contradiction.
    + reflexivity.
Qed.

(** C9.  [validate] on [None] raises an [AttributeError]; so when
    [parse_config] returns [None], [main_khal] ends with that exception
    and not with the exit on an invalid configuration; and whenever
    [validate] returns, its argument was not [None]. *)
Theorem validate_None_raises (env : Env) (cfile : read_result)
    (st st' : state) :
  parse_config env cfile st = (Ok VNone, st') ->
  validate VNone st' = (Raise (AttributeError "default"), st')
  /\ main_khal env cfile st = (Raise (AttributeError "default"), st')
  /\ (forall conf s v s', validate conf s = (Ok v, s') -> conf <> VNone).
Proof.
  intros H. repeat split.
  - unfold main_khal, bind. rewrite H. reflexivity.
  - intros conf s v s' V ->. discriminate.
Qed.

(** ** Defaults *)

Lemma fields_cons section option default filter_ schema opts acc :
  fields section ((option, default, filter_) :: schema) opts acc =
  match assoc (Raw.optionxform option) opts with
  | Some x =>
      match run_filter filter_ x with
      | (Ok v, l) =>
          let '(r, opts', l') :=
            fields section schema (assoc_del (Raw.optionxform option) opts)
                   (assoc_set option v (fst acc), snd acc) in
          (r, opts', l ++ l')
      | (Raise e, l) => (Raise e, opts, l)
      end
  | None =>
      let '(r, opts', l') :=
        fields section schema opts
               (assoc_set option default (fst acc),
                snd acc || is_None default) in
      (r, opts',
       (if is_None default
        then [(ERROR, MissingRequiredOption option section)]
        else []) ++ l')
  end.
Proof. reflexivity. Qed.

Lemma assoc_del_None (V : Type) k k' (d : list (string * V)) :
  assoc k d = None -> assoc k (assoc_del k' d) = None.
Proof.
  intros H. apply assoc_None_notin. apply assoc_None_notin in H.
  intros I. apply H. unfold keys in *. apply in_map_iff in I.
  destruct I as [x [E I]]. apply in_map_iff. exists x. split; [exact E|].
  eapply in_assoc_del; eassumption.
Qed.

(** The loop leaves alone the keys of [_parsed] that are not options of
    the schema. *)
Lemma fields_preserve section schema :
  forall opts acc r opts' l k,
    ~ In k (option_names schema) ->
    fields section schema opts acc = (Ok r, opts', l) ->
    assoc k (fst r) = assoc k (fst acc).
Proof.
  induction schema as [|[[o d] f] schema IH]; intros opts acc r opts' l k NI.
  - simpl. now intros [= <- _ _].
  - simpl in NI. cbn [fields].
    destruct (assoc (Raw.optionxform o) opts) as [x|].
    + destruct (run_filter f x) as [[v|e] lf]; [|discriminate].
      destruct (fields section schema _ _) as [[r1 o1] l1] eqn:F.
      intros [= -> _ _]. rewrite (IH _ _ _ _ _ k (fun I => NI (or_intror I)) F).
      simpl. apply assoc_set_other. intros ->. apply NI. now left.
    + destruct (fields section schema _ _) as [[r1 o1] l1] eqn:F.
      intros [= -> _ _]. rewrite (IH _ _ _ _ _ k (fun I => NI (or_intror I)) F).
      simpl. apply assoc_set_other. intros ->. apply NI. now left.
Qed.

Lemma fields_default section schema :
  forall opts acc r opts' l option default filter_,
    NoDup (option_names schema) ->
    In (option, default, filter_) schema ->
    assoc (Raw.optionxform option) opts = None ->
    fields section schema opts acc = (Ok r, opts', l) ->
    assoc option (fst r) = Some default.
Proof.
  induction schema as [|[[o d] f] schema IH];
    intros opts acc r opts' l option default filter_ ND I A; [destruct I|].
  simpl in ND. inversion ND as [|? ? NI ND']; subst. cbn [fields].
  destruct I as [[= -> -> ->]|I].
  - rewrite A. destruct (fields section schema _ _) as [[r1 o1] l1] eqn:F.
    intros [= -> _ _]. rewrite (fields_preserve _ _ _ _ _ _ _ _ NI F).
    simpl. apply assoc_set_same.
  - destruct (assoc (Raw.optionxform o) opts) as [x|].
    + destruct (run_filter f x) as [[v|e] lf]; [|discriminate].
      destruct (fields section schema _ _) as [[r1 o1] l1] eqn:F.
      intros [= -> _ _].
      refine (IH _ _ _ _ _ _ _ _ ND' I _ F). now apply assoc_del_None.
    + destruct (fields section schema _ _) as [[r1 o1] l1] eqn:F.
      intros [= -> _ _]. exact (IH _ _ _ _ _ _ _ _ ND' I A F).
Qed.

Lemma new_option_names env c : NoDup (option_names (schema_of (new env c))).
Proof.
  destruct c; simpl;
    repeat (constructor; [simpl; intuition discriminate|]); constructor.
Qed.

(** [Section.parse] in terms of [fields]. *)
Lemma parse_eq env c parser section st opts :
  _schema parser = _schema (new env c) ->
  Raw.plain (_conf_parser st) ->
  assoc section (_conf_parser st) = Some opts ->
  parse parser section st =
  let '(r, opts', l) :=
    fields section (schema_of (new env c)) opts (_parsed parser, false) in
  (match r with
   | Ok (parsed, failed) => Ok (if failed then VNone else VNamespace parsed)
   | Raise e => Raise e
   end,
   mkState (assoc_set section opts' (_conf_parser st)) (log st ++ l)).
Proof.
  intros Hp P Hst. destruct (new_schema env c) as [schema [Hs Hok]].
  unfold parse, schema_of. rewrite Hp, Hs. unfold bind.
  rewrite (fields_eq section schema Hok opts _ st P Hst).
  destruct (fields section schema opts (_parsed parser, false))
    as [[[[parsed [|]]|e] opts'] l]; reflexivity.
Qed.

(** ** The command enum *)

(** A command outside the enum is logged and coerced to [None]; the
    coercion does not raise and [failed] is not set, so the section is
    parsed with [default_command] set to [None]. *)
Lemma invalid_command_coerced (env : Env) (section command : string)
    (opts : options) (st : state) :
  existsb (String.eqb command) commands = false ->
  Raw.plain (_conf_parser st) ->
  assoc section (_conf_parser st) = Some opts ->
  assoc "default_command" opts = Some command ->
  exists ns st',
    parse (new env DefaultSection) section st = (Ok (VNamespace ns), st')
    /\ assoc "default_command" ns = Some VNone
    /\ In (ERROR, InvalidCommand command) (log st').
Proof.
  intros Hc P Hst Ho.
  rewrite (parse_eq env DefaultSection _ section st opts eq_refl P Hst).
  cbn [schema_of new _schema _parsed]. rewrite fields_cons.
  change (Raw.optionxform "debug") with "debug". cbn [fst snd].
  assert (RB : forall x, exists b,
               run_filter (Some _parse_bool_string) x = (Ok (VBool b), [])).
  { intros x. unfold run_filter.
    destruct (parse_bool_string_bool x st0) as [b E].
    exists b. now rewrite E. }
  assert (RC : run_filter (Some _parse_commands) command
               = (Ok VNone, [(ERROR, InvalidCommand command)])).
  { unfold run_filter, _parse_commands. now rewrite Hc. }
  assert (F : forall o acc,
             assoc "default_command" o = Some command ->
             exists parsed l o',
               fields section
                 [("default_command", VStr "calendar", Some _parse_commands);
                  ("default_calendar", VBool true, None)] o acc
               = (Ok (parsed, snd acc), o', l)
               /\ assoc "default_command" parsed = Some VNone
               /\ In (ERROR, InvalidCommand command) l).
  { intros o acc Hx. rewrite fields_cons.
    change (Raw.optionxform "default_command") with "default_command".
    rewrite Hx, RC. rewrite fields_cons.
    change (Raw.optionxform "default_calendar") with "default_calendar".
    cbn [fields].
    destruct (assoc "default_calendar" (assoc_del "default_command" o));
      cbn [run_filter ret fst snd log st0 app is_None];
      rewrite ?orb_false_r; do 3 eexists;
      (split; [reflexivity|]); (split; [|now left]);
      (rewrite assoc_set_other by discriminate); apply assoc_set_same. }
  destruct (assoc "debug" opts) as [x|] eqn:D.
  - destruct (RB x) as [b ->].
    destruct (F (assoc_del "debug" opts) (assoc_set "debug" (VBool b) [], false))
      as [parsed [l [o' [-> [A I]]]]].
    { now rewrite assoc_del_other by discriminate. }
    cbn [snd app]. do 2 eexists. split; [reflexivity|]. split; [exact A|].
    cbn [log]. apply in_or_app. now right.
  - cbn [is_None orb app].
    destruct (F opts (assoc_set "debug" (VBool false) [], false))
      as [parsed [l [o' [-> [A I]]]]]; [exact Ho|].
    cbn [snd app]. do 2 eexists. split; [reflexivity|]. split; [exact A|].
    cbn [log]. apply in_or_app. now right.
Qed.

(** C3 on the code, at a file whose [default_command] is outside the
    enum: the section [default] is parsed into a namespace whose
    [default_command] is [None], an error is logged, and [parse_config]
    returns a configuration instead of [None]. *)
Theorem invalid_command_not_rejected :
  parse (new Examples.utc_only DefaultSection) "default"
        (mkState Examples.bogus_command_file [])
  = (Ok (VNamespace [("debug", VBool false); ("default_command", VNone);
                     ("default_calendar", VBool true)]),
     mkState [("default", []); ("locale", Examples.locale_opts);
              ("calendar home", [("path", "/tmp/cal")])]
             [(ERROR, InvalidCommand "bogus")])
  /\ exists items st',
      parse_config Examples.utc_only (Loaded Examples.bogus_command_file) st0
      = (Ok (VNamespace items), st')
      /\ assoc "default" items
         = Some (VNamespace [("debug", VBool false); ("default_command", VNone);
                             ("default_calendar", VBool true)])
      /\ log st' = [(ERROR, InvalidCommand "bogus")].
Proof.
  split; [reflexivity|]. do 2 eexists.
  split; [vm_compute; reflexivity|]. split; reflexivity.
Qed.

(** ** One section *)

Lemma nodupb_NoDup l : nodupb l = true -> NoDup l.
Proof.
  induction l as [|x l IH]; simpl; [constructor|].
  rewrite andb_true_iff, negb_true_iff. intros [E N].
  constructor; [|now apply IH].
  intros I. assert (X : existsb (String.eqb x) l = true).
  { apply existsb_exists. exists x. split; [exact I|apply String.eqb_refl]. }
  congruence.
Qed.

Lemma existsb_eqb_notin k l : existsb (String.eqb k) l = false -> ~ In k l.
Proof.
  intros E I. assert (X : existsb (String.eqb k) l = true).
  { apply existsb_exists. exists k. split; [exact I|apply String.eqb_refl]. }
  congruence.
Qed.

Lemma wfb_wf raw : Raw.wfb raw = true -> Raw.wf raw.
Proof.
  unfold Raw.wfb, Raw.wf, Raw.names_ok, Raw.plain.
  rewrite !andb_true_iff, !negb_true_iff, forallb_forall.
  intros [[[N D] E] F]. repeat split.
  - now apply nodupb_NoDup.
  - apply assoc_None_notin. now apply existsb_eqb_notin.
  - apply assoc_None_notin. now apply existsb_eqb_notin.
  - apply Forall_forall. intros s I. apply nodupb_NoDup. now apply F.
Qed.

Lemma forallb_ext_in (A : Type) (f g : A -> bool) l :
  (forall x, In x l -> f x = g x) -> forallb f l = forallb g l.
Proof.
  induction l as [|x l IH]; simpl; [reflexivity|].
  intros H. rewrite (H x (or_introl eq_refl)), IH; [reflexivity|].
  intros y I. apply H. now right.
Qed.

Lemma existsb_ext_in (A : Type) (f g : A -> bool) l :
  (forall x, In x l -> f x = g x) -> existsb f l = existsb g l.
Proof.
  induction l as [|x l IH]; simpl; [reflexivity|].
  intros H. rewrite (H x (or_introl eq_refl)), IH; [reflexivity|].
  intros y I. apply H. now right.
Qed.

Section OneSection.
Variable env : Env.

Lemma schema_for_class section c :
  class_of env section = Some c ->
  schema_for env section = schema_of (new env c).
Proof.
  unfold class_of, schema_for.
  destruct (_get_section_parser env section) as [parser|] eqn:G;
    [|discriminate].
  destruct (get_section_parser_schema env _ _ G) as [c' [<- [_ Hs]]].
  intros [= <-]. unfold schema_of. now rewrite Hs.
Qed.

Lemma schema_for_cases section :
  schema_for env section = []
  \/ exists c, class_of env section = Some c
               /\ schema_for env section = schema_of (new env c).
Proof.
  destruct (class_of env section) as [c|] eqn:C.
  - right. exists c. split; [reflexivity|now apply schema_for_class].
  - left. unfold class_of, schema_for in *.
    now destruct (_get_section_parser env section).
Qed.

Lemma new_option_names_xform c :
  NoDup (map Raw.optionxform (option_names (schema_of (new env c)))).
Proof.
  destruct c; cbv [option_names schema_of new _schema map fst];
    repeat (constructor; [simpl; intuition discriminate|]); constructor.
Qed.

Lemma schema_for_names section :
  NoDup (map Raw.optionxform (option_names (schema_for env section))).
Proof.
  destruct (schema_for_cases section) as [->|[c [_ ->]]].
  - constructor.
  - apply new_option_names_xform.
Qed.

Lemma schema_for_ok section : schema_ok (schema_for env section).
Proof.
  destruct (schema_for_cases section) as [->|[c [_ ->]]].
  - constructor.
  - destruct (new_schema env c) as [schema [Hs Hok]].
    unfold schema_of. now rewrite Hs.
Qed.

Lemma coerces_del opts k f :
  Raw.optionxform (fst (fst f)) <> k ->
  coerces (assoc_del k opts) f = coerces opts f.
Proof. intros N. unfold coerces. now rewrite assoc_del_other. Qed.

Lemma supplied_del opts k f :
  Raw.optionxform (fst (fst f)) <> k ->
  supplied (assoc_del k opts) f = supplied opts f.
Proof. intros N. unfold supplied. now rewrite assoc_del_other. Qed.

Lemma notin_names_neq k schema (f : field) :
  ~ In k (map Raw.optionxform (option_names schema)) ->
  In f schema -> Raw.optionxform (fst (fst f)) <> k.
Proof.
  intros NI I E. apply NI. rewrite <- E. unfold option_names.
  rewrite map_map. apply in_map_iff. now exists f.
Qed.

(** When every supplied value is accepted by its coercion, the loop of
    [Section.parse] runs to its end: it consumes the options of the
    schema and sets [failed] exactly when a required option is
    missing. *)
Lemma fields_total section schema :
  forall opts acc,
    NoDup (map Raw.optionxform (option_names schema)) ->
    forallb (coerces opts) schema = true ->
    exists parsed l,
      fields section schema opts acc =
      (Ok (parsed, snd acc || negb (forallb (supplied opts) schema)),
       consume schema opts, l).
Proof.
  induction schema as [|[[o d] f] schema IH]; intros opts acc ND Hc.
  - exists (fst acc), []. simpl. rewrite orb_false_r. now destruct acc.
  - simpl in ND. inversion ND as [|? ? NI ND']; subst.
    simpl in Hc. apply andb_true_iff in Hc. destruct Hc as [Hc1 Hc2].
    rewrite fields_cons. cbn [forallb consume fold_left fst snd].
    unfold coerces in Hc1. unfold supplied at 1. cbn [fst snd] in *.
    destruct (assoc (Raw.optionxform o) opts) as [x|] eqn:A.
    + destruct (run_filter f x) as [[v|e] lf]; [|discriminate].
      destruct (IH (assoc_del (Raw.optionxform o) opts)
                   (assoc_set o v (fst acc), snd acc) ND') as [parsed [l E]].
      { rewrite <- Hc2. apply forallb_ext_in. intros g I.
        apply coerces_del. now apply (notin_names_neq _ schema). }
      assert (S : forallb (supplied (assoc_del (Raw.optionxform o) opts))
                          schema
                  = forallb (supplied opts) schema).
      { apply forallb_ext_in. intros g I.
        apply supplied_del. now apply (notin_names_neq _ schema). }
      rewrite S in E. rewrite E. exists parsed, (lf ++ l). reflexivity.
    + destruct (IH opts (assoc_set o d (fst acc), snd acc || is_None d) ND' Hc2)
        as [parsed [l E]].
      rewrite E. eexists parsed, _. cbn [snd].
      rewrite (assoc_del_absent _ _ _ A).
      replace (negb (negb (is_None d) && forallb (supplied opts) schema))
        with (is_None d || negb (forallb (supplied opts) schema))
        by (destruct (is_None d), (forallb (supplied opts) schema);
            reflexivity).
      rewrite orb_assoc. reflexivity.
Qed.

(** Whenever the loop runs to its end, the options of the schema are
    consumed. *)
Lemma fields_consume section schema :
  forall opts acc r opts' l,
    fields section schema opts acc = (Ok r, opts', l) ->
    opts' = consume schema opts.
Proof.
  induction schema as [|[[o d] f] schema IH]; intros opts acc r opts' l.
  - simpl. now intros [= _ <- _].
  - rewrite fields_cons. cbn [consume fold_left fst snd].
    destruct (assoc (Raw.optionxform o) opts) as [x|] eqn:A.
    + destruct (run_filter f x) as [[v|e] lf]; [|discriminate].
      destruct (fields section schema _ _) as [[r1 o1] l1] eqn:F.
      intros [= -> <- _]. exact (IH _ _ _ _ _ F).
    + destruct (fields section schema _ _) as [[r1 o1] l1] eqn:F.
      intros [= -> <- _]. rewrite (assoc_del_absent _ _ _ A).
      exact (IH _ _ _ _ _ F).
Qed.

(** The loop logs errors only. *)
Lemma fields_log section schema :
  schema_ok schema ->
  forall opts acc r opts' l rec,
    fields section schema opts acc = (r, opts', l) ->
    In rec l -> fst rec = ERROR.
Proof.
  induction 1 as [|[[o d] f] schema Hf Hs IH]; intros opts acc r opts' l rec.
  - simpl. now intros [= _ _ <-].
  - rewrite fields_cons. simpl in Hf.
    destruct (assoc (Raw.optionxform o) opts) as [x|] eqn:A.
    + assert (L : forall rec, In rec (snd (run_filter f x)) -> fst rec = ERROR).
      { unfold run_filter. destruct f as [g|]; simpl; [|tauto].
        apply (Hf x st0). }
      destruct (run_filter f x) as [[v|e] lf]; simpl in L.
      * destruct (fields section schema _ _) as [[r1 o1] l1] eqn:F.
        intros [= _ _ <-] I. apply in_app_or in I. destruct I as [I|I].
        -- now apply L.
        -- exact (IH _ _ _ _ _ _ F I).
      * intros [= _ _ <-]. apply L.
    + destruct (fields section schema _ _) as [[r1 o1] l1] eqn:F.
      intros [= _ _ <-] I. apply in_app_or in I. destruct I as [I|I].
      * destruct (is_None d); [|destruct I]. now destruct I as [<-|[]].
      * exact (IH _ _ _ _ _ _ F I).
Qed.
End OneSection.

(** ** Matching *)

Lemma lower_take k s : Str.lower (Str.take k s) = Str.take k (Str.lower s).
Proof.
  revert s. induction k as [|k IH]; intros [|c s]; simpl; try reflexivity.
  now rewrite IH.
Qed.

(** A name of the form [calendar <identifier>] is none of the exact
    names of the other classes. *)
Lemma calendar_re_not_exact section n :
  calendar_re section = Some n ->
  String.eqb "default" (Str.lower section) = false
  /\ String.eqb "locale" (Str.lower section) = false
  /\ String.eqb "sqlite" (Str.lower section) = false.
Proof.
  unfold calendar_re. rewrite lower_take.
  destruct (String.eqb_spec (Str.take 9 (Str.lower section)) "calendar ")
    as [E|]; [|discriminate].
  intros _. repeat split;
    match goal with |- String.eqb ?a _ = false =>
      destruct (String.eqb_spec a (Str.lower section)) as [X|]; [|reflexivity];
      rewrite <- X in E; discriminate
    end.
Qed.

Section Matching.
Variable env : Env.

Lemma class_of_eq section :
  class_of env section =
  if String.eqb "default" (Str.lower section) then Some DefaultSection
  else if String.eqb "locale" (Str.lower section) then Some LocaleSection
  else if String.eqb "sqlite" (Str.lower section) then Some SQLiteSection
  else match calendar_re section with
       | Some _ => Some CalendarSection
       | None => None
       end.
Proof.
  unfold class_of. rewrite get_section_parser_eq.
  destruct (String.eqb "default" _); [reflexivity|].
  destruct (String.eqb "locale" _); [reflexivity|].
  destruct (String.eqb "sqlite" _); [reflexivity|].
  now destruct (calendar_re section).
Qed.

Lemma class_of_calendar section :
  class_of env section = Some CalendarSection <->
  exists n, calendar_re section = Some n.
Proof.
  split.
  - rewrite class_of_eq.
    destruct (String.eqb "default" _); [discriminate|].
    destruct (String.eqb "locale" _); [discriminate|].
    destruct (String.eqb "sqlite" _); [discriminate|].
    destruct (calendar_re section) as [n|]; [|discriminate]. now exists n.
  - intros [n E]. rewrite class_of_eq.
    destruct (calendar_re_not_exact _ _ E) as [-> [-> ->]]. now rewrite E.
Qed.

Lemma parsed0_eq section :
  parsed0 env section =
  match class_of env section, calendar_re section with
  | Some CalendarSection, Some n => [("name", VStr n)]
  | _, _ => []
  end.
Proof.
  unfold parsed0. rewrite class_of_eq, get_section_parser_eq.
  destruct (String.eqb "default" _); [reflexivity|].
  destruct (String.eqb "locale" _); [reflexivity|].
  destruct (String.eqb "sqlite" _); [reflexivity|].
  now destruct (calendar_re section).
Qed.

Lemma store_class parser c values acc :
  cls parser = c -> _group parser = group_name c ->
  store parser values acc = store (new env c) values acc.
Proof.
  intros Hc Hg. destruct acc as [items failed].
  unfold store, is_collection. rewrite Hc, Hg. now destruct c.
Qed.

(** The effect of one section on the loop of [parse_config]. *)
Lemma section_run_eq section opts acc :
  section_run env section opts acc =
  match class_of env section with
  | None => (Ok acc, opts, [(WARNING, UnknownSection section)])
  | Some c =>
      let '(r, opts', l) :=
        fields section (schema_for env section) opts
               (parsed0 env section, false) in
      match r with
      | Raise e => (Raise e, opts', l)
      | Ok (_, true) => (Ok (fst acc, true), opts', l)
      | Ok (parsed, false) =>
          (store (new env c) (VNamespace parsed) acc, opts', l)
      end
  end.
Proof.
  unfold section_run, class_of, schema_for, parsed0.
  destruct (_get_section_parser env section) as [parser|] eqn:G;
    [|reflexivity].
  destruct (get_section_parser_schema env _ _ G) as [c [Hc [Hg Hs]]].
  destruct (new_schema env c) as [schema [Hn _]].
  rewrite Hn in Hs. unfold schema_of. rewrite Hs. cbn [option_map].
  destruct (fields section schema opts (_parsed parser, false))
    as [[[[parsed [|]]|e] opts'] l]; try reflexivity.
  rewrite Hc. f_equal. f_equal. apply store_class; [exact Hc|].
  rewrite Hg. now destruct c.
Qed.

Lemma store_slot c values items failed :
  c <> CalendarSection ->
  store (new env c) values (items, failed)
  = Ok (assoc_set (group_name c) values items, failed).
Proof. destruct c; try reflexivity. now intros []. Qed.

Lemma store_calendar values items failed :
  store (new env CalendarSection) values (items, failed) =
  match assoc "calendars" items with
  | None | Some (VList _) =>
      Ok (assoc_set "calendars" (VList (cal_list items ++ [values])) items,
          failed)
  | Some _ => Raise (AttributeError "append")
  end.
Proof.
  unfold store, cal_list, assoc_mem. cbn [is_collection new cls _group].
  destruct (assoc "calendars" items) as [v|] eqn:A; cbn [negb].
  - rewrite A. destruct v; reflexivity.
  - rewrite assoc_set_same. now rewrite assoc_set_set.
Qed.
End Matching.

Example matching_examples :
  map (class_of Examples.utc_only)
      ["default"; "Default"; "LOCALE"; "sqlite"; "calendar home";
       "Calendar Home"; "calendars"; "calendar"; "other"]
  = [Some DefaultSection; Some DefaultSection; Some LocaleSection;
     Some SQLiteSection; Some CalendarSection; Some CalendarSection;
     None; None; None]
  /\ map calendar_re ["calendar home"; "CALENDAR Work"; "calendar "; "calendar"]
     = [Some "home"; Some "Work"; Some ""; None].
Proof. split; reflexivity. Qed.

(** ** The result of the scan *)

Section ScanResult.
Variable env : Env.

Lemma scan_cons section opts raw acc :
  scan env ((section, opts) :: raw) acc =
  match section_run env section opts acc with
  | (Ok acc', opts', l) =>
      let '(r, rest, l') := scan env raw acc' in
      (r, (section, opts') :: rest, l ++ l')
  | (Raise e, opts', l) => (Raise e, (section, opts') :: raw, l)
  end.
Proof. reflexivity. Qed.

Lemma class_of_None_schema section :
  class_of env section = None -> schema_for env section = [].
Proof.
  unfold class_of, schema_for.
  now destruct (_get_section_parser env section).
Qed.

(** What one section does to the loop when its parse does not raise. *)
Lemma section_run_Ok section opts items failed items' failed' opts' l :
  section_run env section opts (items, failed)
  = (Ok (items', failed'), opts', l) ->
  items' = file_one env items (section, opts)
  /\ failed' = failed || fails env (section, opts)
  /\ opts' = left_in env (section, opts)
  /\ (forall rec, In rec l -> scan_record rec).
Proof.
  rewrite section_run_eq. unfold file_one, fails, values_of, left_in.
  cbn [fst snd].
  destruct (class_of env section) as [c|] eqn:C.
  - destruct (fields section (schema_for env section) opts
                (parsed0 env section, false))
      as [[[[parsed [|]]|e] o1] l1] eqn:F; [| |discriminate].
    + intros [= <- <- <- <-]. rewrite orb_true_r.
      repeat split; [exact (fields_consume _ _ _ _ _ _ _ F)|].
      intros rec I. left.
      exact (fields_log _ _ (schema_for_ok env section) _ _ _ _ _ _ F I).
    + intros H.
      assert (S : store (new env c) (VNamespace parsed) (items, failed)
                  = Ok (items', failed') /\ o1 = opts' /\ l1 = l).
      { injection H as H1 H2 H3. now subst. }
      destruct S as [S [<- <-]]. rewrite orb_false_r.
      assert (P : items' = put c (VNamespace parsed) items
                  /\ failed' = failed).
      { destruct c;
          try (cbn in S; injection S as <- <-; split; reflexivity).
        rewrite store_calendar in S. cbn [put].
        destruct (assoc "calendars" items) as [[]|];
          try discriminate; now injection S as <- <-. }
      destruct P as [-> ->].
      repeat split; [exact (fields_consume _ _ _ _ _ _ _ F)|].
      intros rec I. left.
      exact (fields_log _ _ (schema_for_ok env section) _ _ _ _ _ _ F I).
  - intros [= <- <- <- <-]. rewrite orb_false_r.
    rewrite (class_of_None_schema _ C). repeat split.
    intros rec [<-|[]]. right. now exists section.
Qed.

(** What the scan of the sections returns when no coercion raises:
    the values filed, the flag, the options left, the records. *)
Lemma scan_Ok raw :
  forall items failed items' failed' raw' l,
    scan env raw (items, failed) = (Ok (items', failed'), raw', l) ->
    items' = filed env raw items
    /\ failed' = failed || existsb (fails env) raw
    /\ raw' = map (fun s => (fst s, left_in env s)) raw
    /\ (forall rec, In rec l -> scan_record rec).
Proof.
  induction raw as [|[section opts] raw IH];
    intros items failed items' failed' raw' l.
  - simpl. intros [= <- <- <- <-]. rewrite orb_false_r.
    repeat split. intros rec [].
  - rewrite scan_cons.
    destruct (section_run env section opts (items, failed))
      as [[[[items1 failed1]|e] opts1] l1] eqn:R; [|discriminate].
    destruct (section_run_Ok _ _ _ _ _ _ _ _ R) as [-> [-> [-> L1]]].
    destruct (scan env raw _) as [[r2 raw2] l2] eqn:S.
    intros H.
    assert (H' : r2 = Ok (items', failed')
                 /\ (section, left_in env (section, opts)) :: raw2 = raw'
                 /\ l1 ++ l2 = l) by (injection H as H1 H2 H3; now subst).
    destruct H' as [-> [<- <-]].
    destruct (IH _ _ _ _ _ _ S) as [-> [-> [-> L2]]].
    cbn [filed fold_left existsb map fst]. rewrite orb_assoc.
    repeat split. intros rec I. apply in_app_or in I.
    destruct I as [I|I]; [now apply L1|now apply L2].
Qed.
End ScanResult.

(** ** Sections whose values are all accepted *)

Section Accepted.
Variable env : Env.

Lemma is_class_iff c s :
  is_class env c s = true <-> class_of env (fst s) = Some c.
Proof.
  unfold is_class. destruct (class_of env (fst s)) as [[]|], c;
    split; intros H; try reflexivity; discriminate.
Qed.

Lemma values_of_ok s c :
  class_of env (fst s) = Some c ->
  coercible env s = true ->
  exists parsed,
    values_of env s
    = (if complete env s then Some (VNamespace parsed) else None)
    /\ (forall k, ~ In k (option_names (schema_for env (fst s))) ->
                  assoc k parsed = assoc k (parsed0 env (fst s))).
Proof.
  intros C Hc. unfold values_of, complete. rewrite C.
  destruct (fields_total (fst s) (schema_for env (fst s)) (snd s)
              (parsed0 env (fst s), false) (schema_for_names env (fst s)) Hc)
    as [parsed [l F]].
  rewrite F. cbn [snd orb]. exists parsed. split.
  - now destruct (forallb (supplied (snd s)) (schema_for env (fst s))).
  - intros k NI. exact (fields_preserve _ _ _ _ _ _ _ _ NI F).
Qed.

Lemma fails_complete s :
  coercible env s = true -> fails env s = negb (complete env s).
Proof.
  intros Hc. unfold fails.
  destruct (class_of env (fst s)) as [c|] eqn:C.
  - destruct (values_of_ok s c C Hc) as [parsed [-> _]].
    now destruct (complete env s).
  - unfold complete. now rewrite (class_of_None_schema env _ C).
Qed.

Lemma items_inv_put c v items :
  items_inv items -> items_inv (put c v items).
Proof.
  unfold items_inv. destruct c; cbn [put group_name];
    try (now rewrite assoc_set_other by discriminate).
  intros _. now rewrite assoc_set_same.
Qed.

Lemma items_inv_file_one items s :
  items_inv items -> items_inv (file_one env items s).
Proof.
  unfold file_one. destruct (class_of env (fst s)); [|trivial].
  destruct (values_of env s); [|trivial]. apply items_inv_put.
Qed.

Lemma section_run_total section opts items failed :
  coercible env (section, opts) = true ->
  items_inv items ->
  exists acc' opts' l,
    section_run env section opts (items, failed) = (Ok acc', opts', l).
Proof.
  intros Hc Hi. rewrite section_run_eq.
  destruct (class_of env section) as [c|] eqn:C; [|now do 3 eexists].
  destruct (fields_total section (schema_for env section) opts
              (parsed0 env section, false) (schema_for_names env section) Hc)
    as [parsed [l ->]].
  cbn [snd orb].
  destruct (negb (forallb (supplied opts) (schema_for env section)));
    [now do 3 eexists|].
  destruct c; try (now do 3 eexists).
  rewrite store_calendar. unfold items_inv in Hi.
  destruct (assoc "calendars" items) as [[]|]; try contradiction;
    now do 3 eexists.
Qed.

(** When every supplied value is accepted by its coercion, the scan
    of the sections raises nothing. *)
Lemma scan_total raw :
  forall items failed,
    forallb (coercible env) raw = true ->
    items_inv items ->
    exists acc' raw' l, scan env raw (items, failed) = (Ok acc', raw', l).
Proof.
  induction raw as [|[section opts] raw IH]; intros items failed Hc Hi.
  - now do 3 eexists.
  - simpl in Hc. apply andb_true_iff in Hc. destruct Hc as [Hc1 Hc2].
    rewrite scan_cons.
    destruct (section_run_total section opts items failed Hc1 Hi)
      as [[items1 failed1] [opts1 [l1 R]]].
    rewrite R.
    destruct (section_run_Ok env _ _ _ _ _ _ _ _ R) as [-> _].
    destruct (IH (file_one env items (section, opts)) failed1 Hc2
                (items_inv_file_one _ _ Hi)) as [acc' [raw' [l E]]].
    rewrite E. now do 3 eexists.
Qed.

Lemma assoc_mem_set (V : Type) k k' (v : V) d :
  assoc_mem k (assoc_set k' v d) = String.eqb k k' || assoc_mem k d.
Proof.
  unfold assoc_mem. rewrite assoc_set_lookup.
  now destruct (String.eqb k k').
Qed.

(** A group is in [items] after the scan when it was there before or
    a section of its class was parsed. *)
Lemma file_one_mem c items s :
  assoc_mem (group_name c) (file_one env items s)
  = assoc_mem (group_name c) items
    || (is_class env c s && negb (fails env s)).
Proof.
  unfold file_one, fails, is_class.
  destruct (class_of env (fst s)) as [c'|];
    [|now rewrite orb_false_r].
  destruct (values_of env s) as [v|];
    [|rewrite andb_false_r; now rewrite orb_false_r].
  assert (E : assoc_mem (group_name c) (put c' v items)
              = String.eqb (group_name c) (group_name c')
                || assoc_mem (group_name c) items).
  { destruct c'; cbn [put]; apply assoc_mem_set. }
  rewrite E, orb_comm. f_equal. now destruct c', c.
Qed.

Lemma filed_mem c raw :
  forall items,
    assoc_mem (group_name c) (filed env raw items)
    = assoc_mem (group_name c) items
      || existsb (fun s => is_class env c s && negb (fails env s)) raw.
Proof.
  unfold filed. induction raw as [|s raw IH]; intros items; simpl.
  - now rewrite orb_false_r.
  - rewrite IH, file_one_mem. now rewrite orb_assoc.
Qed.

Lemma filed_inv raw :
  forall items, items_inv items -> items_inv (filed env raw items).
Proof.
  induction raw as [|s raw IH]; intros items Hi; [exact Hi|].
  apply IH. now apply items_inv_file_one.
Qed.

Lemma names_of_app l :
  forall ns v n,
    names_of l = Some ns -> name_of v = Some n ->
    names_of (l ++ [v]) = Some (ns ++ [n]).
Proof.
  induction l as [|x l IH]; intros ns v n; simpl.
  - intros [= <-] ->. reflexivity.
  - destruct (name_of x) as [nx|]; [|discriminate].
    destruct (names_of l) as [nl|]; [|discriminate].
    intros [= <-] Hv. now rewrite (IH nl v n eq_refl Hv).
Qed.

Lemma cal_list_put c v items :
  cal_list (put c v items)
  = match c with
    | CalendarSection => cal_list items ++ [v]
    | _ => cal_list items
    end.
Proof.
  unfold cal_list. destruct c; cbn [put group_name];
    try (now rewrite assoc_set_other by discriminate).
  now rewrite assoc_set_same.
Qed.

(** The calendars filed by the scan carry, in file order, the
    identifiers of the sections named [calendar <identifier>]. *)
Lemma filed_names raw :
  forall items ns,
    forallb (coercible env) raw = true ->
    forallb (complete env) raw = true ->
    names_of (cal_list items) = Some ns ->
    names_of (cal_list (filed env raw items))
    = Some (ns ++ calendar_names raw).
Proof.
  induction raw as [|s raw IH]; intros items ns Hc Hp Hn.
  - simpl. now rewrite app_nil_r.
  - simpl in Hc, Hp. apply andb_true_iff in Hc, Hp.
    destruct Hc as [Hc1 Hc2], Hp as [Hp1 Hp2].
    cbn [filed fold_left calendar_names flat_map].
    change (fold_left (file_one env) raw (file_one env items s))
      with (filed env raw (file_one env items s)).
    change (flat_map _ raw) with (calendar_names raw).
    unfold file_one at 1.
    destruct (class_of env (fst s)) as [c|] eqn:C.
    + destruct (values_of_ok s c C Hc1) as [parsed [V P]].
      rewrite Hp1 in V. rewrite V.
      destruct (calendar_re (fst s)) as [n|] eqn:R.
      * assert (C' : class_of env (fst s) = Some CalendarSection)
          by (apply class_of_calendar; now exists n).
        rewrite C in C'. injection C' as ->.
        rewrite (IH _ (ns ++ [n]) Hc2 Hp2); [now rewrite <- app_assoc|].
        rewrite cal_list_put. apply names_of_app; [exact Hn|].
        unfold name_of. rewrite P.
        -- rewrite parsed0_eq, C, R. reflexivity.
        -- rewrite (schema_for_class env _ _ C). simpl.
           intuition discriminate.
      * assert (N : c <> CalendarSection).
        { intros ->. apply class_of_calendar in C. destruct C as [n E].
          congruence. }
        rewrite (IH _ ns Hc2 Hp2); [reflexivity|].
        rewrite cal_list_put. now destruct c.
    + destruct (calendar_re (fst s)) as [n|] eqn:R.
      * assert (C' : class_of env (fst s) = Some CalendarSection)
          by (apply class_of_calendar; now exists n).
        congruence.
      * now rewrite (IH _ ns Hc2 Hp2).
Qed.
End Accepted.

(** ** [parse_config] when no coercion raises *)

Section Returns.
Variable env : Env.

(** [parse_config] whenever the scan of the sections raises nothing. *)
Lemma parse_config_Ok raw st acc raw' l :
  Raw.names_ok raw ->
  scan env raw ([], false) = (Ok acc, raw', l) ->
  let items := filed env raw [] in
  let failed := negb (match missing_required items with
                      | [] => true | _ => false end)
                || existsb (fails env) raw in
  (forall rec, In rec l -> scan_record rec)
  /\ parse_config env (Loaded raw) st =
     (Ok (if failed then VNone else VNamespace items),
      mkState (map (fun s => (fst s, left_in env s)) raw)
        (log st ++ l
         ++ map (fun g => (ERROR, MissingRequiredSection g))
                (missing_required items)
         ++ leftovers (map (fun s => (fst s, left_in env s)) raw))).
Proof.
  intros ND S. destruct acc as [items' failed'].
  destruct (scan_Ok env _ _ _ _ _ _ _ S) as [-> [-> [-> L]]].
  split; [exact L|]. rewrite (parse_config_eq env raw st ND), S.
  reflexivity.
Qed.

Lemma parse_config_total raw st :
  Raw.wfb raw = true ->
  forallb (coercible env) raw = true ->
  exists l,
    let items := filed env raw [] in
    let failed := negb (match missing_required items with
                        | [] => true | _ => false end)
                  || existsb (fun s => negb (complete env s)) raw in
    (forall rec, In rec l -> scan_record rec)
    /\ parse_config env (Loaded raw) st =
       (Ok (if failed then VNone else VNamespace items),
        mkState (map (fun s => (fst s, left_in env s)) raw)
          (log st ++ l
           ++ map (fun g => (ERROR, MissingRequiredSection g))
                  (missing_required items)
           ++ leftovers (map (fun s => (fst s, left_in env s)) raw))).
Proof.
  intros W Hc. destruct (wfb_wf _ W) as [ND _].
  destruct (scan_total env raw [] false Hc I) as [acc [raw' [l S]]].
  exists l. destruct (parse_config_Ok raw st acc raw' l ND S) as [L E].
  split; [exact L|]. rewrite E.
  replace (existsb (fails env) raw)
    with (existsb (fun s => negb (complete env s)) raw); [reflexivity|].
  apply existsb_ext_in. intros s Hs. symmetry. apply fails_complete.
  rewrite forallb_forall in Hc. now apply Hc.
Qed.

Lemma missing_required_nil items :
  assoc_mem "default" items = true ->
  assoc_mem "locale" items = true ->
  assoc_mem "calendars" items = true ->
  missing_required items = [].
Proof.
  unfold missing_required. simpl. now intros -> -> ->.
Qed.

Lemma missing_required_cons c items :
  c <> SQLiteSection ->
  assoc_mem (group_name c) items = false ->
  exists g gs, missing_required items = g :: gs.
Proof.
  unfold missing_required. simpl.
  destruct c; simpl; intros N H; try contradiction; rewrite H; simpl;
    repeat match goal with
      | |- context [if negb ?b then _ else _] => destruct b; simpl
      end; now do 2 eexists.
Qed.
End Returns.

(** ** The calendars of a complete file *)

Lemma names_of_length cals :
  forall ns, names_of cals = Some ns -> List.length cals = List.length ns.
Proof.
  induction cals as [|c cals IH]; intros ns; simpl.
  - now intros [= <-].
  - destruct (name_of c); [|discriminate].
    destruct (names_of cals) as [ns'|]; [|discriminate].
    intros [= <-]. simpl. now rewrite (IH ns' eq_refl).
Qed.

Lemma calendar_names_length env raw :
  List.length (calendar_names raw)
  = List.length (filter (is_class env CalendarSection) raw).
Proof.
  induction raw as [|s raw IH]; [reflexivity|].
  cbn [calendar_names flat_map filter]. rewrite List.length_app.
  change (flat_map _ raw) with (calendar_names raw). rewrite IH.
  destruct (calendar_re (fst s)) as [n|] eqn:R.
  - assert (C : is_class env CalendarSection s = true).
    { apply is_class_iff, class_of_calendar. now exists n. }
    now rewrite C.
  - destruct (is_class env CalendarSection s) eqn:C; [|reflexivity].
    apply is_class_iff, class_of_calendar in C. destruct C as [n E].
    congruence.
Qed.

Lemma existsb_negb_forallb (A : Type) (f : A -> bool) l :
  existsb (fun x => negb (f x)) l = negb (forallb f l).
Proof.
  induction l as [|x l IH]; simpl; [reflexivity|].
  rewrite IH. now destruct (f x), (forallb f l).
Qed.

Lemma filed_mem_complete env c raw :
  forallb (coercible env) raw = true ->
  assoc_mem (group_name c) (filed env raw [])
  = existsb (fun s => is_class env c s && complete env s) raw.
Proof.
  intros Hc. rewrite filed_mem. cbn [assoc_mem assoc orb].
  apply existsb_ext_in. intros s I. rewrite fails_complete.
  - now rewrite negb_involutive.
  - rewrite forallb_forall in Hc. now apply Hc.
Qed.

(** ** Missing sections *)

(** C5 as the code has it.  When no coercion raises and, for one of the
    classes [default], [locale] and [calendar], every section of the
    class lacks a required option (in particular when there is no such
    section), [parse_config] returns [None], having scanned every
    section: each section is left with the options its schema does not
    consume. *)
Theorem parse_config_missing (env : Env) (raw : raw_sections) (st : state)
    (c : SectionClass) :
  Raw.wfb raw = true ->
  forallb (coercible env) raw = true ->
  c <> SQLiteSection ->
  forallb (fun s => negb (is_class env c s) || negb (complete env s)) raw
  = true ->
  exists st',
    parse_config env (Loaded raw) st = (Ok VNone, st')
    /\ _conf_parser st' = map (fun s => (fst s, left_in env s)) raw.
Proof.
  intros W Hc Hn Hm.
  destruct (parse_config_total env raw st W Hc) as [l [_ E]].
  cbv zeta in E.
  assert (F : negb (match missing_required (filed env raw []) with
                    | [] => true | _ => false end)
              || existsb (fun s => negb (complete env s)) raw = true).
  { destruct (existsb (fun s => negb (complete env s)) raw) eqn:X;
      [now rewrite orb_true_r|].
    rewrite orb_false_r.
    assert (M : assoc_mem (group_name c) (filed env raw []) = false).
    { rewrite (filed_mem_complete env c raw Hc).
      apply not_true_is_false. intros Y. apply existsb_exists in Y.
      destruct Y as [s [I0 Y]]. apply andb_true_iff in Y.
      destruct Y as [Y1 Y2].
      rewrite forallb_forall in Hm. specialize (Hm s I0).
      rewrite existsb_negb_forallb in X. apply negb_false_iff in X.
      rewrite forallb_forall in X. rewrite Y1, (X s I0) in Hm.
      discriminate. }
    destruct (missing_required_cons c _ Hn M) as [g [gs ->]]. reflexivity. }
  rewrite F in E. eexists. split; [exact E|reflexivity].
Qed.

(** C5 as stated fails: a file without a section [default] whose
    section [locale] names a timezone that pytz does not know makes
    [parse_config] raise instead of returning [None]. *)
Lemma parse_config_missing_raises :
  existsb (is_class Examples.utc_only DefaultSection)
          Examples.no_default_bad_timezone = false
  /\ parse_config Examples.utc_only (Loaded Examples.no_default_bad_timezone)
                  st0
     = (Raise (UnknownTimeZoneError "Mars/Olympus"),
        mkState Examples.no_default_bad_timezone [])
  /\ fst (parse_config Examples.utc_only
                       (Loaded Examples.no_default_bad_timezone) st0)
     <> Ok VNone.
Proof.
  split; [reflexivity|]. split; [reflexivity|]. discriminate.
Qed.

(** ** Timezones *)

Section Timezones.
Variable env : Env.

Lemma run_time_zone z :
  run_filter (Some (_parse_time_zone env)) z
  = (match pytz_timezone env z with
     | Some tz => Ok (VTz tz)
     | None => Raise (UnknownTimeZoneError z)
     end, []).
Proof.
  unfold run_filter, _parse_time_zone. cbn [fst snd].
  now destruct (pytz_timezone env z).
Qed.

(** The loop of [Section.parse] on a section [locale] with a timezone
    that pytz does not know stops at that field with the exception of
    pytz. *)
Lemma fields_locale_raises section opts acc z :
  assoc "local_timezone" opts = Some z
  \/ assoc "default_timezone" opts = Some z ->
  pytz_timezone env z = None ->
  exists z' opts' l,
    fields section (schema_of (new env LocaleSection)) opts acc
    = (Raise (UnknownTimeZoneError z'), opts', l)
    /\ pytz_timezone env z' = None.
Proof.
  intros H Hz. cbn [schema_of new _schema]. rewrite fields_cons.
  change (Raw.optionxform "local_timezone") with "local_timezone".
  assert (Second : forall o a,
             assoc "default_timezone" o = Some z ->
             exists z' opts' l,
               fields section
                 (List.tl (schema_of (new env LocaleSection))) o a
               = (Raise (UnknownTimeZoneError z'), opts', l)
               /\ pytz_timezone env z' = None).
  { intros o a Ho. cbn [schema_of new _schema List.tl]. rewrite fields_cons.
    change (Raw.optionxform "default_timezone") with "default_timezone".
    rewrite Ho, run_time_zone, Hz. now exists z, o, []. }
  cbn [schema_of new _schema List.tl] in Second.
  destruct (assoc "local_timezone" opts) as [z0|] eqn:A.
  - rewrite run_time_zone.
    destruct (pytz_timezone env z0) as [tz|] eqn:Z0.
    + destruct H as [H|H]; [congruence|].
      destruct (Second (assoc_del "local_timezone" opts)
                  (assoc_set "local_timezone" (VTz tz) (fst acc), snd acc))
        as [z' [opts' [l [-> Hz']]]].
      { now rewrite assoc_del_other by discriminate. }
      now exists z', opts', ([] ++ l).
    + now exists z0, opts, [].
  - destruct H as [H|H]; [discriminate|].
    destruct (Second opts
                (assoc_set "local_timezone" VNone (fst acc),
                 snd acc || is_None VNone) H)
      as [z' [opts' [l [-> Hz']]]].
    now eexists z', opts', _.
Qed.

Lemma section_run_locale_raises section opts acc z :
  class_of env section = Some LocaleSection ->
  assoc "local_timezone" opts = Some z
  \/ assoc "default_timezone" opts = Some z ->
  pytz_timezone env z = None ->
  exists z' opts' l,
    section_run env section opts acc
    = (Raise (UnknownTimeZoneError z'), opts', l)
    /\ pytz_timezone env z' = None.
Proof.
  intros C H Hz. rewrite section_run_eq, C.
  rewrite (schema_for_class env _ _ C).
  destruct (fields_locale_raises section opts (parsed0 env section, false)
              z H Hz) as [z' [opts' [l [-> Hz']]]].
  now exists z', opts', l.
Qed.

(** An exception in a section ends the scan there or earlier; the
    sections that follow are not visited. *)
Lemma scan_raises pre section opts post :
  (forall acc, exists e opts' l,
      section_run env section opts acc = (Raise e, opts', l)) ->
  forall acc,
  exists e raw' l done,
    scan env (pre ++ (section, opts) :: post) acc = (Raise e, raw', l)
    /\ raw' = done ++ post.
Proof.
  intros R. induction pre as [|[n o] pre IH]; intros acc.
  - cbn [app]. rewrite scan_cons.
    destruct (R acc) as [e [opts' [l ->]]].
    now exists e, ((section, opts') :: post), l, [(section, opts')].
  - cbn [app]. rewrite scan_cons.
    destruct (section_run env n o acc) as [[[acc'|e] o'] l].
    + destruct (IH acc') as [e [raw' [l' [done [-> ->]]]]].
      now exists e, ((n, o') :: done ++ post), (l ++ l'), ((n, o') :: done).
    + exists e, ((n, o') :: pre ++ (section, opts) :: post), l,
        ((n, o') :: pre ++ [(section, opts)]).
      split; [reflexivity|]. cbn [app]. now rewrite <- app_assoc.
Qed.

End Timezones.

(** ** Unknown sections and options *)

Section Unknown.
Variable env : Env.

Lemma assoc_filter (P : string -> bool) k (opts : options) :
  assoc k (filter (fun o => P (fst o)) opts)
  = if P k then assoc k opts else None.
Proof.
  induction opts as [|[k' v] opts IH]; simpl.
  - now destruct (P k).
  - destruct (P k') eqn:Pk'; simpl.
    + destruct (String.eqb_spec k k') as [->|N].
      * now rewrite Pk'.
      * exact IH.
    + rewrite IH. destruct (String.eqb_spec k k') as [->|N];
        [now rewrite Pk'|reflexivity].
Qed.

(** The loop of [Section.parse] depends on the options of the section
    only through the options of the schema. *)
Lemma fields_ext section schema :
  forall opts1 opts2 acc,
    NoDup (map Raw.optionxform (option_names schema)) ->
    (forall f, In f schema ->
               assoc (Raw.optionxform (fst (fst f))) opts1
               = assoc (Raw.optionxform (fst (fst f))) opts2) ->
    fst (fst (fields section schema opts1 acc))
    = fst (fst (fields section schema opts2 acc))
    /\ snd (fields section schema opts1 acc)
       = snd (fields section schema opts2 acc).
Proof.
  induction schema as [|[[o d] f] schema IH]; intros opts1 opts2 acc ND H.
  - now split.
  - simpl in ND. inversion ND as [|? ? NI ND']; subst.
    rewrite !fields_cons. pose proof (H _ (or_introl eq_refl)) as H0.
    cbn [fst] in H0. rewrite <- H0. cbn [fst snd].
    destruct (assoc (Raw.optionxform o) opts1) as [x|].
    + destruct (run_filter f x) as [[v|e] lf]; [|now split].
      destruct (IH (assoc_del (Raw.optionxform o) opts1)
                   (assoc_del (Raw.optionxform o) opts2)
                   (assoc_set o v (fst acc), snd acc) ND') as [E1 E2].
      { intros g I0.
        rewrite !assoc_del_other
          by (now apply (notin_names_neq _ schema)).
        apply H. now right. }
      destruct (fields section schema (assoc_del _ opts1) _) as [[r1 o1] l1].
      destruct (fields section schema (assoc_del _ opts2) _) as [[r2 o2] l2].
      simpl in *. now subst.
    + destruct (IH opts1 opts2
                   (assoc_set o d (fst acc), snd acc || is_None d) ND')
        as [E1 E2].
      { intros g I0. apply H. now right. }
      destruct (fields section schema opts1 _) as [[r1 o1] l1].
      destruct (fields section schema opts2 _) as [[r2 o2] l2].
      simpl in *. now subst.
Qed.

Lemma section_run_known section opts acc :
  fst (fst (section_run env section opts acc))
  = fst (fst (section_run env section
                (filter (fun o => looked_up env section (fst o)) opts) acc)).
Proof.
  rewrite !section_run_eq.
  destruct (class_of env section) as [c|]; [|reflexivity].
  destruct (fields_ext section (schema_for env section) opts
              (filter (fun o => looked_up env section (fst o)) opts)
              (parsed0 env section, false) (schema_for_names env section))
    as [E1 E2].
  { intros f I0. rewrite assoc_filter.
    assert (L : looked_up env section (Raw.optionxform (fst (fst f))) = true).
    { unfold looked_up. apply existsb_exists. exists f.
      split; [exact I0|apply String.eqb_refl]. }
    now rewrite L. }
  destruct (fields section (schema_for env section) opts _) as [[r1 o1] l1].
  destruct (fields section (schema_for env section) (filter _ opts) _)
    as [[r2 o2] l2].
  simpl in *. subst r2.
  destruct r1 as [[parsed [|]]|e]; reflexivity.
Qed.

(** Unknown sections and unknown options do not change what the scan of
    the sections returns. *)
Lemma scan_known raw :
  forall acc,
    fst (fst (scan env raw acc)) = fst (fst (scan env (known env raw) acc)).
Proof.
  unfold known.
  induction raw as [|[section opts] raw IH]; intros acc; [reflexivity|].
  rewrite scan_cons. cbn [filter]. unfold matched at 1. cbn [fst].
  destruct (class_of env section) as [c|] eqn:C.
  - cbn [map fst snd]. rewrite scan_cons.
    pose proof (section_run_known section opts acc) as K.
    destruct (section_run env section opts acc) as [[r1 o1] l1].
    destruct (section_run env section (filter _ opts) acc) as [[r2 o2] l2].
    simpl in K. subst r2. destruct r1 as [acc'|e]; [|reflexivity].
    specialize (IH acc').
    destruct (scan env raw acc') as [[r3 o3] l3].
    match type of IH with
    | _ = fst (fst ?t) => destruct t as [[r4 o4] l4]
    end.
    exact IH.
  - rewrite section_run_eq, C. specialize (IH acc).
    destruct (scan env raw acc) as [[r3 o3] l3]. exact IH.
Qed.

Lemma known_keys raw : NoDup (keys raw) -> NoDup (keys (known env raw)).
Proof.
  unfold known, keys. rewrite map_map. cbn [fst].
  induction raw as [|s raw IH]; simpl; [trivial|].
  intros ND. inversion ND as [|? ? NI ND']; subst.
  destruct (matched env s); [|now apply IH].
  simpl. constructor; [|now apply IH].
  intros I0. apply NI. apply in_map_iff in I0. destruct I0 as [x [E I0]].
  apply filter_In in I0. apply in_map_iff. exists x. tauto.
Qed.

Lemma names_ok_incl (a b : raw_sections) :
  Raw.names_ok a -> NoDup (keys b) ->
  (forall k, In k (keys b) -> In k (keys a)) -> Raw.names_ok b.
Proof.
  intros [_ [H1 H2]] ND I0. split; [exact ND|].
  apply assoc_None_notin in H1, H2.
  split; apply assoc_None_notin; intros I1; [apply H1|apply H2];
    now apply I0.
Qed.

Lemma known_names_ok raw : Raw.names_ok raw -> Raw.names_ok (known env raw).
Proof.
  intros NO. apply (names_ok_incl raw _ NO (known_keys raw (proj1 NO))).
  intros k. unfold known, keys. rewrite map_map. cbn [fst].
  intros I0. apply in_map_iff in I0. destruct I0 as [x [E I0]].
  apply filter_In in I0. apply in_map_iff. exists x. tauto.
Qed.

Lemma parse_config_known raw st :
  Raw.names_ok raw ->
  fst (parse_config env (Loaded raw) st)
  = fst (parse_config env (Loaded (known env raw)) st).
Proof.
  intros ND.
  rewrite (parse_config_eq env raw st ND).
  rewrite (parse_config_eq env _ st (known_names_ok raw ND)).
  pose proof (scan_known raw ([], false)) as K.
  destruct (scan env raw ([], false)) as [[r1 o1] l1].
  destruct (scan env (known env raw) ([], false)) as [[r2 o2] l2].
  simpl in K. subst r2. destruct r1 as [[items failed]|e]; reflexivity.
Qed.

(** *** The warnings for the options that are left *)

Lemma count_key k x (d : options) :
  NoDup (keys d) -> In (k, x) d ->
  List.length (filter (fun o => String.eqb (fst o) k) d) = 1.
Proof.
  induction d as [|[k' v] d IH]; simpl; [tauto|].
  intros ND I0. inversion ND as [|? ? NI ND']; subst.
  destruct (String.eqb_spec k' k) as [->|N].
  - simpl. f_equal.
    assert (F : filter (fun o : string * string => String.eqb (fst o) k) d = []).
    { clear - NI. induction d as [|[k1 v1] d IHd]; [reflexivity|].
      simpl in *. destruct (String.eqb_spec k1 k) as [->|N1]; [tauto|].
      apply IHd. tauto. }
    now rewrite F.
  - destruct I0 as [[= -> ->]|I0]; [contradiction|]. now apply IH.
Qed.

Lemma consume_keeps schema :
  forall opts k x,
    existsb (fun f : field => String.eqb (Raw.optionxform (fst (fst f))) k)
            schema = false ->
    In (k, x) opts -> In (k, x) (consume schema opts).
Proof.
  unfold consume.
  induction schema as [|f schema IH]; intros opts k x E I0; [exact I0|].
  simpl in E. apply orb_false_iff in E. destruct E as [E1 E2].
  simpl. apply IH; [exact E2|].
  apply in_assoc_del_other; [|exact I0]. simpl. intros ->.
  now rewrite String.eqb_refl in E1.
Qed.

Lemma consume_keys schema :
  forall opts, NoDup (keys opts) -> NoDup (keys (consume schema opts)).
Proof.
  unfold consume. induction schema as [|f schema IH]; intros opts ND;
    [exact ND|].
  simpl. apply IH. now apply NoDup_keys_assoc_del.
Qed.

Lemma filter_map_other section option n (o : options) :
  n <> section ->
  filter (is_unknown_option option section)
         (map (fun x : string * string => (WARNING, UnknownOption (fst x) n)) o)
  = [].
Proof.
  intros N. induction o as [|x o IH]; [reflexivity|]. simpl.
  destruct (String.eqb_spec n section); [contradiction|].
  now rewrite andb_false_r.
Qed.

Lemma filter_map_same section option (o : options) :
  List.length
    (filter (is_unknown_option option section)
       (map (fun x : string * string => (WARNING, UnknownOption (fst x) section))
            o))
  = List.length (filter (fun x => String.eqb (fst x) option) o).
Proof.
  induction o as [|x o IH]; [reflexivity|]. simpl.
  rewrite String.eqb_refl, andb_true_r.
  destruct (String.eqb (fst x) option); simpl; now rewrite IH.
Qed.

Lemma leftovers_cons n (o : options) (raw : raw_sections) :
  leftovers ((n, o) :: raw)
  = map (fun x : string * string => (WARNING, UnknownOption (fst x) n)) o
    ++ leftovers raw.
Proof. reflexivity. Qed.

Lemma leftovers_other section option (raw : raw_sections) :
  ~ In section (keys raw) ->
  filter (is_unknown_option option section) (leftovers raw) = [].
Proof.
  induction raw as [|[n o] raw IH]; [reflexivity|].
  intros NI. rewrite leftovers_cons, filter_app.
  rewrite filter_map_other by (intros ->; apply NI; now left).
  apply IH. intros I0. apply NI. now right.
Qed.

(** [warn_leftovers] warns once about each option that is left. *)
Lemma leftovers_count section option (raw : raw_sections) opts :
  NoDup (keys raw) -> In (section, opts) raw ->
  List.length (filter (is_unknown_option option section) (leftovers raw))
  = List.length (filter (fun x => String.eqb (fst x) option) opts).
Proof.
  induction raw as [|[n o] raw IH]; [intros _ []|].
  intros ND I0. inversion ND as [|? ? NI ND']; subst.
  rewrite leftovers_cons, filter_app, List.length_app.
  destruct I0 as [[= -> ->]|I0].
  - rewrite filter_map_same.
    pose proof (leftovers_other section option raw NI) as Z.
    match goal with
    | |- ?a + _ = _ => transitivity (a + 0); [f_equal|apply Nat.add_0_r]
    end.
    exact (f_equal (@List.length _) Z).
  - assert (N : n <> section).
    { intros ->. apply NI. change section with (fst (section, opts)).
      now apply in_map. }
    pose proof (filter_map_other section option n o N) as Z.
    match goal with
    | |- _ + ?b = _ => transitivity (0 + b); [f_equal|now apply IH]
    end.
    exact (f_equal (@List.length _) Z).
Qed.

Lemma scan_records_not_options option section l :
  (forall rec, In rec l -> scan_record rec) ->
  filter (is_unknown_option option section) l = [].
Proof.
  induction l as [|[lv m] l IH]; [reflexivity|].
  intros H. cbn [filter].
  assert (X : is_unknown_option option section (lv, m) = false).
  { destruct (H (lv, m) (or_introl eq_refl)) as [E|[n E]].
    - simpl in E. now subst lv.
    - now injection E as -> ->. }
  rewrite X. apply IH. intros rec I0. apply H. now right.
Qed.

Lemma count_app3 (f : record -> bool) (l1 l2 l3 : list record) :
  filter f l1 = [] -> filter f l2 = [] ->
  List.length (filter f (l1 ++ l2 ++ l3)) = List.length (filter f l3).
Proof. intros E1 E2. now rewrite !filter_app, E1, E2. Qed.

End Unknown.

(** C7 as stated fails: when a coercion raises, [warn_leftovers] is not
    reached and the unknown option [colour] of the section [locale] is
    not reported at all. *)
Lemma unknown_option_not_warned :
  In ("locale", [("local_timezone", "Mars/Olympus"); ("colour", "red")])
     Examples.no_default_bad_timezone
  /\ looked_up Examples.utc_only "locale" "colour" = false
  /\ filter (is_unknown_option "colour" "locale")
       (log (snd (parse_config Examples.utc_only
                    (Loaded Examples.no_default_bad_timezone) st0)))
     = [].
Proof. split; [now left|]. split; reflexivity. Qed.

(** ** Repeated sections *)

Section Repeated.
Variable env : Env.

Lemma filed_app a b items :
  filed env (a ++ b) items = filed env b (filed env a items).
Proof. unfold filed. apply fold_left_app. Qed.

Lemma put_keys c v items :
  NoDup (keys items) -> NoDup (keys (put c v items)).
Proof. destruct c; cbn [put]; apply NoDup_keys_assoc_set. Qed.

(** Every group has one slot. *)
Lemma filed_keys raw :
  forall items, NoDup (keys items) -> NoDup (keys (filed env raw items)).
Proof.
  unfold filed. induction raw as [|s raw IH]; intros items ND; [exact ND|].
  simpl. apply IH. unfold file_one.
  destruct (class_of env (fst s)); [|exact ND].
  destruct (values_of env s); [|exact ND]. now apply put_keys.
Qed.

Lemma group_name_inj c c' : group_name c = group_name c' -> c = c'.
Proof. destruct c, c'; simpl; intros H; (reflexivity || discriminate). Qed.

Lemma put_other c c' v items :
  c' <> c -> assoc (group_name c) (put c' v items) = assoc (group_name c) items.
Proof.
  intros N.
  assert (G : group_name c <> group_name c').
  { intros E. apply N. symmetry. now apply group_name_inj. }
  destruct c'; cbn [put]; now apply assoc_set_other.
Qed.

(** The sections of the other classes leave the slot of a class as it
    is. *)
Lemma filed_other c raw :
  forall items,
    forallb (fun s => negb (is_class env c s)) raw = true ->
    assoc (group_name c) (filed env raw items) = assoc (group_name c) items.
Proof.
  unfold filed. induction raw as [|s raw IH]; intros items H; [reflexivity|].
  simpl in H. apply andb_true_iff in H. destruct H as [H1 H2].
  simpl. rewrite (IH _ H2). unfold file_one.
  destruct (class_of env (fst s)) as [c'|] eqn:C; [|reflexivity].
  destruct (values_of env s) as [v|]; [|reflexivity].
  apply put_other. intros ->.
  apply is_class_iff in C. rewrite C in H1. discriminate.
Qed.

Lemma scan_app a :
  forall b acc,
    scan env (a ++ b) acc =
    match scan env a acc with
    | (Ok acc', a', l) =>
        let '(r, b', l') := scan env b acc' in (r, a' ++ b', l ++ l')
    | (Raise e, a', l) => (Raise e, a' ++ b, l)
    end.
Proof.
  induction a as [|[n o] a IH]; intros b acc.
  - cbn [app scan]. now destruct (scan env b acc) as [[r b'] l'].
  - cbn [app]. rewrite !scan_cons.
    destruct (section_run env n o acc) as [[[acc1|e] o1] l1]; [|reflexivity].
    rewrite IH. destruct (scan env a acc1) as [[[acc2|e] a'] l2].
    + destruct (scan env b acc2) as [[r b'] l'].
      now rewrite app_assoc.
    + reflexivity.
Qed.

Lemma store_agree (P : string -> Prop) c v a1 a2 :
  (c = CalendarSection -> P "calendars") ->
  agree_on P a1 a2 ->
  rel_res (agree_on (fun k => P k \/ k = group_name c))
          (store (new env c) v a1) (store (new env c) v a2).
Proof.
  destruct a1 as [i1 f1], a2 as [i2 f2]. intros Hc [Hf Hk].
  cbn [fst snd] in Hf, Hk. subst f2.
  assert (Set_ : forall w,
             agree_on (fun k => P k \/ k = group_name c)
                      (assoc_set (group_name c) w i1, f1)
                      (assoc_set (group_name c) w i2, f1)).
  { intros w. split; [reflexivity|]. cbn [fst]. intros k Pk.
    rewrite !assoc_set_lookup.
    destruct (String.eqb_spec k (group_name c)) as [E|N]; [reflexivity|].
    destruct Pk as [Pk|Pk]; [now apply Hk|contradiction]. }
  destruct c; try (cbn [store is_collection new cls _group]; apply (Set_ v)).
  rewrite !store_calendar. unfold cal_list.
  rewrite <- (Hk "calendars" (Hc eq_refl)).
  destruct (assoc "calendars" i1) as [[]|]; cbn [rel_res];
    try reflexivity; apply Set_.
Qed.

Lemma agree_on_weaken (P Q : string -> Prop) a1 a2 :
  (forall k, Q k -> P k) -> agree_on P a1 a2 -> agree_on Q a1 a2.
Proof. intros H [Hf Hk]. split; [exact Hf|]. intros k Qk. apply Hk, H, Qk. Qed.

Lemma rel_res_weaken (R R' : dict * bool -> dict * bool -> Prop) x y :
  (forall a b, R a b -> R' a b) -> rel_res R x y -> rel_res R' x y.
Proof. destruct x, y; simpl; auto. Qed.

(** One section keeps two scans in agreement, on more keys when it
    files its values. *)
Lemma section_run_agree (P : string -> Prop) section opts a1 a2 :
  P "calendars" ->
  agree_on P a1 a2 ->
  snd (fst (section_run env section opts a1))
  = snd (fst (section_run env section opts a2))
  /\ rel_res (agree_on (fun k =>
                P k \/ exists c, class_of env section = Some c
                                 /\ values_of env (section, opts) <> None
                                 /\ k = group_name c))
       (fst (fst (section_run env section opts a1)))
       (fst (fst (section_run env section opts a2))).
Proof.
  intros Pc A. rewrite !section_run_eq. unfold values_of. cbn [fst snd].
  destruct (class_of env section) as [c|].
  - destruct (fields section (schema_for env section) opts
                (parsed0 env section, false))
      as [[[[parsed [|]]|e] o1] l1]; cbn [fst snd].
    + split; [reflexivity|]. destruct A as [Hf Hk]. split; [reflexivity|].
      cbn [fst]. intros k [Pk|[c' [_ [X _]]]]; [now apply Hk|].
      now contradiction X.
    + split; [reflexivity|].
      apply (rel_res_weaken
               (agree_on (fun k => P k \/ k = group_name c))).
      * intros x y. apply agree_on_weaken.
        intros k [Pk|[c' [[= <-] [_ ->]]]]; [now left|now right].
      * apply store_agree; [intros _; exact Pc|exact A].
    + now split.
  - split; [reflexivity|]. cbn [rel_res].
    apply (agree_on_weaken P); [|exact A].
    intros k [Pk|[c' [X _]]]; [exact Pk|discriminate].
Qed.

Lemma scan_agree (P : string -> Prop) raw :
  P "calendars" ->
  forall a1 a2,
    agree_on P a1 a2 ->
    rel_res (agree_on P) (fst (fst (scan env raw a1)))
            (fst (fst (scan env raw a2))).
Proof.
  intros Pc. induction raw as [|[n o] raw IH]; intros a1 a2 A.
  - exact A.
  - rewrite !scan_cons.
    destruct (section_run_agree P n o a1 a2 Pc A) as [_ R].
    destruct (section_run env n o a1) as [[[b1|e1] o1] l1],
             (section_run env n o a2) as [[[b2|e2] o2] l2];
      cbn [fst snd rel_res] in R; try contradiction; [|exact R].
    assert (A' : agree_on P b1 b2).
    { apply (agree_on_weaken _ P _ _ (fun k Pk => or_introl Pk) R). }
    specialize (IH b1 b2 A').
    destruct (scan env raw b1) as [[r1 x1] y1],
             (scan env raw b2) as [[r2 x2] y2]. exact IH.
Qed.
Lemma scan_cons_fst n o raw acc :
  fst (fst (scan env ((n, o) :: raw) acc)) =
  match fst (fst (section_run env n o acc)) with
  | Ok acc' => fst (fst (scan env raw acc'))
  | Raise e => Raise e
  end.
Proof.
  rewrite scan_cons.
  destruct (section_run env n o acc) as [[[acc'|e] o'] l]; [|reflexivity].
  cbn [fst]. destruct (scan env raw acc') as [[r x] y]. reflexivity.
Qed.

Lemma scan_app_fst a b acc :
  fst (fst (scan env (a ++ b) acc)) =
  match fst (fst (scan env a acc)) with
  | Ok acc' => fst (fst (scan env b acc'))
  | Raise e => Raise e
  end.
Proof.
  rewrite scan_app.
  destruct (scan env a acc) as [[[acc'|e] a'] l]; [|reflexivity].
  cbn [fst]. destruct (scan env b acc') as [[r x] y]. reflexivity.
Qed.

(** A section of a class other than the calendars whose parse returns
    a namespace stores it under its group. *)
Lemma section_run_slot c s v items failed :
  class_of env (fst s) = Some c ->
  c <> CalendarSection ->
  values_of env s = Some v ->
  fst (fst (section_run env (fst s) (snd s) (items, failed)))
  = Ok (assoc_set (group_name c) v items, failed).
Proof.
  intros C N V. rewrite section_run_eq, C. unfold values_of in V.
  rewrite C in V.
  destruct (fields (fst s) (schema_for env (fst s)) (snd s)
              (parsed0 env (fst s), false))
    as [[[[parsed [|]]|e] o1] l1]; try discriminate.
  injection V as <-. cbn [fst]. now apply store_slot.
Qed.

(** The scan of a file in which a section repeats an earlier one of
    the same class, both parsed, against the scan of the file without
    the earlier one. *)
Lemma scan_repeated c pre mid post s1 s2 v1 v2 acc :
  c <> CalendarSection ->
  class_of env (fst s1) = Some c -> class_of env (fst s2) = Some c ->
  values_of env s1 = Some v1 -> values_of env s2 = Some v2 ->
  rel_res (agree_on (fun _ => True))
    (fst (fst (scan env (pre ++ s1 :: mid ++ s2 :: post) acc)))
    (fst (fst (scan env (pre ++ mid ++ s2 :: post) acc))).
Proof.
  intros N C1 C2 V1 V2.
  assert (G : group_name c <> "calendars").
  { intros E. apply N. now apply group_name_inj. }
  rewrite !scan_app_fst.
  destruct (fst (fst (scan env pre acc))) as [[items failed]|e];
    [|reflexivity].
  destruct s1 as [n1 o1]. rewrite scan_cons_fst.
  pose proof (section_run_slot c (n1, o1) v1 items failed C1 N V1) as X1.
  cbn [fst snd] in X1. rewrite X1. clear X1.
  rewrite !scan_app_fst.
  pose proof (scan_agree (fun k => k <> group_name c) mid
                (fun E => G (eq_sym E))
                (assoc_set (group_name c) v1 items, failed) (items, failed))
    as M.
  destruct (fst (fst (scan env mid (assoc_set (group_name c) v1 items, failed))))
    as [[i1 f1]|e1],
    (fst (fst (scan env mid (items, failed)))) as [[i2 f2]|e2];
    cbn [rel_res] in M.
  - destruct M as [Hf Hk].
    { split; [reflexivity|]. intros k Nk. cbn [fst].
      now apply assoc_set_other. }
    cbn [fst snd] in Hf, Hk. subst f2.
    destruct s2 as [n2 o2]. rewrite !scan_cons_fst.
    pose proof (fun i => section_run_slot c (n2, o2) v2 i f1 C2 N V2) as X2.
    cbn [fst snd] in X2. rewrite !X2. clear X2.
    apply (scan_agree (fun _ => True) post I).
    split; [reflexivity|]. intros k _. cbn [fst].
    rewrite !assoc_set_lookup.
    destruct (String.eqb_spec k (group_name c)); [reflexivity|].
    now apply Hk.
  - exfalso. apply M. split; [reflexivity|]. intros k Nk. cbn [fst].
    now apply assoc_set_other.
  - exfalso. apply M. split; [reflexivity|]. intros k Nk. cbn [fst].
    now apply assoc_set_other.
  - apply M. split; [reflexivity|]. intros k Nk. cbn [fst].
    now apply assoc_set_other.
Qed.

Lemma parse_config_fst raw st :
  Raw.names_ok raw ->
  fst (parse_config env (Loaded raw) st) =
  match fst (fst (scan env raw ([], false))) with
  | Raise e => Raise e
  | Ok (items, failed) =>
      Ok (if negb (match missing_required items with
                   | [] => true | _ => false end) || failed
          then VNone else VNamespace items)
  end.
Proof.
  intros ND. rewrite (parse_config_eq env raw st ND).
  destruct (scan env raw ([], false)) as [[[[items failed]|e] raw'] l];
    reflexivity.
Qed.

Lemma missing_required_equiv i1 i2 :
  dict_equiv i1 i2 -> missing_required i1 = missing_required i2.
Proof.
  intros E. unfold missing_required, assoc_mem. simpl. now rewrite !E.
Qed.

Lemma NoDup_keys_remove (pre rest : raw_sections) s :
  NoDup (keys (pre ++ s :: rest)) -> NoDup (keys (pre ++ rest)).
Proof.
  unfold keys. rewrite !map_app. simpl. apply NoDup_remove_1.
Qed.

End Repeated.

(** ** The configurations that [parse_config] assembles *)

Section Assembled.
Variable env : Env.

(** [values_of] is what [Section.parse] returns when it returns a
    namespace. *)
Lemma values_of_parse section opts parser st v :
  _get_section_parser env section = Some parser ->
  Raw.plain (_conf_parser st) ->
  assoc section (_conf_parser st) = Some opts ->
  values_of env (section, opts) = Some v <->
  (exists st', parse parser section st = (Ok v, st')) /\ v <> VNone.
Proof.
  intros G P Hst.
  destruct (get_section_parser_schema env _ _ G) as [c [Hc [_ Hs]]].
  rewrite (parse_eq env c parser section st opts Hs P Hst).
  unfold values_of, class_of, schema_for, parsed0. cbn [fst snd].
  rewrite G. cbn [option_map].
  replace (schema_of parser) with (schema_of (new env c))
    by (unfold schema_of; now rewrite Hs).
  destruct (fields section (schema_of (new env c)) opts (_parsed parser, false))
    as [[[[parsed [|]]|e] o1] l1].
  - split; [discriminate|]. intros [[st' [= <- _]] N]. now contradiction N.
  - split.
    + intros [= <-]. split; [now eexists|discriminate].
    + now intros [[st' [= <- _]] _].
  - split; [discriminate|]. now intros [[st' X] _].
Qed.

(** After the loop of [Section.parse], the key of a field holds its
    default or a value that its coercion returned. *)
Lemma fields_set section schema :
  forall opts acc r opts' l option default filter_,
    NoDup (option_names schema) ->
    In (option, default, filter_) schema ->
    fields section schema opts acc = (Ok r, opts', l) ->
    assoc option (fst r) = Some default
    \/ exists x v lf, run_filter filter_ x = (Ok v, lf)
                      /\ assoc option (fst r) = Some v.
Proof.
  induction schema as [|[[o d] f] schema IH];
    intros opts acc r opts' l option default filter_ ND I0; [destruct I0|].
  simpl in ND. inversion ND as [|? ? NI ND']; subst. rewrite fields_cons.
  destruct I0 as [[= -> -> ->]|I0].
  - destruct (assoc (Raw.optionxform option) opts) as [x|].
    + destruct (run_filter filter_ x) as [[v|e] lf] eqn:RF; [|discriminate].
      destruct (fields section schema _ _) as [[r1 o1] l1] eqn:F.
      intros [= -> _ _]. right. exists x, v, lf. split; [exact RF|].
      rewrite (fields_preserve _ _ _ _ _ _ _ _ NI F). apply assoc_set_same.
    + destruct (fields section schema _ _) as [[r1 o1] l1] eqn:F.
      intros [= -> _ _]. left.
      rewrite (fields_preserve _ _ _ _ _ _ _ _ NI F). apply assoc_set_same.
  - destruct (assoc (Raw.optionxform o) opts) as [x|].
    + destruct (run_filter f x) as [[v|e] lf]; [|discriminate].
      destruct (fields section schema _ _) as [[r1 o1] l1] eqn:F.
      intros [= -> _ _]. exact (IH _ _ _ _ _ _ _ _ ND' I0 F).
    + destruct (fields section schema _ _) as [[r1 o1] l1] eqn:F.
      intros [= -> _ _]. exact (IH _ _ _ _ _ _ _ _ ND' I0 F).
Qed.

Lemma values_of_fields s v :
  values_of env s = Some v ->
  exists c parsed opts' l,
    class_of env (fst s) = Some c
    /\ v = VNamespace parsed
    /\ fields (fst s) (schema_of (new env c)) (snd s)
              (parsed0 env (fst s), false)
       = (Ok (parsed, false), opts', l).
Proof.
  unfold values_of. destruct (class_of env (fst s)) as [c|] eqn:C;
    [|discriminate].
  rewrite (schema_for_class env _ _ C).
  destruct (fields (fst s) (schema_of (new env c)) (snd s)
              (parsed0 env (fst s), false))
    as [[[[parsed [|]]|e] o1] l1] eqn:F; try discriminate.
  intros [= <-]. exists c, parsed, o1, l1. repeat split. exact F.
Qed.

Lemma default_values s v :
  class_of env (fst s) = Some DefaultSection ->
  values_of env s = Some v ->
  exists d cal_name,
    v = VNamespace d /\ assoc "default_calendar" d = Some cal_name
    /\ (cal_name = VBool true \/ exists x, cal_name = VStr x).
Proof.
  intros C V. destruct (values_of_fields s v V) as [c [d [o [l [C' [-> F]]]]]].
  rewrite C in C'. injection C' as <-.
  destruct (fields_set _ _ _ _ _ _ _ "default_calendar" (VBool true) None
              (new_option_names env DefaultSection)
              (or_intror (or_intror (or_introl eq_refl))) F)
    as [A|[x [w [lf [RF A]]]]]; cbn [fst] in A.
  - exists d, (VBool true). split; [reflexivity|]. split; [exact A|now left].
  - exists d, w. split; [reflexivity|]. split; [exact A|]. right.
    exists x. unfold run_filter in RF. cbn in RF. now injection RF as <- _.
Qed.

Lemma calendar_values s v :
  class_of env (fst s) = Some CalendarSection ->
  values_of env s = Some v ->
  exists n, name_of v = Some n.
Proof.
  intros C V. destruct (values_of_fields s v V) as [c [d [o [l [C' [-> F]]]]]].
  rewrite C in C'. injection C' as <-.
  assert (NI : ~ In "name"
                  (option_names (schema_of (new env CalendarSection))))
    by (simpl; intuition discriminate).
  pose proof (fields_preserve _ _ _ _ _ _ _ "name" NI F) as P.
  cbn [fst] in P. rewrite parsed0_eq, C in P.
  apply class_of_calendar in C. destruct C as [n R]. rewrite R in P.
  exists n. unfold name_of. now rewrite P.
Qed.

Lemma file_one_default items s :
  default_shape items -> default_shape (file_one env items s).
Proof.
  unfold file_one. destruct (class_of env (fst s)) as [c|] eqn:C; [|trivial].
  destruct (values_of env s) as [v|] eqn:V; [|trivial].
  intros H. unfold default_shape.
  destruct c; cbn [put group_name];
    try (now rewrite assoc_set_other by discriminate).
  rewrite assoc_set_same. exact (default_values s v C V).
Qed.

Lemma file_one_calendars items s :
  calendars_shape items -> calendars_shape (file_one env items s).
Proof.
  unfold file_one. destruct (class_of env (fst s)) as [c|] eqn:C; [|trivial].
  destruct (values_of env s) as [v|] eqn:V; [|trivial].
  intros H. unfold calendars_shape in *.
  destruct c; cbn [put group_name];
    try (now rewrite assoc_set_other by discriminate).
  rewrite assoc_set_same. destruct (calendar_values s v C V) as [n Hn].
  unfold cal_list. destruct (assoc "calendars" items) as [w|].
  - destruct H as [cals [n0 [ns [-> Hns]]]].
    exists (cals ++ [v]), n0, (ns ++ [n]). split; [reflexivity|].
    exact (names_of_app cals (n0 :: ns) v n Hns Hn).
  - exists [v], n, []. split; [reflexivity|]. simpl. now rewrite Hn.
Qed.

Lemma filed_shape raw :
  forall items,
    default_shape items -> calendars_shape items ->
    default_shape (filed env raw items)
    /\ calendars_shape (filed env raw items).
Proof.
  unfold filed. induction raw as [|s raw IH]; intros items D K; [now split|].
  simpl. apply IH; [now apply file_one_default|now apply file_one_calendars].
Qed.

(** Every configuration that [parse_config] returns has a namespace
    [default] whose [default_calendar] is the boolean default or a
    string, and a non-empty list [calendars] of named namespaces: the
    configurations that [validate] receives. *)
Lemma parse_config_assembled raw st items st' :
  Raw.names_ok raw ->
  parse_config env (Loaded raw) st = (Ok (VNamespace items), st') ->
  exists d cal_name cals n0 ns,
    assoc "default" items = Some (VNamespace d)
    /\ assoc "default_calendar" d = Some cal_name
    /\ (cal_name = VBool true \/ exists s, cal_name = VStr s)
    /\ assoc "calendars" items = Some (VList cals)
    /\ names_of cals = Some (n0 :: ns).
Proof.
  intros ND P. rewrite (parse_config_eq env raw st ND) in P.
  destruct (scan env raw ([], false)) as [[r raw'] l] eqn:S.
  destruct r as [[items' failed]|e]; [|discriminate].
  destruct (scan_Ok env _ _ _ _ _ _ _ S) as [-> _].
  destruct (filed_shape raw [] I I) as [D K].
  unfold missing_required in P. cbn [filter] in P.
  unfold default_shape in D. unfold calendars_shape in K.
  unfold assoc_mem in P.
  destruct (assoc "default" (filed env raw [])) as [vd|] eqn:Ad;
    [|destruct (assoc "locale" _), (assoc "calendars" (filed env raw []));
      discriminate].
  destruct (assoc "calendars" (filed env raw [])) as [vc|] eqn:Ac;
    [|destruct (assoc "locale" _); discriminate].
  destruct (assoc "locale" (filed env raw [])); [|discriminate].
  cbn in P. destruct failed; [discriminate|]. injection P as <- _.
  destruct D as [d [cn [-> [A1 A2]]]]. destruct K as [cals [n0 [ns [-> Hn]]]].
  exists d, cn, cals, n0, ns. rewrite Ad, Ac. tauto.
Qed.
End Assembled.

(** ** The theorems at concrete files *)

Lemma validate_spec_witness :
  validate (VNamespace Examples.assembled) st0
  = (Ok (VNamespace
           (assoc_set "default"
              (VNamespace
                 (assoc_set "default_calendar" (VStr "home")
                            Examples.assembled_default))
              Examples.assembled)),
     st0).
Proof.
  apply (validate_spec Examples.assembled Examples.assembled_default
           (VBool true) Examples.assembled_calendars "home" ["work"] st0);
    reflexivity.
Defined.

Lemma parse_config_missing_witness :
  exists st',
    parse_config Examples.utc_only (Loaded Examples.no_locale) st0
    = (Ok VNone, st')
    /\ _conf_parser st'
       = map (fun s => (fst s, left_in Examples.utc_only s)) Examples.no_locale.
Proof.
  apply (parse_config_missing Examples.utc_only Examples.no_locale st0
           LocaleSection); [reflexivity|reflexivity|discriminate|reflexivity].
Defined.

Lemma validate_None_raises_witness :
  validate VNone (mkState [] [(ERROR, CannotRead)])
  = (Raise (AttributeError "default"), mkState [] [(ERROR, CannotRead)])
  /\ main_khal Examples.utc_only Unreadable st0
     = (Raise (AttributeError "default"), mkState [] [(ERROR, CannotRead)]).
Proof.
  destruct (validate_None_raises Examples.utc_only Unreadable st0
              (mkState [] [(ERROR, CannotRead)]) eq_refl) as [A [B _]].
  split; [exact A|exact B].
Defined.

(** The example of the specification, from the file to the validated
    configuration. *)
Example main_khal_spec_example :
  exists conf d cals st',
    main_khal Examples.utc_only (Loaded Examples.spec_example) st0
    = (Ok (VNamespace conf), st')
    /\ assoc "default" conf = Some (VNamespace d)
    /\ assoc "default_command" d = Some (VStr "agenda")
    /\ assoc "default_calendar" d = Some (VStr "home")
    /\ assoc "calendars" conf = Some (VList cals)
    /\ names_of cals = Some ["home"]
    /\ log st' = [].
Proof.
  do 4 eexists. split; [vm_compute; reflexivity|].
  repeat split; reflexivity.
Qed.

(** * Further properties *)

(** ** The registry of section classes *)

Lemma matches_eq env c name :
  fst (matches (new env c) name) =
  match c with
  | CalendarSection =>
      match calendar_re name with Some _ => true | None => false end
  | _ => String.eqb (group_name c) (Str.lower name)
  end.
Proof.
  destruct c; try reflexivity.
  unfold matches. cbn [cls new]. now destruct (calendar_re name).
Qed.

(** X1.  The four matchers exclude one another, so the order of the registry
    does not matter: [_get_section_parser] returns a parser of a class
    exactly when the matcher of that class accepts the name. *)
Theorem registry_order_irrelevant (env : Env) (name : string)
    (c : SectionClass) :
  class_of env name = Some c <-> fst (matches (new env c) name) = true.
Proof.
  rewrite matches_eq, class_of_eq. split.
  - destruct (String.eqb "default" (Str.lower name)) eqn:D;
      [now intros [= <-]|].
    destruct (String.eqb "locale" (Str.lower name)) eqn:L;
      [now intros [= <-]|].
    destruct (String.eqb "sqlite" (Str.lower name)) eqn:Q;
      [now intros [= <-]|].
    destruct (calendar_re name); [now intros [= <-]|discriminate].
  - destruct c; cbn [group_name].
    + now intros ->.
    + intros H. apply String.eqb_eq in H. rewrite <- H. reflexivity.
    + intros H. apply String.eqb_eq in H. rewrite <- H. reflexivity.
    + destruct (calendar_re name) as [n|] eqn:R; [|discriminate].
      intros _. now destruct (calendar_re_not_exact _ _ R) as [-> [-> ->]].
Qed.

Lemma lower_ascii_idem c : Str.lower_ascii (Str.lower_ascii c) = Str.lower_ascii c.
Proof. destruct c as [[] [] [] [] [] [] [] []]; reflexivity. Qed.

Lemma lower_idem s : Str.lower (Str.lower s) = Str.lower s.
Proof.
  induction s as [|c s IH]; [reflexivity|].
  simpl. now rewrite lower_ascii_idem, IH.
Qed.

(** X2.  Matching ignores the case of the section name: two names that
    differ only in case are given the same class. *)
Theorem matching_ignores_case (env : Env) (n1 n2 : string) :
  Str.lower n1 = Str.lower n2 -> class_of env n1 = class_of env n2.
Proof.
  intros E. rewrite !class_of_eq, E. unfold calendar_re.
  rewrite !lower_take, E.
  destruct (String.eqb "default" (Str.lower n2)),
    (String.eqb "locale" (Str.lower n2)),
    (String.eqb "sqlite" (Str.lower n2)); try reflexivity.
  now destruct (String.eqb (Str.take 9 (Str.lower n2)) "calendar ").
Qed.

Lemma lower_calendar_prefix p :
  Str.lower p = "calendar " ->
  forall n, Str.take 9 (p ++ n)%string = p /\ Str.drop 9 (p ++ n)%string = n.
Proof.
  intros H n.
  do 9 (destruct p as [|? p]; [discriminate|]).
  destruct p; [|discriminate]. now split.
Qed.

(** X3.  The name of a calendar is what follows the nine characters of the
    header, in the case it is written in, whatever the case of the word
    [calendar]. *)
Theorem calendar_name_captured (env : Env) (prefix n : string) :
  Str.lower prefix = "calendar " ->
  Str.dot_star n = n ->
  _get_section_parser env (prefix ++ n)%string
  = Some (mkSection CalendarSection "calendars" (Some (calendar_schema env))
                    [("name", VStr n)]).
Proof.
  intros Hp Hn.
  assert (R : calendar_re (prefix ++ n)%string = Some n).
  { unfold calendar_re. destruct (lower_calendar_prefix prefix Hp n) as [-> ->].
    rewrite Hp, Hn. reflexivity. }
  rewrite get_section_parser_eq.
  destruct (calendar_re_not_exact _ _ R) as [-> [-> ->]]. now rewrite R.
Qed.

(** ** Blanks and case in the boolean coercion *)

Lemma is_space_lower c : Str.is_space (Str.lower_ascii c) = Str.is_space c.
Proof. destruct c as [[] [] [] [] [] [] [] []]; reflexivity. Qed.

Lemma lower_lstrip s : Str.lower (Str.lstrip s) = Str.lstrip (Str.lower s).
Proof.
  induction s as [|c s IH]; [reflexivity|].
  simpl. rewrite is_space_lower. now destruct (Str.is_space c).
Qed.

Lemma lower_rstrip s : Str.lower (Str.rstrip s) = Str.rstrip (Str.lower s).
Proof.
  induction s as [|c s IH]; [reflexivity|].
  simpl. rewrite <- IH, is_space_lower.
  destruct (Str.rstrip s); simpl; [now destruct (Str.is_space c)|reflexivity].
Qed.

Lemma lower_strip s : Str.lower (Str.strip s) = Str.strip (Str.lower s).
Proof. unfold Str.strip. now rewrite lower_rstrip, lower_lstrip. Qed.

Lemma all_space_cons c s :
  Str.all_space (String c s) = Str.is_space c && Str.all_space s.
Proof. reflexivity. Qed.

Lemma lstrip_all_space s : Str.all_space s = true -> Str.lstrip s = "".
Proof.
  induction s as [|c s IH]; [reflexivity|].
  rewrite all_space_cons, andb_true_iff. intros [C A]. simpl. now rewrite C, IH.
Qed.

Lemma rstrip_all_space s : Str.all_space s = true -> Str.rstrip s = "".
Proof.
  induction s as [|c s IH]; [reflexivity|].
  rewrite all_space_cons, andb_true_iff. intros [C A]. simpl.
  now rewrite (IH A), C.
Qed.

Lemma rstrip_app_space s post :
  Str.all_space post = true -> Str.rstrip (s ++ post) = Str.rstrip s.
Proof.
  intros A. induction s as [|c s IH]; simpl.
  - now apply rstrip_all_space.
  - now rewrite IH.
Qed.

Lemma strip_app_space s post :
  Str.all_space post = true -> Str.strip (s ++ post) = Str.strip s.
Proof.
  intros A. unfold Str.strip. induction s as [|c s IH]; simpl.
  - now rewrite (lstrip_all_space _ A).
  - destruct (Str.is_space c); [exact IH|].
    change (String c (s ++ post)%string) with (String c s ++ post)%string.
    now apply rstrip_app_space.
Qed.

Lemma strip_space_app pre s :
  Str.all_space pre = true -> Str.strip (pre ++ s) = Str.strip s.
Proof.
  unfold Str.strip. induction pre as [|c pre IH]; [reflexivity|].
  rewrite all_space_cons, andb_true_iff. intros [C A]. simpl.
  rewrite C. now apply IH.
Qed.

(** X4.  The boolean coercion does not see the blanks around a value nor its
    case: a value padded with blanks, or written in another case, is
    coerced to the same boolean. *)
Theorem parse_bool_string_blanks_case (pre s s' post : string) (st : state) :
  Str.all_space pre = true ->
  Str.all_space post = true ->
  Str.lower s = Str.lower s' ->
  _parse_bool_string (pre ++ s ++ post) st = _parse_bool_string s' st.
Proof.
  intros A B E. unfold _parse_bool_string.
  rewrite (strip_space_app pre _ A), (strip_app_space s post B).
  now rewrite !lower_strip, E.
Qed.

(** ** The boolean coercion, for every string *)














(** ** What [Section.parse] logs and consumes *)

Lemma assoc_del_same (V : Type) k (d : list (string * V)) :
  NoDup (keys d) -> assoc k (assoc_del k d) = None.
Proof.
  induction d as [|[k0 v0] d IH]; simpl; [reflexivity|].
  intros ND. inversion ND as [|? ? NI ND']; subst.
  destruct (String.eqb_spec k k0) as [->|N]; simpl.
  - now apply assoc_None_notin.
  - destruct (String.eqb_spec k k0); [contradiction|]. now apply IH.
Qed.

Lemma schema_filters_quiet env c :
  Forall (fun f : field =>
            forall x rec, In rec (snd (run_filter (snd f) x)) ->
                          is_missing_option rec = false)
         (schema_of (new env c)).
Proof.
  assert (B : forall x rec,
             In rec (snd (run_filter (Some _parse_bool_string) x)) ->
             is_missing_option rec = false).
  { intros x rec. unfold run_filter.
    destruct (parse_bool_string_bool x st0) as [b E]. rewrite E.
    intros []. }
  assert (T : forall x rec,
             In rec (snd (run_filter (Some (_parse_time_zone env)) x)) ->
             is_missing_option rec = false).
  { intros x rec. rewrite run_time_zone. intros []. }
  assert (C : forall x rec,
             In rec (snd (run_filter (Some _parse_commands) x)) ->
             is_missing_option rec = false).
  { intros x rec. unfold run_filter, _parse_commands.
    destruct (negb (existsb (String.eqb x) commands)); simpl; [|tauto].
    now intros [<-|[]]. }
  assert (P : forall x rec,
             In rec (snd (run_filter (Some (expand_path env)) x)) ->
             is_missing_option rec = false).
  { intros x rec []. }
  assert (N : forall x rec,
             In rec (snd (run_filter (Some (py_int env)) x)) ->
             is_missing_option rec = false).
  { intros x rec. unfold run_filter, py_int.
    destruct (int env x); intros []. }
  assert (Z : forall x rec,
             In rec (snd (run_filter None x)) ->
             is_missing_option rec = false).
  { intros x rec []. }
  destruct c; cbn [schema_of new _schema];
    repeat (apply Forall_cons; [cbn [snd]; assumption|]); apply Forall_nil.
Qed.

Lemma missing_options_del section schema opts k :
  ~ In k (map Raw.optionxform (option_names schema)) ->
  missing_options section schema (assoc_del k opts)
  = missing_options section schema opts.
Proof.
  intros NI. unfold missing_options. f_equal. apply filter_ext_in.
  intros f I0. f_equal. apply supplied_del.
  now apply (notin_names_neq _ schema).
Qed.

(** When the loop of [Section.parse] runs to its end, it has logged one
    error for each required option that is absent, in the order of the
    schema, and has set [failed] exactly when there is one. *)
Lemma fields_missing section schema :
  NoDup (map Raw.optionxform (option_names schema)) ->
  Forall (fun f : field =>
            forall x rec, In rec (snd (run_filter (snd f) x)) ->
                          is_missing_option rec = false) schema ->
  forall opts acc r opts' l,
    fields section schema opts acc = (Ok r, opts', l) ->
    filter is_missing_option l = missing_options section schema opts
    /\ snd r = snd acc || negb (forallb (supplied opts) schema).
Proof.
  induction schema as [|[[o d] f] schema IH]; intros ND Q opts acc r opts' l.
  - simpl. intros [= <- _ <-]. split; [reflexivity|]. now rewrite orb_false_r.
  - simpl in ND. inversion ND as [|? ? NI ND']; subst.
    inversion Q as [|? ? Qf Q']; subst. cbn [snd] in Qf.
    rewrite fields_cons. unfold missing_options. cbn [filter forallb].
    assert (Sup : supplied opts (o, d, f)
                  = match assoc (Raw.optionxform o) opts with
                    | Some _ => true
                    | None => negb (is_None d)
                    end) by reflexivity.
    rewrite !Sup. clear Sup.
    destruct (assoc (Raw.optionxform o) opts) as [x|] eqn:A.
    + pose proof (Qf x) as Qx.
      destruct (run_filter f x) as [[v|e] lf]; [|discriminate].
      destruct (fields section schema _ _) as [[r1 o1] l1] eqn:F.
      intros [= -> _ <-].
      destruct (IH ND' Q' _ _ _ _ _ F) as [L S]. cbn [snd] in S.
      assert (E0 : filter is_missing_option lf = []).
      { clear - Qx. cbn [snd] in Qx.
        induction lf as [|rec lf IHl]; [reflexivity|]. simpl.
        rewrite (Qx rec (or_introl eq_refl)). apply IHl.
        intros rec' I0. apply Qx. now right. }
      cbn [negb andb]. split.
      * etransitivity; [apply filter_app|].
        transitivity
          ([] ++ missing_options section schema
                   (assoc_del (Raw.optionxform o) opts));
          [f_equal; [exact E0|exact L]|].
        cbn [app]. exact (missing_options_del _ _ _ _ NI).
      * rewrite S. f_equal. f_equal. apply forallb_ext_in.
        intros g I0. apply supplied_del.
        now apply (notin_names_neq _ schema).
    + destruct (fields section schema _ _) as [[r1 o1] l1] eqn:F.
      intros [= -> _ <-].
      destruct (IH ND' Q' _ _ _ _ _ F) as [L S]. cbn [snd] in S.
      split.
      * etransitivity; [apply filter_app|].
        destruct (is_None d); cbn [negb filter map app is_missing_option];
          [f_equal|]; exact L.
      * rewrite S.
        destruct (snd acc), (is_None d), (forallb (supplied opts) schema);
          reflexivity.
Qed.

Lemma missing_options_nil section schema opts :
  missing_options section schema opts = [] <->
  forallb (supplied opts) schema = true.
Proof.
  unfold missing_options. induction schema as [|f schema IH]; simpl.
  - tauto.
  - destruct (supplied opts f); simpl; [exact IH|].
    split; discriminate.
Qed.

(** *** [Section.parse] on a parser with defaults *)

Lemma assoc_visible_del k k' (opts d : options) :
  k' <> k ->
  assoc k' (Raw.visible (assoc_del k opts) d)
  = assoc k' (assoc_del k (Raw.visible opts d)).
Proof.
  intros N. rewrite assoc_visible.
  rewrite !(assoc_del_other _ k k') by exact N.
  now rewrite assoc_visible.
Qed.

Lemma section_dict_assoc cp section (opts : options) :
  Raw.section_dict cp section = Some opts ->
  assoc section cp = Some opts /\ section <> Raw.DEFAULTSECT.
Proof.
  unfold Raw.section_dict.
  destruct (String.eqb_spec section Raw.DEFAULTSECT); [discriminate|].
  now split.
Qed.

Lemma section_dict_set cp section (opts : options) :
  section <> Raw.DEFAULTSECT ->
  Raw.section_dict (assoc_set section opts cp) section = Some opts
  /\ Raw._defaults (assoc_set section opts cp) = Raw._defaults cp.
Proof.
  intros N. unfold Raw.section_dict, Raw._defaults.
  destruct (String.eqb_spec section Raw.DEFAULTSECT); [contradiction|].
  rewrite assoc_set_same. split; [reflexivity|].
  rewrite assoc_set_other; [reflexivity|]. intros E. now apply N.
Qed.

(** The loop of [Section.parse] on a parser with defaults: the values
    and the log are those of the options that the section sees; the
    options removed are those of the section itself. *)
Lemma fields_eq_defaults section schema :
  schema_ok schema ->
  NoDup (map Raw.optionxform (option_names schema)) ->
  forall opts acc st,
    section <> "" ->
    Raw.section_dict (_conf_parser st) section = Some opts ->
    exists opts',
      for_each schema (parse_field section) acc st
      = (fst (fst (fields section schema
                     (Raw.visible opts (Raw._defaults (_conf_parser st)))
                     acc)),
         mkState (assoc_set section opts' (_conf_parser st))
           (log st
            ++ snd (fields section schema
                      (Raw.visible opts (Raw._defaults (_conf_parser st)))
                      acc)))
      /\ (is_Ok (fst (fst (fields section schema
                             (Raw.visible opts
                                (Raw._defaults (_conf_parser st)))
                             acc))) = true ->
          opts' = consume schema opts).
Proof.
  induction 1 as [|[[option default] filter_] schema Hf Hs IH];
    intros ND opts acc st Ne Hd;
    destruct (section_dict_assoc _ _ _ Hd) as [Hst Nd].
  - exists opts. split; [|reflexivity]. simpl. unfold ret.
    now rewrite (assoc_set_id _ _ _ _ Hst), app_nil_r, state_eta.
  - simpl in ND. inversion ND as [|? ? NI ND']; subst.
    simpl in Hf. cbn [for_each]. unfold bind at 1.
    rewrite (parse_field_eq_defaults _ _ _ _ _ _ _ Hf Ne Hd).
    rewrite fields_cons. cbn [consume fold_left fst snd].
    set (D := Raw._defaults (_conf_parser st)).
    destruct (assoc (Raw.optionxform option) (Raw.visible opts D))
      as [x|] eqn:E.
    + destruct (run_filter filter_ x) as [[v|e] l].
      * destruct (section_dict_set (_conf_parser st) section
                    (assoc_del (Raw.optionxform option) opts) Nd)
          as [Hd1 D1].
        destruct (IH ND' (assoc_del (Raw.optionxform option) opts)
                    (assoc_set option v (fst acc), snd acc)
                    (mkState (assoc_set section
                                (assoc_del (Raw.optionxform option) opts)
                                (_conf_parser st)) (log st ++ l))
                    Ne Hd1) as [opts' [E1 C1]].
        cbn [_conf_parser log] in E1, C1. unfold options, dict in *.
        rewrite D1 in E1, C1. fold D in E1, C1.
        destruct (fields_ext section schema
                    (Raw.visible (assoc_del (Raw.optionxform option) opts) D)
                    (assoc_del (Raw.optionxform option) (Raw.visible opts D))
                    (assoc_set option v (fst acc), snd acc) ND')
          as [X1 X2].
        { intros g I0. apply assoc_visible_del.
          now apply (notin_names_neq _ schema). }
        unfold options, dict in *. rewrite X1, X2 in E1. rewrite X1 in C1.
        exists opts'. rewrite E1.
        destruct (fields section schema
                    (assoc_del (Raw.optionxform option) (Raw.visible opts D))
                    (assoc_set option v (fst acc), snd acc))
          as [[r1 o1] l1].
        cbn [fst snd] in *. split; [|exact C1].
        now rewrite assoc_set_set, app_assoc.
      * exists opts. cbn [fst snd is_Ok]. split; [|discriminate].
        now rewrite (assoc_set_id _ _ _ _ Hst).
    + assert (A : assoc (Raw.optionxform option) opts = None).
      { rewrite assoc_visible in E.
        now destruct (assoc (Raw.optionxform option) opts). }
      destruct (IH ND' opts
                  (assoc_set option default (fst acc),
                   snd acc || is_None default)
                  (mkState (_conf_parser st)
                     (log st ++ if is_None default
                                then [(ERROR,
                                       MissingRequiredOption option section)]
                                else []))
                  Ne Hd) as [opts' [E1 C1]].
      cbn [_conf_parser log] in E1, C1. fold D in E1, C1.
      exists opts'. rewrite E1. rewrite (assoc_del_absent _ _ _ A).
      destruct (fields section schema (Raw.visible opts D)
                  (assoc_set option default (fst acc),
                   snd acc || is_None default)) as [[r1 o1] l1].
      cbn [fst snd] in *. split; [|exact C1].
      now rewrite app_assoc.
Qed.

(** [Section.parse] on a parser with defaults. *)
Lemma parse_eq_defaults env c parser section st opts :
  _schema parser = _schema (new env c) ->
  section <> "" ->
  Raw.section_dict (_conf_parser st) section = Some opts ->
  exists opts',
    parse parser section st
    = (match fst (fst (fields section (schema_of (new env c))
                         (Raw.visible opts (Raw._defaults (_conf_parser st)))
                         (_parsed parser, false))) with
       | Ok (parsed, failed) =>
           Ok (if failed then VNone else VNamespace parsed)
       | Raise e => Raise e
       end,
       mkState (assoc_set section opts' (_conf_parser st))
         (log st
          ++ snd (fields section (schema_of (new env c))
                    (Raw.visible opts (Raw._defaults (_conf_parser st)))
                    (_parsed parser, false))))
    /\ (is_Ok (fst (fst (fields section (schema_of (new env c))
                           (Raw.visible opts
                              (Raw._defaults (_conf_parser st)))
                           (_parsed parser, false)))) = true ->
        opts' = consume (schema_of (new env c)) opts).
Proof.
  intros Hp Ne Hd. destruct (new_schema env c) as [schema [Hs Hok]].
  pose proof (new_option_names_xform env c) as ND.
  unfold parse, schema_of in *. rewrite Hp, Hs in *. unfold bind.
  destruct (fields_eq_defaults section schema Hok ND opts
              (_parsed parser, false) st Ne Hd) as [opts' [E C]].
  exists opts'. rewrite E. split; [|exact C].
  destruct (fields section schema _ (_parsed parser, false))
    as [[[[parsed [|]]|e] o1] l]; reflexivity.
Qed.

(** X5.  When every value that a section sees is accepted, [Section.parse]
    goes through the whole schema before it gives up: it logs one error
    for each required option that is missing from the section and from
    the defaults, in the order of the schema, and returns [None]
    exactly when there is one. *)
Theorem parse_reports_every_missing_option (env : Env) (c : SectionClass)
    (parser : Section) (section : string) (opts : options) (st : state) :
  _schema parser = _schema (new env c) ->
  section <> "" ->
  Raw.section_dict (_conf_parser st) section = Some opts ->
  forallb (coerces (Raw.visible opts (Raw._defaults (_conf_parser st))))
          (schema_of (new env c)) = true ->
  exists v l st',
    parse parser section st = (Ok v, st')
    /\ log st' = log st ++ l
    /\ filter is_missing_option l
       = missing_options section (schema_of (new env c))
           (Raw.visible opts (Raw._defaults (_conf_parser st)))
    /\ (v = VNone <->
        missing_options section (schema_of (new env c))
          (Raw.visible opts (Raw._defaults (_conf_parser st))) <> []).
Proof.
  intros Hp Ne Hd Hc.
  destruct (parse_eq_defaults env c parser section st opts Hp Ne Hd)
    as [opts' [E _]]. rewrite E. clear E.
  set (seen := Raw.visible opts (Raw._defaults (_conf_parser st))) in *.
  destruct (fields_total section _ seen (_parsed parser, false)
              (new_option_names_xform env c) Hc) as [parsed [l F]].
  destruct (fields_missing section _ (new_option_names_xform env c)
              (schema_filters_quiet env c) _ _ _ _ _ F) as [L _].
  rewrite F. cbn [fst snd orb].
  do 3 eexists. split; [reflexivity|]. split; [reflexivity|].
  split; [exact L|].
  rewrite missing_options_nil.
  destruct (forallb (supplied seen) (schema_of (new env c)));
    cbn [negb]; split; intros H; try discriminate; try reflexivity;
    now contradiction H.
Qed.

Lemma consume_lookup schema :
  forall opts k,
    NoDup (keys opts) ->
    assoc k (consume schema opts)
    = if existsb (fun f : field =>
                    String.eqb (Raw.optionxform (fst (fst f))) k) schema
      then None else assoc k opts.
Proof.
  unfold consume. induction schema as [|f schema IH]; intros opts k ND;
    [reflexivity|].
  cbn [fold_left existsb]. rewrite (IH _ k (NoDup_keys_assoc_del _ _ _ ND)).
  destruct (String.eqb_spec (Raw.optionxform (fst (fst f))) k) as [<-|N].
  - cbn [orb]. rewrite (assoc_del_same _ _ _ ND). now destruct (existsb _ schema).
  - cbn [orb]. rewrite assoc_del_other by (intros E; now apply N).
    reflexivity.
Qed.

(** X6.  A parse that does not raise removes from its section the
    options of the schema that the section has itself, and nothing
    else: the defaults of the file, the other sections and the order of
    the sections are as before.  An option of the schema that the
    section only inherits from the defaults is therefore still shown by
    the section afterwards; every other option is shown as before. *)
Theorem parse_consumes_schema (env : Env) (c : SectionClass)
    (parser : Section) (section : string) (opts : options) (st st' : state)
    (v : value) :
  _schema parser = _schema (new env c) ->
  section <> "" ->
  Raw.section_dict (_conf_parser st) section = Some opts ->
  NoDup (keys opts) ->
  parse parser section st = (Ok v, st') ->
  keys (_conf_parser st') = keys (_conf_parser st)
  /\ (forall n, n <> section ->
                assoc n (_conf_parser st') = assoc n (_conf_parser st))
  /\ Raw._defaults (_conf_parser st') = Raw._defaults (_conf_parser st)
  /\ exists opts',
      Raw.section_dict (_conf_parser st') section = Some opts'
      /\ (forall k,
            assoc k opts'
            = if existsb (fun f : field =>
                            String.eqb (Raw.optionxform (fst (fst f))) k)
                         (schema_of (new env c))
              then None else assoc k opts)
      /\ (forall k,
            assoc k (Raw.visible opts' (Raw._defaults (_conf_parser st')))
            = if existsb (fun f : field =>
                            String.eqb (Raw.optionxform (fst (fst f))) k)
                         (schema_of (new env c))
              then assoc k (Raw._defaults (_conf_parser st))
              else assoc k (Raw.visible opts
                              (Raw._defaults (_conf_parser st)))).
Proof.
  intros Hp Ne Hd ND.
  destruct (parse_eq_defaults env c parser section st opts Hp Ne Hd)
    as [opts' [E Co]].
  rewrite E.
  destruct (fst (fst (fields section (schema_of (new env c))
                        (Raw.visible opts (Raw._defaults (_conf_parser st)))
                        (_parsed parser, false)))) as [[parsed failed]|e];
    [|discriminate].
  specialize (Co eq_refl). subst opts'.
  intros [= _ <-]. cbn [_conf_parser].
  destruct (section_dict_assoc _ _ _ Hd) as [Hst Nd].
  destruct (section_dict_set (_conf_parser st) section
              (consume (schema_of (new env c)) opts) Nd) as [Sd Df].
  split; [|split; [|split]].
  - rewrite keys_assoc_set. unfold assoc_mem.
    unfold options, dict in *. now rewrite Hst.
  - intros n N. now apply assoc_set_other.
  - exact Df.
  - eexists. split; [exact Sd|]. split.
    + intros k. now apply consume_lookup.
    + intros k. rewrite Df, !assoc_visible.
      rewrite (consume_lookup _ _ k ND).
      now destruct (existsb _ (schema_of (new env c))).
Qed.

(** ** When [parse_config] raises *)

Lemma schema_filters_raise env c :
  Forall (fun f : field =>
            forall x e l, run_filter (snd f) x = (Raise e, l) ->
                          coercion_error env e)
         (schema_of (new env c)).
Proof.
  assert (B : forall x e l,
             run_filter (Some _parse_bool_string) x = (Raise e, l) ->
             coercion_error env e).
  { intros x e l. unfold run_filter.
    destruct (parse_bool_string_bool x st0) as [b E]. now rewrite E. }
  assert (T : forall x e l,
             run_filter (Some (_parse_time_zone env)) x = (Raise e, l) ->
             coercion_error env e).
  { intros x e l. rewrite run_time_zone.
    destruct (pytz_timezone env x) eqn:Z; [discriminate|].
    now intros [= <- _]. }
  assert (C : forall x e l,
             run_filter (Some _parse_commands) x = (Raise e, l) ->
             coercion_error env e).
  { intros x e l. unfold run_filter, _parse_commands.
    destruct (negb (existsb (String.eqb x) commands)); discriminate. }
  assert (P : forall x e l,
             run_filter (Some (expand_path env)) x = (Raise e, l) ->
             coercion_error env e) by discriminate.
  assert (N : forall x e l,
             run_filter (Some (py_int env)) x = (Raise e, l) ->
             coercion_error env e).
  { intros x e l. unfold run_filter, py_int.
    destruct (int env x) eqn:Z; [discriminate|]. now intros [= <- _]. }
  assert (Z : forall x e l,
             run_filter None x = (Raise e, l) -> coercion_error env e)
    by discriminate.
  destruct c; cbn [schema_of new _schema];
    repeat (apply Forall_cons; [cbn [snd]; assumption|]); apply Forall_nil.
Qed.

Lemma fields_Raise env section schema :
  Forall (fun f : field =>
            forall x e l, run_filter (snd f) x = (Raise e, l) ->
                          coercion_error env e) schema ->
  forall opts acc e opts' l,
    fields section schema opts acc = (Raise e, opts', l) ->
    coercion_error env e.
Proof.
  induction 1 as [|[[o d] f] schema Hf Hs IH]; intros opts acc e opts' l.
  - discriminate.
  - rewrite fields_cons. cbn [snd] in Hf.
    destruct (assoc (Raw.optionxform o) opts) as [x|].
    + pose proof (Hf x) as Hx.
      destruct (run_filter f x) as [[v|e1] lf].
      * destruct (fields section schema _ _) as [[r1 o1] l1] eqn:F.
        intros [= -> _ _]. exact (IH _ _ _ _ _ F).
      * intros [= <- _ _]. exact (Hx e1 lf eq_refl).
    + destruct (fields section schema _ _) as [[r1 o1] l1] eqn:F.
      intros [= -> _ _]. exact (IH _ _ _ _ _ F).
Qed.

(** A supplied value that its coercion rejects makes the loop of
    [Section.parse] raise, whatever the other options are. *)
Lemma fields_not_coercible section schema :
  forall opts acc,
    NoDup (map Raw.optionxform (option_names schema)) ->
    forallb (coerces opts) schema = false ->
    exists e opts' l, fields section schema opts acc = (Raise e, opts', l).
Proof.
  induction schema as [|[[o d] f] schema IH]; intros opts acc ND Hc;
    [discriminate|].
  simpl in ND. inversion ND as [|? ? NI ND']; subst.
  cbn [forallb] in Hc. rewrite fields_cons.
  assert (Co : coerces opts (o, d, f)
               = match assoc (Raw.optionxform o) opts with
                 | Some x => is_Ok (fst (run_filter f x))
                 | None => true
                 end) by reflexivity.
  rewrite Co in Hc. clear Co.
  destruct (assoc (Raw.optionxform o) opts) as [x|] eqn:A.
  - destruct (run_filter f x) as [[v|e] lf]; [|now do 3 eexists].
    cbn [fst is_Ok andb] in Hc.
    destruct (IH (assoc_del (Raw.optionxform o) opts)
                 (assoc_set o v (fst acc), snd acc) ND')
      as [e [o1 [l1 ->]]]; [|now do 3 eexists].
    rewrite <- Hc. apply forallb_ext_in. intros g I0.
    apply coerces_del. now apply (notin_names_neq _ schema).
  - cbn [andb] in Hc.
    destruct (IH opts (assoc_set o d (fst acc), snd acc || is_None d) ND' Hc)
      as [e [o1 [l1 ->]]]. now do 3 eexists.
Qed.

Lemma section_run_not_coercible env section opts acc :
  coercible env (section, opts) = false ->
  exists e opts' l, section_run env section opts acc = (Raise e, opts', l).
Proof.
  unfold coercible. cbn [fst snd]. intros Hc. rewrite section_run_eq.
  destruct (class_of env section) as [c|] eqn:C.
  - destruct (fields_not_coercible section (schema_for env section) opts
                (parsed0 env section, false) (schema_for_names env section) Hc)
      as [e [o1 [l1 ->]]]. now do 3 eexists.
  - rewrite (class_of_None_schema env _ C) in Hc. discriminate.
Qed.

Lemma section_run_Raise env section opts items failed e opts' l :
  items_inv items ->
  section_run env section opts (items, failed) = (Raise e, opts', l) ->
  coercion_error env e.
Proof.
  intros Inv. rewrite section_run_eq.
  destruct (class_of env section) as [c|] eqn:C; [|discriminate].
  rewrite (schema_for_class env _ _ C).
  destruct (fields section (schema_of (new env c)) opts
              (parsed0 env section, false))
    as [[[[parsed [|]]|e1] o1] l1] eqn:F.
  - discriminate.
  - destruct c; try discriminate. rewrite store_calendar.
    unfold items_inv in Inv.
    destruct (assoc "calendars" items) as [[]|]; try contradiction;
      discriminate.
  - intros [= <- _ _].
    exact (fields_Raise env _ _ (schema_filters_raise env c) _ _ _ _ _ F).
Qed.

Lemma scan_Raise env raw :
  forall items failed e raw' l,
    items_inv items ->
    scan env raw (items, failed) = (Raise e, raw', l) ->
    coercion_error env e.
Proof.
  induction raw as [|[section opts] raw IH];
    intros items failed e raw' l Inv; [discriminate|].
  rewrite scan_cons.
  destruct (section_run env section opts (items, failed))
    as [[[[items1 failed1]|e1] o1] l1] eqn:R.
  - destruct (section_run_Ok env _ _ _ _ _ _ _ _ R) as [-> _].
    destruct (scan env raw _) as [[r2 raw2] l2] eqn:S.
    intros H. assert (E : r2 = Raise e) by (now injection H as ->).
    subst r2. exact (IH _ _ _ _ _ (items_inv_file_one env _ _ Inv) S).
  - intros [= <- _ _]. exact (section_run_Raise env _ _ _ _ _ _ _ Inv R).
Qed.

Lemma forallb_false_split (A : Type) (f : A -> bool) l :
  forallb f l = false ->
  exists pre x post, l = pre ++ x :: post /\ f x = false.
Proof.
  induction l as [|x l IH]; [discriminate|]. simpl.
  destruct (f x) eqn:X.
  - intros H. destruct (IH H) as [pre [y [post [-> Y]]]].
    now exists (x :: pre), y, post.
  - intros _. now exists [], x, l.
Qed.

(** X7.  [parse_config] raises exactly when some section holds a value that
    the coercion of its option rejects; what it raises is then the
    exception of that coercion, of pytz for a timezone or of [int] for
    [firstweekday], and no other exception leaves [parse_config]. *)
Theorem parse_config_raises_iff (env : Env) (raw : raw_sections)
    (st : state) :
  Raw.wfb raw = true ->
  ((exists e st', parse_config env (Loaded raw) st = (Raise e, st'))
   <-> forallb (coercible env) raw = false)
  /\ (forall e st',
         parse_config env (Loaded raw) st = (Raise e, st') ->
         coercion_error env e).
Proof.
  intros W. destruct (wfb_wf _ W) as [ND _]. split; [split|].
  - intros [e [st' P]].
    destruct (forallb (coercible env) raw) eqn:Hc; [|reflexivity].
    destruct (parse_config_total env raw st W Hc) as [l [_ E]].
    cbv zeta in E. rewrite E in P. discriminate.
  - intros Hc.
    destruct (forallb_false_split _ _ _ Hc) as [pre [[n o] [post [-> X]]]].
    destruct (scan_raises env pre n o post
                (fun acc => section_run_not_coercible env n o acc X)
                ([], false)) as [e [raw' [l [done [S _]]]]].
    rewrite (parse_config_eq env _ st ND), S. now do 2 eexists.
  - intros e st'. rewrite (parse_config_eq env raw st ND).
    destruct (scan env raw ([], false)) as [[r raw'] l] eqn:S.
    destruct r as [[items failed]|e1]; [discriminate|].
    intros [= <- _].
    refine (scan_Raise env raw _ _ _ _ _ _ S). exact I.
Qed.

(** ** A timezone that pytz does not know *)



(** ** A failed load is never silent *)

Lemma fields_failed_logged section schema :
  forall opts acc parsed opts' l,
    fields section schema opts acc = (Ok (parsed, true), opts', l) ->
    snd acc = true
    \/ exists option, In (ERROR, MissingRequiredOption option section) l.
Proof.
  induction schema as [|[[o d] f] schema IH]; intros opts acc parsed opts' l.
  - simpl. intros [= E _ _]. left. now rewrite E.
  - rewrite fields_cons.
    destruct (assoc (Raw.optionxform o) opts) as [x|].
    + destruct (run_filter f x) as [[v|e] lf]; [|discriminate].
      destruct (fields section schema _ _) as [[r1 o1] l1] eqn:F.
      intros [= -> _ <-].
      destruct (IH _ _ _ _ _ F) as [S|[option I0]]; [now left|].
      right. exists option. apply in_or_app. now right.
    + destruct (fields section schema _ _) as [[r1 o1] l1] eqn:F.
      intros [= -> _ <-].
      destruct (IH _ _ _ _ _ F) as [S|[option I0]].
      * cbn [snd] in S. apply orb_true_iff in S. destruct S as [S|S];
          [now left|].
        right. exists o. rewrite S. now left.
      * right. exists option. apply in_or_app. now right.
Qed.

Lemma section_run_failed_logged env section opts items items' opts' l :
  section_run env section opts (items, false) = (Ok (items', true), opts', l) ->
  exists m, In (ERROR, m) l.
Proof.
  rewrite section_run_eq.
  destruct (class_of env section) as [c|]; [|discriminate].
  destruct (fields section (schema_for env section) opts
              (parsed0 env section, false))
    as [[[[parsed [|]]|e] o1] l1] eqn:F; [| |discriminate].
  - intros [= _ _ <-].
    destruct (fields_failed_logged _ _ _ _ _ _ _ F) as [S|[option I0]];
      [cbn [snd] in S; discriminate|]. eexists. exact I0.
  - intros H. exfalso.
    assert (S : exists i, store (new env c) (VNamespace parsed) (items, false)
                          = Ok (i, true)).
    { injection H as H1 _ _. now exists items'. }
    destruct S as [i S]. destruct c;
      try (cbn in S; discriminate).
    rewrite store_calendar in S.
    destruct (assoc "calendars" items) as [[]|]; discriminate.
Qed.

Lemma scan_failed_logged env raw :
  forall items items' raw' l,
    scan env raw (items, false) = (Ok (items', true), raw', l) ->
    exists m, In (ERROR, m) l.
Proof.
  induction raw as [|[section opts] raw IH]; intros items items' raw' l;
    [discriminate|].
  rewrite scan_cons.
  destruct (section_run env section opts (items, false))
    as [[[[items1 failed1]|e1] o1] l1] eqn:R; [|discriminate].
  destruct (scan env raw (items1, failed1)) as [[r2 raw2] l2] eqn:S.
  intros H.
  assert (E : r2 = Ok (items', true) /\ l1 ++ l2 = l)
    by (injection H as H1 H2 H3; now subst).
  destruct E as [-> <-]. destruct failed1.
  - destruct (section_run_failed_logged env _ _ _ _ _ _ R) as [m I0].
    exists m. apply in_or_app. now left.
  - destruct (IH _ _ _ _ S) as [m I0]. exists m. apply in_or_app. now right.
Qed.

(** X8.  Whenever [parse_config] returns [None] it has logged an error: a
    file that cannot be read or parsed, a missing required option or a
    missing required section. *)
Theorem failed_load_is_logged (env : Env) (cfile : read_result)
    (st st' : state) :
  match cfile with Loaded raw => Raw.wfb raw = true | _ => True end ->
  parse_config env cfile st = (Ok VNone, st') ->
  exists l m, log st' = log st ++ l /\ In (ERROR, m) l.
Proof.
  destruct cfile as [| |raw]; intros W.
  - intros [= <-]. exists [(ERROR, CannotRead)], CannotRead.
    split; [reflexivity|now left].
  - intros [= <-]. exists [(ERROR, CouldNotParse)], CouldNotParse.
    split; [reflexivity|now left].
  - destruct (wfb_wf _ W) as [ND _]. rewrite (parse_config_eq env raw st ND).
    destruct (scan env raw ([], false)) as [[r raw'] l] eqn:S.
    destruct r as [[items failed]|e]; [|discriminate].
    intros H.
    assert (E : negb (match missing_required items with
                      | [] => true | _ => false end) || failed = true
                /\ mkState raw'
                     (log st ++ l
                      ++ map (fun g => (ERROR, MissingRequiredSection g))
                             (missing_required items)
                      ++ leftovers raw') = st').
    { injection H as H1 H2. split; [|exact H2].
      destruct (negb _ || failed); [reflexivity|discriminate]. }
    destruct E as [E <-]. cbn [log].
    destruct (missing_required items) as [|g gs] eqn:M.
    + cbn [negb orb] in E. subst failed.
      destruct (scan_failed_logged env _ _ _ _ _ S) as [m I0].
      eexists. exists m. split; [reflexivity|]. apply in_or_app. now left.
    + eexists. exists (MissingRequiredSection g). split; [reflexivity|].
      apply in_or_app. right. now left.
Qed.

(** ** [validate] on configurations with named calendars *)

Lemma py_eq_str_names v ns :
  existsb (py_eq v) (map VStr ns) = true -> exists s, v = VStr s /\ In s ns.
Proof.
  destruct v as [|b|z|s|t|l|d];
    try (intros H; exfalso; induction ns; simpl in H;
         [discriminate|now auto]).
  intros H. exists s. split; [reflexivity|]. now apply existsb_py_eq.
Qed.

Lemma validate_eq items d cal_name cals ns st :
  assoc "default" items = Some (VNamespace d) ->
  assoc "default_calendar" d = Some cal_name ->
  assoc "calendars" items = Some (VList cals) ->
  names_of cals = Some ns ->
  validate (VNamespace items) st =
  match cal_name, ns with
  | VBool true, [] => (Raise IndexError, st)
  | VBool true, n0 :: _ =>
      (Ok (VNamespace
             (assoc_set "default"
                (VNamespace (assoc_set "default_calendar" (VStr n0) d))
                items)), st)
  | _, _ =>
      if existsb (py_eq cal_name) (map VStr ns)
      then (Ok (VNamespace items), st)
      else (Ok VNone,
            mkState (_conf_parser st)
                    (log st ++ [(FATAL, NotAValidCalendar cal_name)]))
  end.
Proof.
  intros Hd Hc Hl Hn.
  destruct cal_name as [|[|]|z|s|t|l|n];
    try (unfold validate, bind, getattr, iter, ret; rewrite Hd, Hc, Hl;
         rewrite (names_of_getattr _ _ _ Hn);
         match goal with
         | |- context [existsb ?f ?l] => now destruct (existsb f l)
         end).
  unfold validate, bind, getattr, index0, setattr, ret. rewrite Hd, Hc, Hl.
  destruct cals as [|cal cals]; simpl in Hn.
  - now injection Hn as <-.
  - destruct (name_of cal) as [n|] eqn:N; [|discriminate].
    destruct (names_of cals); [|discriminate]. injection Hn as <-.
    unfold name_of in N. destruct cal as [| | | | | |c]; try discriminate.
    simpl. destruct (assoc "name" c) as [[]|]; try discriminate.
    now injection N as ->.
Qed.

Lemma validate_default items st v st' :
  validate (VNamespace items) st = (Ok v, st') ->
  exists d cal_name,
    assoc "default" items = Some (VNamespace d)
    /\ assoc "default_calendar" d = Some cal_name.
Proof.
  unfold validate. unfold bind at 1. unfold getattr at 1.
  destruct (assoc "default" items) as [vd|]; [|discriminate].
  unfold ret at 1. unfold bind at 1.
  destruct vd as [| | | | | |d]; try discriminate.
  unfold getattr at 1.
  destruct (assoc "default_calendar" d) as [cal_name|] eqn:Hc; [|discriminate].
  intros _. now exists d, cal_name.
Qed.

Lemma keys_assoc_set_present k (v w : value) d :
  assoc k d = Some w -> keys (assoc_set k v d) = keys d.
Proof. intros A. rewrite keys_assoc_set. unfold assoc_mem. now rewrite A. Qed.

(** X10.  Whatever [validate] returns other than [None], on a configuration
    whose calendars are named: the same state, and the configuration it
    was given in which [default.default_calendar] is a string that names
    one of the calendars; nothing else of the configuration differs. *)
Theorem validate_names_a_calendar (items : dict) (cals : list value)
    (ns : list string) (st st' : state) (v : value) :
  assoc "calendars" items = Some (VList cals) ->
  names_of cals = Some ns ->
  validate (VNamespace items) st = (Ok v, st') ->
  v <> VNone ->
  exists items' d d' s,
    v = VNamespace items' /\ st' = st
    /\ assoc "default" items = Some (VNamespace d)
    /\ assoc "default" items' = Some (VNamespace d')
    /\ assoc "default_calendar" d' = Some (VStr s) /\ In s ns
    /\ (forall k, k <> "default" -> assoc k items' = assoc k items)
    /\ (forall k, k <> "default_calendar" -> assoc k d' = assoc k d)
    /\ keys items' = keys items /\ keys d' = keys d.
Proof.
  intros Hl Hn V NN.
  destruct (validate_default _ _ _ _ V) as [d [cal_name [Hd Hc]]].
  rewrite (validate_eq items d cal_name cals ns st Hd Hc Hl Hn) in V.
  assert (R : (if existsb (py_eq cal_name) (map VStr ns)
               then (Ok (VNamespace items), st)
               else (Ok VNone,
                     mkState (_conf_parser st)
                       (log st ++ [(FATAL, NotAValidCalendar cal_name)])))
              = (Ok v, st') ->
              exists items' d d' s,
                v = VNamespace items' /\ st' = st
                /\ assoc "default" items = Some (VNamespace d)
                /\ assoc "default" items' = Some (VNamespace d')
                /\ assoc "default_calendar" d' = Some (VStr s) /\ In s ns
                /\ (forall k, k <> "default" -> assoc k items' = assoc k items)
                /\ (forall k, k <> "default_calendar" ->
                              assoc k d' = assoc k d)
                /\ keys items' = keys items /\ keys d' = keys d).
  { destruct (existsb (py_eq cal_name) (map VStr ns)) eqn:X.
    - intros [= <- <-]. destruct (py_eq_str_names _ _ X) as [s [-> I0]].
      exists items, d, d, s. now repeat split.
    - intros [= <- _]. now contradiction NN. }
  destruct cal_name as [|[|]|z|s|t|l|n]; try (exact (R V)).
  destruct ns as [|n0 ns]; [discriminate|]. injection V as <- <-.
  exists (assoc_set "default"
            (VNamespace (assoc_set "default_calendar" (VStr n0) d)) items),
    d, (assoc_set "default_calendar" (VStr n0) d), n0.
  repeat split.
  - exact Hd.
  - apply assoc_set_same.
  - apply assoc_set_same.
  - now left.
  - intros k N. now apply assoc_set_other.
  - intros k N. now apply assoc_set_other.
  - exact (keys_assoc_set_present _ _ _ _ Hd).
  - exact (keys_assoc_set_present _ _ _ _ Hc).
Qed.

(** X11.  [validate] changes nothing in a configuration that it has returned:
    run again on its own result, it returns that result and logs
    nothing. *)
Theorem validate_idempotent (items : dict) (cals : list value)
    (ns : list string) (st st' : state) (v : value) :
  assoc "calendars" items = Some (VList cals) ->
  names_of cals = Some ns ->
  validate (VNamespace items) st = (Ok v, st') ->
  v <> VNone ->
  validate v st' = (Ok v, st').
Proof.
  intros Hl Hn V NN.
  destruct (validate_default _ _ _ _ V) as [d [cal_name [Hd Hc]]].
  pose proof V as V0.
  rewrite (validate_eq items d cal_name cals ns st Hd Hc Hl Hn) in V.
  assert (R : (if existsb (py_eq cal_name) (map VStr ns)
               then (Ok (VNamespace items), st)
               else (Ok VNone,
                     mkState (_conf_parser st)
                       (log st ++ [(FATAL, NotAValidCalendar cal_name)])))
              = (Ok v, st') ->
              validate v st' = (Ok v, st')).
  { destruct (existsb (py_eq cal_name) (map VStr ns)) eqn:X.
    - intros [= <- <-]. exact V0.
    - intros [= <- _]. now contradiction NN. }
  destruct cal_name as [|[|]|z|s|t|l|n]; try (exact (R V)).
  destruct ns as [|n0 ns]; [discriminate|]. injection V as <- <-.
  rewrite (validate_eq _ (assoc_set "default_calendar" (VStr n0) d)
             (VStr n0) cals (n0 :: ns) st).
  - cbn [map existsb py_eq]. now rewrite String.eqb_refl.
  - apply assoc_set_same.
  - apply assoc_set_same.
  - rewrite assoc_set_other by discriminate. exact Hl.
  - exact Hn.
Qed.

(** X12.  Without calendars there is no valid [default_calendar]: on an empty
    list [validate] raises an [IndexError] when the option was left at
    its default, and otherwise logs the fatal error and returns
    [None]. *)
Theorem validate_no_calendars (items d : dict) (cal_name : value)
    (st : state) :
  assoc "default" items = Some (VNamespace d) ->
  assoc "default_calendar" d = Some cal_name ->
  assoc "calendars" items = Some (VList []) ->
  validate (VNamespace items) st =
  match cal_name with
  | VBool true => (Raise IndexError, st)
  | _ => (Ok VNone,
          mkState (_conf_parser st)
                  (log st ++ [(FATAL, NotAValidCalendar cal_name)]))
  end.
Proof.
  intros Hd Hc Hl.
  rewrite (validate_eq items d cal_name [] [] st Hd Hc Hl eq_refl).
  now destruct cal_name as [|[|]|z|s|t|l|n].
Qed.

(** ** The outcomes of [main_khal] *)

Lemma parse_config_cases env raw st r st' :
  Raw.names_ok raw ->
  parse_config env (Loaded raw) st = (r, st') ->
  (exists l, log st' = log st ++ l)
  /\ match r with
     | Raise e => coercion_error env e
     | Ok VNone | Ok (VNamespace _) => True
     | Ok _ => False
     end.
Proof.
  intros ND. rewrite (parse_config_eq env raw st ND).
  destruct (scan env raw ([], false)) as [[[[items failed]|e] raw'] l] eqn:S.
  - intros [= <- <-]. cbn [log]. split; [now eexists|].
    now destruct (negb _ || failed).
  - intros [= <- <-]. cbn [log]. split; [now eexists|].
    refine (scan_Raise env raw _ _ _ _ _ _ S). exact I.
Qed.

(** X13.  [main_khal] on a file that was read ends in one of four ways: with
    a configuration whose [default.default_calendar] is a string naming
    one of its calendars; with the exit on an invalid configuration,
    after the fatal error for a [default_calendar] that names no
    calendar; with the [AttributeError] of [validate] on [None], when
    [parse_config] has failed; or with the exception of a coercion. *)
Theorem main_khal_outcomes (env : Env) (raw : raw_sections)
    (st st' : state) (r : res value) :
  Raw.wfb raw = true ->
  main_khal env (Loaded raw) st = (r, st') ->
  match r with
  | Ok v =>
      exists conf d s cals ns,
        v = VNamespace conf
        /\ assoc "default" conf = Some (VNamespace d)
        /\ assoc "default_calendar" d = Some (VStr s)
        /\ assoc "calendars" conf = Some (VList cals)
        /\ names_of cals = Some ns /\ In s ns
  | Raise (SystemExit m) =>
      m = "Invalid config file, exiting."
      /\ exists l x,
           log st' = log st ++ l ++ [(FATAL, NotAValidCalendar (VStr x))]
  | Raise (AttributeError a) =>
      a = "default" /\ parse_config env (Loaded raw) st = (Ok VNone, st')
  | Raise e => coercion_error env e
  end.
Proof.
  intros W. destruct (wfb_wf _ W) as [ND _].
  unfold main_khal. unfold bind at 1.
  destruct (parse_config env (Loaded raw) st) as [[v|e] st1] eqn:P.
  - destruct (parse_config_cases env raw st _ _ ND P) as [[l L] Cv].
    destruct v as [| | | | | |items]; try contradiction.
    + intros [= <- <-]. now split.
    + destruct (parse_config_assembled env raw st items st1 ND P)
        as [d [cal_name [cals [n0 [ns [Hd [Hc [Hk [Hl Hn]]]]]]]]].
      unfold bind.
      rewrite (validate_eq items d cal_name cals (n0 :: ns) st1 Hd Hc Hl Hn).
      destruct Hk as [->|[s ->]].
      * intros [= <- <-].
        exists (assoc_set "default"
                  (VNamespace (assoc_set "default_calendar" (VStr n0) d))
                  items),
          (assoc_set "default_calendar" (VStr n0) d), n0, cals, (n0 :: ns).
        repeat split.
        -- apply assoc_set_same.
        -- apply assoc_set_same.
        -- rewrite assoc_set_other by discriminate. exact Hl.
        -- exact Hn.
        -- now left.
      * destruct (existsb (py_eq (VStr s)) (map VStr (n0 :: ns))) eqn:X.
        -- intros [= <- <-]. exists items, d, s, cals, (n0 :: ns).
           repeat split; try assumption. now apply existsb_py_eq.
        -- intros [= <- <-]. split; [reflexivity|].
           exists l, s. cbn [log]. rewrite L. now rewrite app_assoc.
  - intros [= <- <-].
    destruct (parse_config_cases env raw st _ _ ND P) as [_ Ce].
    destruct e; try contradiction; exact Ce.
Qed.

(** ** From the file to the configuration *)

(** The value that the loop of [Section.parse] stores for a field: the
    coerced value of the option when the section has it, the default of
    the field otherwise. *)
Lemma fields_value section schema :
  forall opts acc r opts' l option default filter_,
    NoDup (map Raw.optionxform (option_names schema)) ->
    In (option, default, filter_) schema ->
    fields section schema opts acc = (Ok r, opts', l) ->
    match assoc (Raw.optionxform option) opts with
    | Some x => exists v lf, run_filter filter_ x = (Ok v, lf)
                             /\ assoc option (fst r) = Some v
    | None => assoc option (fst r) = Some default
    end.
Proof.
  induction schema as [|[[o d] f] schema IH];
    intros opts acc r opts' l option default filter_ ND I0; [destruct I0|].
  simpl in ND. inversion ND as [|? ? NI ND']; subst. rewrite fields_cons.
  assert (NI' : ~ In o (option_names schema)).
  { intros I1. apply NI. now apply in_map. }
  destruct I0 as [[= -> -> ->]|I0].
  - destruct (assoc (Raw.optionxform option) opts) as [x|].
    + destruct (run_filter filter_ x) as [[v|e] lf] eqn:RF; [|discriminate].
      destruct (fields section schema _ _) as [[r1 o1] l1] eqn:F.
      intros [= -> _ _]. exists v, lf. split; [reflexivity|].
      rewrite (fields_preserve _ _ _ _ _ _ _ _ NI' F). apply assoc_set_same.
    + destruct (fields section schema _ _) as [[r1 o1] l1] eqn:F.
      intros [= -> _ _].
      rewrite (fields_preserve _ _ _ _ _ _ _ _ NI' F). apply assoc_set_same.
  - assert (N : Raw.optionxform option <> Raw.optionxform o)
      by exact (notin_names_neq _ schema (option, default, filter_) NI I0).
    destruct (assoc (Raw.optionxform o) opts) as [x|].
    + destruct (run_filter f x) as [[v|e] lf]; [|discriminate].
      destruct (fields section schema _ _) as [[r1 o1] l1] eqn:F.
      intros [= -> _ _].
      pose proof (IH _ _ _ _ _ _ _ _ ND' I0 F) as V.
      now rewrite assoc_del_other in V by exact N.
    + destruct (fields section schema _ _) as [[r1 o1] l1] eqn:F.
      intros [= -> _ _]. exact (IH _ _ _ _ _ _ _ _ ND' I0 F).
Qed.

(** What is stored under the group of a class that is no collection
    comes from a section of the file matched by that class. *)
Lemma filed_origin env c raw :
  c <> CalendarSection ->
  forall items v,
    assoc (group_name c) (filed env raw items) = Some v ->
    assoc (group_name c) items = Some v
    \/ exists s, In s raw /\ class_of env (fst s) = Some c
                 /\ values_of env s = Some v.
Proof.
  intros NC. unfold filed.
  induction raw as [|s raw IH]; intros items v; [now left|].
  cbn [fold_left]. intros A. destruct (IH _ _ A) as [B|[s' [I0 [C V]]]].
  - unfold file_one in B.
    destruct (class_of env (fst s)) as [c'|] eqn:C; [|now left].
    destruct (values_of env s) as [v'|] eqn:V; [|now left].
    assert (D : c' = c \/ c' <> c)
      by (destruct c', c; (now left) || (right; discriminate)).
    destruct D as [->|N].
    + right. exists s. split; [now left|]. split; [exact C|].
      rewrite V. rewrite <- B.
      destruct c; try (now contradiction NC); cbn [put group_name];
        now rewrite assoc_set_same.
    + left. now rewrite put_other in B.
  - right. exists s'. split; [now right|]. now split.
Qed.

Lemma scan_Ok_coercible env raw acc acc' raw' l :
  scan env raw acc = (Ok acc', raw', l) ->
  forallb (coercible env) raw = true.
Proof.
  intros S. destruct (forallb (coercible env) raw) eqn:Hc; [reflexivity|].
  destruct (forallb_false_split _ _ _ Hc) as [pre [[n o] [post [-> X]]]].
  destruct (scan_raises env pre n o post
              (fun a => section_run_not_coercible env n o a X) acc)
    as [e [r' [l' [done [S' _]]]]].
  rewrite S' in S. discriminate.
Qed.

(** What a returned configuration says about the file. *)
Lemma parse_config_returned env raw st items st' :
  Raw.names_ok raw ->
  parse_config env (Loaded raw) st = (Ok (VNamespace items), st') ->
  items = filed env raw []
  /\ forallb (coercible env) raw = true
  /\ forallb (complete env) raw = true.
Proof.
  intros ND. rewrite (parse_config_eq env raw st ND).
  destruct (scan env raw ([], false)) as [[[[items' failed]|e] raw'] l] eqn:S;
    [|discriminate].
  pose proof (scan_Ok_coercible env _ _ _ _ _ S) as Hc.
  destruct (scan_Ok env _ _ _ _ _ _ _ S) as [-> [-> _]].
  destruct (negb _) ; [discriminate|]. cbn [orb].
  destruct (existsb (fails env) raw) eqn:X; [discriminate|].
  intros [= <- _]. split; [reflexivity|]. split; [exact Hc|].
  apply forallb_forall. intros s I0.
  rewrite forallb_forall in Hc.
  pose proof (fails_complete env s (Hc s I0)) as FC.
  assert (Fs : fails env s = false).
  { destruct (fails env s) eqn:Fs; [|reflexivity].
    assert (existsb (fails env) raw = true)
      by (apply existsb_exists; now exists s).
    congruence. }
  rewrite Fs in FC. now destruct (complete env s).
Qed.

(** X15.  A section [sqlite] is not required: a returned configuration has
    the key [sqlite] exactly when the file has such a section, and its
    [path] is then the expanded path of a section [sqlite] of the file,
    or the database in the XDG cache directory when that section gives
    none. *)
Theorem sqlite_is_optional (env : Env) (raw : raw_sections)
    (st st' : state) (items : dict) :
  Raw.wfb raw = true ->
  parse_config env (Loaded raw) st = (Ok (VNamespace items), st') ->
  match assoc "sqlite" items with
  | None =>
      forall s, In s raw -> class_of env (fst s) <> Some SQLiteSection
  | Some v =>
      exists s d,
        In s raw /\ class_of env (fst s) = Some SQLiteSection
        /\ v = VNamespace d
        /\ assoc "path" d
           = Some (VStr match assoc "path" (snd s) with
                        | Some x => expand env x
                        | None => (xdg_cache_home env ++ "/khal/khal.db")%string
                        end)
  end.
Proof.
  intros W P. destruct (wfb_wf _ W) as [ND _].
  destruct (parse_config_returned env raw st items st' ND P) as [-> [Hc Hp]].
  destruct (assoc "sqlite" (filed env raw [])) as [v|] eqn:A.
  - destruct (filed_origin env SQLiteSection raw ltac:(discriminate) [] _ A)
      as [B|[s [I0 [C V]]]]; [discriminate|].
    destruct (values_of_fields env s _ V) as [c [parsed [o [l [C' [-> F]]]]]].
    rewrite C in C'. injection C' as <-.
    exists s, parsed. repeat split; try assumption.
    pose proof (fields_value _ _ _ _ _ _ _ "path"
                  (VStr (xdg_cache_home env ++ "/khal/khal.db"))
                  (Some (expand_path env))
                  (new_option_names_xform env SQLiteSection)
                  (or_introl eq_refl) F) as X.
    change (Raw.optionxform "path") with "path" in X. cbn [fst] in X.
    destruct (assoc "path" (snd s)) as [x|]; [|exact X].
    destruct X as [w [lf [R X]]]. rewrite X.
    unfold run_filter, expand_path, ret in R. cbn [fst] in R.
    now injection R as <- _.
  - intros s I0 C.
    pose proof (filed_mem_complete env SQLiteSection raw Hc) as M.
    unfold assoc_mem in M. cbn [group_name] in M. rewrite A in M.
    symmetry in M. 
    assert (X : existsb (fun s => is_class env SQLiteSection s
                                  && complete env s) raw = true).
    { apply existsb_exists. exists s. split; [exact I0|].
      rewrite forallb_forall in Hp. rewrite (Hp s I0), andb_true_r.
      now apply is_class_iff. }
    congruence.
Qed.

(** ** The collection of calendars *)

Section Collection.
Variable Obj : Type.
Variable Calendar : khalendar.kwargs -> M Obj.

Lemma py_in_str n l : py_in (VStr n) l = existsb (String.eqb n) l.
Proof.
  unfold py_in. induction l as [|x l IH]; [reflexivity|].
  cbn [map existsb py_eq]. now rewrite IH.
Qed.

Lemma name_of_getattr cal n st :
  name_of cal = Some n -> getattr cal "name" st = (Ok (VStr n), st).
Proof.
  unfold name_of, getattr. destruct cal as [| | | | | |c]; try discriminate.
  destruct (assoc "name" c) as [[]|]; try discriminate.
  now intros [= ->].
Qed.

Lemma selected_eq a d cal n st :
  name_of cal = Some n -> selected a d cal st = (Ok (selects a d n), st).
Proof.
  intros N. unfold selected, bind. rewrite (name_of_getattr _ _ _ N).
  rewrite py_in_str. unfold selects.
  destruct (existsb (String.eqb n) a && is_empty d); [reflexivity|].
  rewrite (name_of_getattr _ _ _ N). now rewrite py_in_str.
Qed.




Lemma collect_cons conf a d cal cals acc st :
  collect Calendar conf a d (cal :: cals) acc st =
  match (sel <- selected a d cal ;;
         if sel : bool
         then c <- new_calendar Calendar conf cal ;; ret (acc ++ [c])
         else ret acc) st with
  | (Ok acc', st') => collect Calendar conf a d cals acc' st'
  | (Raise e, st') => (Raise e, st')
  end.
Proof. reflexivity. Qed.


(** Without [conf.sqlite] the first selected calendar ends the loop. *)
Lemma collect_no_sqlite items a d st :
  assoc "sqlite" items = None ->
  forall cals ns acc,
    names_of cals = Some ns ->
    collect Calendar (VNamespace items) a d cals acc st =
    if existsb (selects a d) ns
    then (Raise (AttributeError "sqlite"), st)
    else (Ok acc, st).
Proof.
  intros Hs. induction cals as [|cal cals IH]; intros ns acc Hn.
  - now injection Hn as <-.
  - simpl in Hn. destruct (name_of cal) as [n|] eqn:N; [|discriminate].
    destruct (names_of cals) as [ns'|] eqn:Ns; [|discriminate].
    injection Hn as <-. rewrite collect_cons. unfold bind at 1.
    rewrite (selected_eq a d cal n st N). cbn [existsb].
    destruct (selects a d n); cbn [orb].
    + unfold new_calendar, bind. rewrite (name_of_getattr _ _ _ N).
      unfold getattr at 1. now rewrite Hs.
    + unfold ret. exact (IH ns' acc eq_refl).
Qed.

Lemma selects_both a d n :
  a <> [] -> d <> [] -> selects a d n = false.
Proof.
  intros Ha Hd. unfold selects.
  destruct a; [contradiction|]. destruct d; [contradiction|].
  cbn [is_empty]. now rewrite !andb_false_r.
Qed.

(** X18.  With both [-a] and [-d] given no calendar is selected: the
    collection stays empty, whatever the calendars of the configuration
    are and whatever else it holds. *)
Theorem both_options_select_nothing (items d0 : dict) (cal_name : value)
    (cals : list value) (ns a d : list string) (st : state) :
  a <> [] -> d <> [] ->
  assoc "calendars" items = Some (VList cals) ->
  names_of cals = Some ns ->
  assoc "default" items = Some (VNamespace d0) ->
  assoc "default_calendar" d0 = Some cal_name ->
  build_collection Calendar (VNamespace items) a d st
  = (Ok (khalendar.mkCalendarCollection [] cal_name), st).
Proof.
  intros Ha Hd Hl Hn H0 Hc.
  assert (C : forall cals ns acc,
             names_of cals = Some ns ->
             collect Calendar (VNamespace items) a d cals acc st
             = (Ok acc, st)).
  { clear Hl Hn cals ns.
    induction cals as [|cal cals IH]; intros ns acc Hn; [reflexivity|].
    simpl in Hn. destruct (name_of cal) as [n|] eqn:N; [|discriminate].
    destruct (names_of cals) as [ns'|] eqn:Ns; [|discriminate].
    rewrite collect_cons. unfold bind at 1.
    rewrite (selected_eq a d cal n st N), (selects_both a d n Ha Hd).
    unfold ret. exact (IH ns' acc eq_refl). }
  unfold build_collection, bind, getattr, iter, ret. rewrite Hl.
  rewrite (C cals ns [] Hn). now rewrite H0, Hc.
Qed.




(** What [main_khal] returns: the configuration of [parse_config] with
    a string for [default.default_calendar]. *)
Lemma main_khal_returned env raw st v st' :
  Raw.names_ok raw ->
  main_khal env (Loaded raw) st = (Ok v, st') ->
  exists items conf d s,
    parse_config env (Loaded raw) st = (Ok (VNamespace items), st')
    /\ v = VNamespace conf
    /\ (forall k, k <> "default" -> assoc k conf = assoc k items)
    /\ assoc "default" conf = Some (VNamespace d)
    /\ assoc "default_calendar" d = Some (VStr s).
Proof.
  intros ND. unfold main_khal. unfold bind at 1.
  destruct (parse_config env (Loaded raw) st) as [[v0|e] st1] eqn:P;
    [|discriminate].
  destruct (parse_config_cases env raw st _ _ ND P) as [_ Cv].
  destruct v0 as [| | | | | |items]; try contradiction; [discriminate|].
  destruct (parse_config_assembled env raw st items st1 ND P)
    as [d [cal_name [cals [n0 [ns [Hd [Hc [Hk [Hl Hn]]]]]]]]].
  unfold bind.
  rewrite (validate_eq items d cal_name cals (n0 :: ns) st1 Hd Hc Hl Hn).
  destruct Hk as [->|[s ->]].
  - intros [= <- <-].
    exists items,
      (assoc_set "default"
         (VNamespace (assoc_set "default_calendar" (VStr n0) d)) items),
      (assoc_set "default_calendar" (VStr n0) d), n0.
    repeat split.
    + intros k N. now apply assoc_set_other.
    + apply assoc_set_same.
    + apply assoc_set_same.
  - destruct (existsb (py_eq (VStr s)) (map VStr (n0 :: ns)));
      [|discriminate].
    intros [= <- <-]. exists items, items, d, s. now repeat split.
Qed.

(** X17.  A file without a section [sqlite] gives a configuration that
    [parse_config] and [validate] accept, and on which the collection
    cannot be built: the first calendar that [-a] and [-d] select
    raises the [AttributeError] of [conf.sqlite]; with neither option
    all calendars are selected, and [main_khal] always ends so. *)
Theorem collection_needs_sqlite (env : Env) (raw : raw_sections)
    (a d : list string) (st st' : state) (conf : value) :
  Raw.wfb raw = true ->
  existsb (is_class env SQLiteSection) raw = false ->
  main_khal env (Loaded raw) st = (Ok conf, st') ->
  (existsb (selects a d) (calendar_names raw) = true ->
   build_collection Calendar conf a d st'
   = (Raise (AttributeError "sqlite"), st'))
  /\ (existsb (selects a d) (calendar_names raw) = false ->
      exists dn, build_collection Calendar conf a d st'
                 = (Ok (khalendar.mkCalendarCollection [] dn), st'))
  /\ build_collection Calendar conf [] [] st'
     = (Raise (AttributeError "sqlite"), st').
Proof.
  intros W Q K. destruct (wfb_wf _ W) as [ND _].
  destruct (main_khal_returned env raw st conf st' ND K)
    as [items [conf' [d0 [dn [P [-> [Fr [Hd Hc]]]]]]]].
  destruct (parse_config_returned env raw st items st' ND P) as [E [Hco Hp]].
  destruct (parse_config_assembled env raw st items st' ND P)
    as [_ [_ [cals [n0 [ns [_ [_ [_ [Hl Hn]]]]]]]]].
  assert (N : names_of cals = Some (calendar_names raw)).
  { pose proof (filed_names env raw [] [] Hco Hp eq_refl) as FN.
    cbn [app] in FN. rewrite <- E in FN. unfold cal_list in FN.
    now rewrite Hl in FN. }
  assert (As : assoc "sqlite" conf' = None).
  { rewrite Fr by discriminate. rewrite E.
    destruct (assoc "sqlite" (filed env raw [])) as [v|] eqn:A; [|reflexivity].
    destruct (filed_origin env SQLiteSection raw ltac:(discriminate) [] _ A)
      as [B|[s [I0 [C V]]]]; [discriminate|].
    assert (X : existsb (is_class env SQLiteSection) raw = true).
    { apply existsb_exists. exists s. split; [exact I0|].
      now apply is_class_iff. }
    congruence. }
  assert (Hl' : assoc "calendars" conf' = Some (VList cals))
    by (rewrite Fr by discriminate; exact Hl).
  assert (B : forall a d,
             build_collection Calendar (VNamespace conf') a d st' =
             if existsb (selects a d) (calendar_names raw)
             then (Raise (AttributeError "sqlite"), st')
             else (Ok (khalendar.mkCalendarCollection [] (VStr dn)), st')).
  { intros a' d'. unfold build_collection. unfold bind, getattr at 1, iter, ret.
    rewrite Hl'. rewrite (collect_no_sqlite conf' a' d' st' As cals _ [] N).
    destruct (existsb (selects a' d') (calendar_names raw)); [reflexivity|].
    unfold getattr. rewrite Hd. unfold ret. cbv beta iota. now rewrite Hc. }
  repeat split.
  - intros X. now rewrite B, X.
  - intros X. exists (VStr dn). now rewrite B, X.
  - rewrite B. rewrite N in Hn. injection Hn as ->. reflexivity.
Qed.

End Collection.

(** ** The search for the configuration file *)

Lemma first_existing_Some os l p :
  first_existing os l = Some p <->
  exists pre post,
    l = pre ++ p :: post /\ exists_ os p = true
    /\ forall q, In q pre -> exists_ os q = false.
Proof.
  induction l as [|x l IH]; simpl.
  - split; [discriminate|]. intros [[|] [post [E _]]]; discriminate.
  - destruct (exists_ os x) eqn:X.
    + split.
      * intros [= <-]. exists [], l. repeat split; [exact X|intros q []].
      * intros [[|y pre] [post [E [Xp N]]]].
        -- now injection E as ->.
        -- injection E as <- _. rewrite (N x (or_introl eq_refl)) in X.
           discriminate.
    + rewrite IH. split.
      * intros [pre [post [-> [Xp N]]]]. exists (x :: pre), post.
        repeat split; [exact Xp|]. intros q [<-|I0]; [exact X|now apply N].
      * intros [[|y pre] [post [E [Xp N]]]].
        -- injection E as -> _. congruence.
        -- injection E as _ ->. exists pre, post. repeat split; [exact Xp|].
           intros q I0. apply N. now right.
Qed.

Lemma first_existing_None os l :
  first_existing os l = None <-> forall q, In q l -> exists_ os q = false.
Proof.
  induction l as [|x l IH]; simpl.
  - split; [intros _ q []|reflexivity].
  - destruct (exists_ os x) eqn:X.
    + split; [discriminate|]. intros H.
      rewrite (H x (or_introl eq_refl)) in X. discriminate.
    + rewrite IH. split.
      * intros H q [<-|I0]; [exact X|now apply H].
      * intros H q I0. apply H. now right.
Qed.

Lemma paths_eq os :
  paths os =
  map (fun dir =>
         os_path.join dir (os_path.join (__productname__ os)
                             (__productname__ os ++ ".conf")))
      (xdg_config_dirs os)
  ++ [expanduser os
        ("~/." ++ os_path.join (__productname__ os)
                    (__productname__ os ++ ".conf"));
      expanduser os (__productname__ os ++ ".conf")].
Proof. unfold paths. cbn [app]. now rewrite <- app_assoc. Qed.

(** X19.  [_find_configuration_file] returns the first path that exists
    among: the resource in each configuration directory of XDG, in
    their order; the resource prefixed with a dot in the home
    directory; the file in the current directory.  It returns [None]
    exactly when none of them exists. *)
Theorem find_configuration_file_first (os : Os) :
  let resource :=
    os_path.join (__productname__ os) (__productname__ os ++ ".conf") in
  let candidates :=
    map (fun dir => os_path.join dir resource) (xdg_config_dirs os)
    ++ [expanduser os ("~/." ++ resource);
        expanduser os (__productname__ os ++ ".conf")] in
  (forall p,
      _find_configuration_file os = Some p <->
      exists pre post,
        candidates = pre ++ p :: post /\ exists_ os p = true
        /\ forall q, In q pre -> exists_ os q = false)
  /\ (_find_configuration_file os = None <->
      forall q, In q candidates -> exists_ os q = false).
Proof.
  cbv zeta. unfold _find_configuration_file. rewrite paths_eq. split.
  - intros p. apply first_existing_Some.
  - apply first_existing_None.
Qed.

(** The only exit of [main_khal] after the configuration file is
    chosen is the one on an invalid configuration. *)
Lemma main_khal_SystemExit env cfile st m st' :
  match cfile with Loaded raw => Raw.wfb raw = true | _ => True end ->
  main_khal env cfile st = (Raise (SystemExit m), st') ->
  m = "Invalid config file, exiting.".
Proof.
  destruct cfile as [| |raw]; intros W; try discriminate.
  destruct (wfb_wf _ W) as [ND _].
  unfold main_khal. unfold bind at 1.
  destruct (parse_config env (Loaded raw) st) as [[v|e] st1] eqn:P.
  - destruct (parse_config_cases env raw st _ _ ND P) as [_ Cv].
    destruct v as [| | | | | |items]; try contradiction; [discriminate|].
    destruct (parse_config_assembled env raw st items st1 ND P)
      as [d [cal_name [cals [n0 [ns [Hd [Hc [Hk [Hl Hn]]]]]]]]].
    unfold bind.
    rewrite (validate_eq items d cal_name cals (n0 :: ns) st1 Hd Hc Hl Hn).
    destruct Hk as [->|[s ->]]; [discriminate|].
    destruct (existsb (py_eq (VStr s)) (map VStr (n0 :: ns)));
      [discriminate|].
    now intros [= <- _].
  - intros [= -> _].
    destruct (parse_config_cases env raw st _ _ ND P) as [_ Ce].
    contradiction.
Qed.

(** X20.  [main_khal] exits with the message that no configuration file
    could be found exactly when no [-c] is given and none of the paths
    of the search exists; nothing has been logged then. *)
Theorem no_configuration_file_exits (env : Env) (os : Os)
    (read : string -> read_result) (c : option string) (st st' : state) :
  (forall p raw, read p = Loaded raw -> Raw.wfb raw = true) ->
  main_khal_config env os read c st
  = (Raise (SystemExit "Cannot find any config file, exiting"), st')
  <-> c = None /\ (forall q, In q (paths os) -> exists_ os q = false)
      /\ st' = st.
Proof.
  intros W. unfold main_khal_config, _find_configuration_file.
  assert (X : forall cfile,
             main_khal env (read cfile) st
             <> (Raise (SystemExit "Cannot find any config file, exiting"),
                 st')).
  { intros cfile K.
    assert (Wc : match read cfile with
                 | Loaded raw => Raw.wfb raw = true
                 | _ => True
                 end).
    { destruct (read cfile) as [| |raw] eqn:R; trivial. exact (W _ _ R). }
    pose proof (main_khal_SystemExit env _ _ _ _ Wc K). discriminate. }
  destruct c as [cfile|].
  - split; [intros K; now contradiction (X cfile)|]. now intros [? _].
  - destruct (first_existing os (paths os)) as [cfile|] eqn:F.
    + split; [intros K; now contradiction (X cfile)|].
      intros [_ [N _]].
      pose proof (proj2 (first_existing_None os (paths os)) N). congruence.
    + pose proof (proj1 (first_existing_None os (paths os)) F) as N. split.
      * intros [= <-]. now repeat split.
      * now intros [_ [_ ->]].
Qed.

(** ** The attributes of a [Namespace] *)

Lemma assoc_del_set_absent (V : Type) k (v : V) d :
  assoc k d = None -> assoc_del k (assoc_set k v d) = d.
Proof.
  induction d as [|[k0 v0] d IH]; simpl.
  - now rewrite String.eqb_refl.
  - destruct (String.eqb k k0) eqn:E; [discriminate|].
    intros H. simpl. rewrite E. f_equal. now apply IH.
Qed.

(** X21.  Deleting an attribute: one that was just added leaves the namespace
    as it was; one that is there leaves a namespace without it, the
    other attributes being kept; one that is not there raises a
    [KeyError], where reading it raises an [AttributeError]. *)
Theorem delattr_removes_attribute (self : dict) (name : string) (v : value)
    (st : state) :
  NoDup (keys self) ->
  (assoc name self = None ->
   exists self',
     setattr (VNamespace self) name v st = (Ok (VNamespace self'), st)
     /\ getattr (VNamespace self') name st = (Ok v, st)
     /\ Namespace.__delattr__ self' name = Namespace.Deleted self)
  /\ (forall self',
         Namespace.__delattr__ self name = Namespace.Deleted self' ->
         getattr (VNamespace self') name st = (Raise (AttributeError name), st)
         /\ (forall k, k <> name -> assoc k self' = assoc k self)
         /\ NoDup (Namespace.__dir__ self')
         /\ forall k, In k (Namespace.__dir__ self') <->
                      In k (Namespace.__dir__ self) /\ k <> name)
  /\ (Namespace.__delattr__ self name = Namespace.KeyError name <->
      getattr (VNamespace self) name st = (Raise (AttributeError name), st)).
Proof.
  intros ND. split; [|split].
  - intros A. exists (assoc_set name v self). split; [reflexivity|]. split.
    + unfold getattr. now rewrite assoc_set_same.
    + unfold Namespace.__delattr__, assoc_mem. rewrite assoc_set_same.
      now rewrite assoc_del_set_absent.
  - intros self'. unfold Namespace.__delattr__, Namespace.__dir__.
    destruct (assoc_mem name self); [|discriminate]. intros [= <-].
    split; [|split; [|split]].
    + unfold getattr. now rewrite assoc_del_same.
    + intros k N. now apply assoc_del_other.
    + now apply NoDup_keys_assoc_del.
    + intros k. split.
      * intros I0. split.
        -- unfold keys in *. apply in_map_iff in I0.
           destruct I0 as [x [E I0]]. apply in_map_iff. exists x.
           split; [exact E|]. eapply in_assoc_del; eassumption.
        -- intros ->. apply assoc_None_notin in I0; [exact I0|].
           now apply assoc_del_same.
      * intros [I0 N].
        destruct (assoc k self) as [w|] eqn:A.
        -- rewrite <- (assoc_del_other value name k self N) in A.
           destruct (in_dec string_dec k (keys (assoc_del name self)))
             as [I1|NI]; [exact I1|].
           apply assoc_None_notin in NI. congruence.
        -- apply assoc_None_notin in A. contradiction.
  - unfold Namespace.__delattr__, assoc_mem, getattr.
    destruct (assoc name self); split; intros H; discriminate || reflexivity.
Qed.

(** ** [parse_config] and the state it starts in *)

(** X9.  What [parse_config] does is a function of the file alone: the
    content that the parser had before is dropped, the log is only
    extended, and the result, the options left in the parser and the
    records logged are the same from every state. *)
Theorem parse_config_starts_afresh (env : Env) (cfile : read_result) :
  match cfile with Loaded raw => Raw.wfb raw = true | _ => True end ->
  exists r raw' l,
    forall st, parse_config env cfile st = (r, mkState raw' (log st ++ l)).
Proof.
  destruct cfile as [|partial|raw]; intros W.
  - now exists (Ok VNone), [], [(ERROR, CannotRead)].
  - now exists (Ok VNone), partial, [(ERROR, CouldNotParse)].
  - destruct (wfb_wf _ W) as [ND _].
    destruct (scan env raw ([], false)) as [[[[items failed]|e] raw'] l] eqn:S.
    + eexists. exists raw'. eexists. intros st.
      rewrite (parse_config_eq env raw st ND), S. reflexivity.
    + exists (Raise e), raw', l. intros st.
      now rewrite (parse_config_eq env raw st ND), S.
Qed.

(** ** The further properties at concrete inputs *)

Lemma matching_ignores_case_witness :
  class_of Examples.utc_only "Calendar Home"
  = class_of Examples.utc_only "calendar home".
Proof.
  apply (matching_ignores_case Examples.utc_only "Calendar Home"
           "calendar home"); reflexivity.
Defined.

Lemma calendar_name_captured_witness :
  _get_section_parser Examples.utc_only "Calendar home"
  = Some (mkSection CalendarSection "calendars"
            (Some (calendar_schema Examples.utc_only))
            [("name", VStr "home")]).
Proof.
  apply (calendar_name_captured Examples.utc_only "Calendar " "home");
    reflexivity.
Defined.

Lemma parse_bool_string_blanks_case_witness :
  _parse_bool_string "  YES " st0 = _parse_bool_string "yes" st0.
Proof.
  apply (parse_bool_string_blanks_case "  " "YES" "yes" " " st0);
    reflexivity.
Defined.

Lemma parse_reports_every_missing_option_witness :
  exists v l st',
    parse (new Examples.utc_only LocaleSection) "locale"
          Examples.inheriting_locale
    = (Ok v, st')
    /\ log st' = log Examples.inheriting_locale ++ l
    /\ filter is_missing_option l
       = missing_options "locale"
           (schema_of (new Examples.utc_only LocaleSection))
           (Raw.visible [("local_timezone", "UTC"); ("colour", "red")]
              (Raw._defaults (_conf_parser Examples.inheriting_locale)))
    /\ (v = VNone <->
        missing_options "locale"
          (schema_of (new Examples.utc_only LocaleSection))
          (Raw.visible [("local_timezone", "UTC"); ("colour", "red")]
             (Raw._defaults (_conf_parser Examples.inheriting_locale)))
        <> []).
Proof.
  apply (parse_reports_every_missing_option Examples.utc_only LocaleSection
           (new Examples.utc_only LocaleSection) "locale"
           [("local_timezone", "UTC"); ("colour", "red")]
           Examples.inheriting_locale);
    [reflexivity|discriminate|reflexivity|reflexivity].
Defined.

Lemma parse_config_raises_iff_witness :
  ((exists e st',
       parse_config Examples.utc_only (Loaded Examples.bad_timezone_file) st0
       = (Raise e, st'))
   <-> forallb (coercible Examples.utc_only) Examples.bad_timezone_file
       = false)
  /\ (forall e st',
         parse_config Examples.utc_only (Loaded Examples.bad_timezone_file) st0
         = (Raise e, st') ->
         coercion_error Examples.utc_only e).
Proof.
  apply (parse_config_raises_iff Examples.utc_only Examples.bad_timezone_file
           st0); reflexivity.
Defined.

Lemma failed_load_is_logged_witness :
  exists l m,
    log Examples.no_locale_parsed = log st0 ++ l /\ In (ERROR, m) l.
Proof.
  apply (failed_load_is_logged Examples.utc_only (Loaded Examples.no_locale)
           st0 Examples.no_locale_parsed); reflexivity.
Defined.

Lemma validate_names_a_calendar_witness :
  exists items' d d' s,
    Examples.validated = VNamespace items' /\ st0 = st0
    /\ assoc "default" Examples.assembled = Some (VNamespace d)
    /\ assoc "default" items' = Some (VNamespace d')
    /\ assoc "default_calendar" d' = Some (VStr s)
    /\ In s ["home"; "work"]
    /\ (forall k, k <> "default" ->
                  assoc k items' = assoc k Examples.assembled)
    /\ (forall k, k <> "default_calendar" -> assoc k d' = assoc k d)
    /\ keys items' = keys Examples.assembled /\ keys d' = keys d.
Proof.
  apply (validate_names_a_calendar Examples.assembled
           Examples.assembled_calendars ["home"; "work"] st0 st0
           Examples.validated);
    [reflexivity|reflexivity|reflexivity|discriminate].
Defined.

Lemma validate_idempotent_witness :
  validate Examples.validated st0 = (Ok Examples.validated, st0).
Proof.
  apply (validate_idempotent Examples.assembled Examples.assembled_calendars
           ["home"; "work"] st0 st0 Examples.validated);
    [reflexivity|reflexivity|reflexivity|discriminate].
Defined.

Lemma validate_no_calendars_witness :
  validate (VNamespace Examples.no_calendars) st0 = (Raise IndexError, st0).
Proof.
  exact (validate_no_calendars Examples.no_calendars
           Examples.assembled_default (VBool true) st0
           eq_refl eq_refl eq_refl).
Defined.

Lemma main_khal_outcomes_witness :
  exists conf d s cals ns,
    Examples.spec_conf = VNamespace conf
    /\ assoc "default" conf = Some (VNamespace d)
    /\ assoc "default_calendar" d = Some (VStr s)
    /\ assoc "calendars" conf = Some (VList cals)
    /\ names_of cals = Some ns /\ In s ns.
Proof.
  exact (main_khal_outcomes Examples.utc_only Examples.spec_example st0
           (snd Examples.spec_outcome) (Ok Examples.spec_conf)
           eq_refl eq_refl).
Defined.

Lemma sqlite_is_optional_witness :
  match assoc "sqlite" Examples.with_sqlite_items with
  | None =>
      forall s, In s Examples.with_sqlite ->
                class_of Examples.utc_only (fst s) <> Some SQLiteSection
  | Some v =>
      exists s d,
        In s Examples.with_sqlite
        /\ class_of Examples.utc_only (fst s) = Some SQLiteSection
        /\ v = VNamespace d
        /\ assoc "path" d
           = Some (VStr match assoc "path" (snd s) with
                        | Some x => expand Examples.utc_only x
                        | None =>
                            (xdg_cache_home Examples.utc_only
                             ++ "/khal/khal.db")%string
                        end)
  end.
Proof.
  exact (sqlite_is_optional Examples.utc_only Examples.with_sqlite st0
           (snd Examples.with_sqlite_parsed) Examples.with_sqlite_items
           eq_refl eq_refl).
Defined.

Lemma both_options_select_nothing_witness :
  build_collection Examples.Calendar (VNamespace Examples.assembled)
                   ["home"] ["work"] st0
  = (Ok (khalendar.mkCalendarCollection [] (VBool true)), st0).
Proof.
  apply (both_options_select_nothing khalendar.kwargs Examples.Calendar
           Examples.assembled
           Examples.assembled_default (VBool true)
           Examples.assembled_calendars ["home"; "work"] ["home"] ["work"]
           st0);
    [discriminate|discriminate|reflexivity|reflexivity|reflexivity
    |reflexivity].
Defined.

Lemma collection_needs_sqlite_witness :
  (existsb (selects [] []) (calendar_names Examples.spec_example) = true ->
   build_collection Examples.Calendar Examples.spec_conf [] []
                    (snd Examples.spec_outcome)
   = (Raise (AttributeError "sqlite"), snd Examples.spec_outcome))
  /\ (existsb (selects [] []) (calendar_names Examples.spec_example) = false ->
      exists dn,
        build_collection Examples.Calendar Examples.spec_conf [] []
                         (snd Examples.spec_outcome)
        = (Ok (khalendar.mkCalendarCollection [] dn),
           snd Examples.spec_outcome))
  /\ build_collection Examples.Calendar Examples.spec_conf [] []
                      (snd Examples.spec_outcome)
     = (Raise (AttributeError "sqlite"), snd Examples.spec_outcome).
Proof.
  apply (collection_needs_sqlite khalendar.kwargs Examples.Calendar
           Examples.utc_only Examples.spec_example
           [] [] st0 (snd Examples.spec_outcome) Examples.spec_conf);
    reflexivity.
Defined.

Lemma no_configuration_file_exits_witness :
  main_khal_config Examples.utc_only Examples.bare_os
                   (fun _ => Loaded Examples.spec_example) None st0
  = (Raise (SystemExit "Cannot find any config file, exiting"), st0)
  <-> @None string = None
      /\ (forall q, In q (paths Examples.bare_os) ->
                    exists_ Examples.bare_os q = false)
      /\ st0 = st0.
Proof.
  apply (no_configuration_file_exits Examples.utc_only Examples.bare_os
           (fun _ => Loaded Examples.spec_example) None st0 st0).
  intros p raw H. injection H as <-. reflexivity.
Defined.

Lemma delattr_removes_attribute_witness :
  exists self',
    setattr (VNamespace Examples.assembled_default) "color" (VStr "red") st0
    = (Ok (VNamespace self'), st0)
    /\ getattr (VNamespace self') "color" st0 = (Ok (VStr "red"), st0)
    /\ Namespace.__delattr__ self' "color"
       = Namespace.Deleted Examples.assembled_default.
Proof.
  refine (proj1 (delattr_removes_attribute Examples.assembled_default "color"
                   (VStr "red") st0 _) eq_refl).
  repeat constructor; simpl; intuition discriminate.
Defined.

Lemma parse_config_starts_afresh_witness :
  exists r raw' l,
    forall st,
      parse_config Examples.utc_only (Loaded Examples.spec_example) st
      = (r, mkState raw' (log st ++ l)).
Proof.
  apply (parse_config_starts_afresh Examples.utc_only
           (Loaded Examples.spec_example)); reflexivity.
Defined.

(** ** The defaults of the schema *)

(** C10.  When the option of a declared field is absent from what the
    section sees, the turn of the loop of [Section.parse] for that
    field stores the default as the schema has it, whatever the
    coercion of the field is: the coercion is not called, and the
    parser is left as it was.  The namespace that [Section.parse]
    returns holds that default under the option; and it is returned
    whenever the section has its required options and values that
    their coercions accept.  So [default_calendar] defaults to the
    boolean [True] and [readonly] to the boolean [False]. *)
Theorem default_stored_uncoerced (env : Env) (c : SectionClass)
    (parser : Section) (section option : string) (default : value)
    (filter_ : Datatypes.option (string -> M value)) (opts : options)
    (st : state) :
  _schema parser = _schema (new env c) ->
  In (option, default, filter_) (schema_of (new env c)) ->
  section <> "" ->
  Raw.section_dict (_conf_parser st) section = Some opts ->
  assoc (Raw.optionxform option)
        (Raw.visible opts (Raw._defaults (_conf_parser st))) = None ->
  (forall (g : Datatypes.option (string -> M value)) acc,
      parse_field section (option, default, g) acc st =
      (Ok (assoc_set option default (fst acc), snd acc || is_None default),
       mkState (_conf_parser st)
         (log st ++ if is_None default
                    then [(ERROR, MissingRequiredOption option section)]
                    else [])))
  /\ (forall ns st',
         parse parser section st = (Ok (VNamespace ns), st') ->
         assoc option ns = Some default)
  /\ (forallb (coerces (Raw.visible opts (Raw._defaults (_conf_parser st))))
              (schema_of (new env c)) = true ->
      forallb (supplied (Raw.visible opts (Raw._defaults (_conf_parser st))))
              (schema_of (new env c)) = true ->
      exists ns st',
        parse parser section st = (Ok (VNamespace ns), st')
        /\ assoc option ns = Some default).
Proof.
  intros Hp Hin Ne Hd Habs.
  destruct (section_dict_assoc _ _ _ Hd) as [Hst Nd].
  destruct (parse_eq_defaults env c parser section st opts Hp Ne Hd)
    as [opts' [E _]].
  split; [|split].
  - intros g [parsed failed]. unfold parse_field, try_except, bind.
    unfold Raw.get at 1. rewrite Hd, Habs. cbn [is_ConfigParserError].
    assert (A : assoc (Raw.optionxform option) opts = None).
    { rewrite assoc_visible in Habs.
      now destruct (assoc (Raw.optionxform option) opts). }
    assert (R : forall s,
               _conf_parser s = _conf_parser st ->
               Raw.remove_option section option s = (Ok false, s)).
    { intros [cp l] Ec. simpl in Ec. subst cp.
      unfold Raw.remove_option. cbn [_conf_parser log].
      destruct (String.eqb_spec section "") as [->|_]; [now contradiction Ne|].
      destruct (String.eqb_spec section Raw.DEFAULTSECT) as [->|_];
        [now contradiction Nd|].
      cbn [orb]. rewrite Hst. unfold assoc_mem.
      rewrite A, (assoc_del_absent _ _ _ A).
      do 2 f_equal. now apply assoc_set_id. }
    destruct default; cbn [is_None fst snd]; unfold ret, logger;
      rewrite ?orb_false_r, ?orb_true_r; rewrite R by reflexivity;
      rewrite ?app_nil_r, ?state_eta; reflexivity.
  - intros ns st'. rewrite E.
    destruct (fields section (schema_of (new env c)) _ (_parsed parser, false))
      as [[r o1] l] eqn:F.
    cbn [fst snd]. destruct r as [[parsed [|]]|e]; try discriminate.
    intros [= <- _].
    exact (fields_default _ _ _ _ _ _ _ _ _ _ (new_option_names env c)
             Hin Habs F).
  - intros Hc Hs. rewrite E.
    destruct (fields_total section _ _ (_parsed parser, false)
                (new_option_names_xform env c) Hc) as [parsed [l F]].
    rewrite Hs in F. cbn [snd negb orb] in F. rewrite F. cbn [fst snd].
    do 2 eexists. split; [reflexivity|].
    exact (fields_default _ _ _ _ _ _ _ _ _ _ (new_option_names env c)
             Hin Habs F).
Qed.

Lemma default_stored_uncoerced_witness :
  (exists ns st',
      parse (mkSection CalendarSection "calendars"
               (Some (calendar_schema Examples.utc_only))
               [("name", VStr "home")])
            "calendar home" (mkState Examples.spec_example [])
      = (Ok (VNamespace ns), st')
      /\ assoc "readonly" ns = Some (VBool false))
  /\ (exists ns st',
         parse (new Examples.utc_only DefaultSection) "default"
               (mkState Examples.spec_example [])
         = (Ok (VNamespace ns), st')
         /\ assoc "default_calendar" ns = Some (VBool true))
  /\ parse_field "calendar home"
       ("readonly", VBool false,
        Some (fun _ : string => raise (ValueError "readonly")))
       ([], false) (mkState Examples.spec_example [])
     = (Ok ([("readonly", VBool false)], false),
        mkState Examples.spec_example []).
Proof.
  split; [|split].
  - apply (default_stored_uncoerced Examples.utc_only CalendarSection
             (mkSection CalendarSection "calendars"
                (Some (calendar_schema Examples.utc_only))
                [("name", VStr "home")])
             "calendar home" "readonly" (VBool false)
             (Some _parse_bool_string) [("path", "/tmp/cal")]
             (mkState Examples.spec_example []));
      [reflexivity|right; left; reflexivity|discriminate|reflexivity
      |reflexivity|reflexivity|reflexivity].
  - apply (default_stored_uncoerced Examples.utc_only DefaultSection
             (new Examples.utc_only DefaultSection)
             "default" "default_calendar" (VBool true) None
             [("default_command", "agenda")]
             (mkState Examples.spec_example []));
      [reflexivity|right; right; left; reflexivity|discriminate|reflexivity
      |reflexivity|reflexivity|reflexivity].
  - exact (proj1 (default_stored_uncoerced Examples.utc_only CalendarSection
                    (mkSection CalendarSection "calendars"
                       (Some (calendar_schema Examples.utc_only))
                       [("name", VStr "home")])
                    "calendar home" "readonly" (VBool false)
                    (Some _parse_bool_string) [("path", "/tmp/cal")]
                    (mkState Examples.spec_example [])
                    eq_refl (or_intror (or_introl eq_refl))
                    ltac:(discriminate) eq_refl eq_refl)
                 (Some (fun _ : string => raise (ValueError "readonly")))
                 ([], false)).
Defined.

(** ** The calendars of the configuration *)

Lemma dot_star_no_lf s :
  ~ In "010"%char (list_ascii_of_string s) -> Str.dot_star s = s.
Proof.
  induction s as [|c s IH]; [reflexivity|]. simpl. intros H.
  destruct (Ascii.eqb_spec c "010"%char) as [->|N].
  - exfalso. apply H. now left.
  - f_equal. apply IH. intros I0. apply H. now right.
Qed.

Lemma calendar_header_re name ident :
  calendar_header name ident -> calendar_re name = Some ident.
Proof.
  intros [prefix [-> [Hp Hn]]]. unfold calendar_re.
  destruct (lower_calendar_prefix prefix Hp ident) as [-> ->].
  now rewrite Hp, (dot_star_no_lf _ Hn).
Qed.

(** The identifiers of the calendar sections are what the matcher of
    the code captures. *)
Lemma calendar_idents_names raw idents :
  calendar_idents raw idents -> calendar_names raw = idents.
Proof.
  induction 1 as [|name ident opts raw idents H _ IH
                  |name opts raw idents H _ IH].
  - reflexivity.
  - cbn [calendar_names flat_map fst].
    rewrite (calendar_header_re _ _ H). cbn [app]. f_equal. exact IH.
  - cbn [calendar_names flat_map fst]. unfold calendar_re.
    destruct (String.eqb_spec (Str.lower (Str.take 9 name)) "calendar ");
      [contradiction|]. exact IH.
Qed.

Lemma lower_class env (c : SectionClass) (raw : raw_sections) :
  c <> CalendarSection ->
  In (group_name c) (map Str.lower (keys raw)) ->
  existsb (is_class env c) raw = true.
Proof.
  intros N I0. apply in_map_iff in I0. destruct I0 as [n [E I0]].
  unfold keys in I0. apply in_map_iff in I0. destruct I0 as [s [<- I0]].
  apply existsb_exists. exists s. split; [exact I0|].
  apply is_class_iff. rewrite class_of_eq, E.
  destruct c; try reflexivity. now contradiction N.
Qed.

(** The configuration of a complete file has the calendars that the
    matcher names. *)
Lemma parse_config_calendar_names (env : Env) (raw : raw_sections)
    (st : state) :
  Raw.wfb raw = true ->
  forallb (coercible env) raw = true ->
  forallb (complete env) raw = true ->
  existsb (is_class env DefaultSection) raw = true ->
  existsb (is_class env LocaleSection) raw = true ->
  existsb (is_class env CalendarSection) raw = true ->
  exists items cals st',
    parse_config env (Loaded raw) st = (Ok (VNamespace items), st')
    /\ assoc "calendars" items = Some (VList cals)
    /\ names_of cals = Some (calendar_names raw).
Proof.
  intros W Hc Hp Hd Hl Hcal.
  destruct (parse_config_total env raw st W Hc) as [l [_ E]].
  cbv zeta in E.
  assert (M : forall c, existsb (is_class env c) raw = true ->
                        assoc_mem (group_name c) (filed env raw []) = true).
  { intros c X. rewrite (filed_mem_complete env c raw Hc), <- X.
    apply existsb_ext_in. intros s I0. rewrite forallb_forall in Hp.
    now rewrite (Hp s I0), andb_true_r. }
  rewrite (missing_required_nil _ (M DefaultSection Hd) (M LocaleSection Hl)
             (M CalendarSection Hcal)) in E.
  rewrite existsb_negb_forallb, Hp in E. cbn [negb orb app map] in E.
  pose proof (filed_names env raw [] [] Hc Hp eq_refl) as N.
  cbn [app] in N.
  pose proof (filed_inv env raw [] I) as Inv.
  pose proof (M CalendarSection Hcal) as Mc.
  unfold items_inv in Inv. unfold cal_list in N.
  unfold assoc_mem in Mc. cbn [group_name] in Mc.
  destruct (assoc "calendars" (filed env raw [])) as [v|] eqn:A;
    [|discriminate].
  destruct v as [| | | | |cals|]; try contradiction.
  exists (filed env raw []), cals. eexists. split; [exact E|].
  split; [exact A|exact N].
Qed.

Lemma calendar_names_class env raw :
  calendar_names raw <> [] ->
  existsb (is_class env CalendarSection) raw = true.
Proof.
  intros N.
  destruct (existsb (is_class env CalendarSection) raw) eqn:X; [reflexivity|].
  exfalso. apply N. clear N.
  induction raw as [|s raw IH]; [reflexivity|].
  cbn [existsb] in X. apply orb_false_iff in X. destruct X as [X1 X2].
  cbn [calendar_names flat_map].
  destruct (calendar_re (fst s)) as [n|] eqn:R.
  - assert (C : is_class env CalendarSection s = true).
    { apply is_class_iff, class_of_calendar. now exists n. }
    congruence.
  - cbn [app]. now apply IH.
Qed.

(** The calendars of a file without a block [DEFAULT] that has its
    sections, its required options and values that the coercions
    accept: one for each section [calendar <identifier>], in order. *)
Lemma parse_config_calendars_plain (env : Env) (raw : raw_sections)
    (idents : list string) (st : state) :
  Raw.wfb raw = true ->
  forallb (coercible env) raw = true ->
  forallb (complete env) raw = true ->
  In "default" (map Str.lower (keys raw)) ->
  In "locale" (map Str.lower (keys raw)) ->
  calendar_idents raw idents ->
  idents <> [] ->
  exists items cals st',
    parse_config env (Loaded raw) st = (Ok (VNamespace items), st')
    /\ assoc "calendars" items = Some (VList cals)
    /\ names_of cals = Some idents
    /\ List.length cals = List.length idents.
Proof.
  intros W Hc Hp Hd Hl Hi Hn.
  pose proof (calendar_idents_names raw idents Hi) as N.
  destruct (parse_config_calendar_names env raw st W Hc Hp
              (lower_class env DefaultSection raw ltac:(discriminate) Hd)
              (lower_class env LocaleSection raw ltac:(discriminate) Hl)
              (calendar_names_class env raw
                 ltac:(rewrite N; exact Hn)))
    as [items [cals [st' [P [A Ns]]]]].
  rewrite N in Ns. exists items, cals, st'. repeat split; try assumption.
  exact (names_of_length _ _ Ns).
Qed.

(** ** The default calendar of a file that names none *)

(** When no section of class [DefaultSection] sets [default_calendar],
    [validate] takes the first of the names that the matcher has
    captured. *)
Lemma main_khal_unset_first (env : Env) (raw : raw_sections)
    (st st' : state) (v : value) :
  Raw.wfb raw = true ->
  (forall s, In s raw -> class_of env (fst s) = Some DefaultSection ->
             assoc "default_calendar" (snd s) = None) ->
  main_khal env (Loaded raw) st = (Ok v, st') ->
  exists conf d n ns,
    v = VNamespace conf
    /\ assoc "default" conf = Some (VNamespace d)
    /\ calendar_names raw = n :: ns
    /\ assoc "default_calendar" d = Some (VStr n).
Proof.
  intros W U. destruct (wfb_wf _ W) as [ND _].
  unfold main_khal. unfold bind at 1.
  destruct (parse_config env (Loaded raw) st) as [[v0|e] st1] eqn:P;
    [|discriminate].
  destruct (parse_config_cases env raw st _ _ ND P) as [_ Cv].
  destruct v0 as [| | | | | |items]; try contradiction; [discriminate|].
  destruct (parse_config_returned env raw st items st1 ND P) as [E [Hc Hp]].
  destruct (parse_config_assembled env raw st items st1 ND P)
    as [d [cal_name [cals [n0 [ns [Hd [Hk [_ [Hl Hn]]]]]]]]].
  assert (T : cal_name = VBool true).
  { rewrite E in Hd.
    destruct (filed_origin env DefaultSection raw ltac:(discriminate) [] _ Hd)
      as [B|[s [I0 [C V]]]]; [discriminate|].
    destruct (values_of_fields env s _ V) as [c [parsed [o [l [C' [Ep F]]]]]].
    rewrite C in C'. injection C' as <-. injection Ep as <-.
    pose proof (fields_value _ _ _ _ _ _ _ "default_calendar" (VBool true) None
                  (new_option_names_xform env DefaultSection)
                  (or_intror (or_intror (or_introl eq_refl))) F) as X.
    change (Raw.optionxform "default_calendar") with "default_calendar" in X.
    rewrite (U s I0 C) in X. cbn [fst] in X. congruence. }
  subst cal_name.
  assert (N : calendar_names raw = n0 :: ns).
  { pose proof (filed_names env raw [] [] Hc Hp eq_refl) as FN.
    cbn [app] in FN. rewrite <- E in FN. unfold cal_list in FN.
    rewrite Hl in FN. congruence. }
  unfold bind.
  rewrite (validate_eq items d (VBool true) cals (n0 :: ns) st1 Hd Hk Hl Hn).
  intros [= <- <-].
  exists (assoc_set "default"
            (VNamespace (assoc_set "default_calendar" (VStr n0) d)) items),
    (assoc_set "default_calendar" (VStr n0) d), n0, ns.
  repeat split.
  - apply assoc_set_same.
  - exact N.
  - apply assoc_set_same.
Qed.

(** X14.  When no section [default] of the file sets [default_calendar],
    the configuration that [main_khal] goes on with has as its
    [default_calendar] the identifier of the first section
    [calendar <identifier>] of the file, as the file writes it. *)
Theorem unset_default_calendar_is_first (env : Env) (raw : raw_sections)
    (idents : list string) (st st' : state) (v : value) :
  Raw.wfb raw = true ->
  (forall s, In s raw -> Str.lower (fst s) = "default" ->
             assoc "default_calendar" (snd s) = None) ->
  calendar_idents raw idents ->
  main_khal env (Loaded raw) st = (Ok v, st') ->
  exists conf d n ns,
    v = VNamespace conf
    /\ assoc "default" conf = Some (VNamespace d)
    /\ idents = n :: ns
    /\ assoc "default_calendar" d = Some (VStr n).
Proof.
  intros W U Hi K.
  rewrite <- (calendar_idents_names raw idents Hi).
  apply (main_khal_unset_first env raw st st' v W); [|exact K].
  intros s I0 C. apply (U s I0). rewrite class_of_eq in C.
  destruct (String.eqb_spec "default" (Str.lower (fst s))) as [E|_];
    [now symmetry|].
  destruct (String.eqb "locale" _); [discriminate|].
  destruct (String.eqb "sqlite" _); [discriminate|].
  destruct (calendar_re (fst s)); discriminate.
Qed.

Lemma unset_default_calendar_is_first_witness :
  exists conf d n ns,
    Examples.three_conf = VNamespace conf
    /\ assoc "default" conf = Some (VNamespace d)
    /\ ["Home"; "work"; "Private"] = n :: ns
    /\ assoc "default_calendar" d = Some (VStr n).
Proof.
  apply (unset_default_calendar_is_first Examples.utc_only
           Examples.three_calendars ["Home"; "work"; "Private"] st0
           (snd Examples.three_outcome) Examples.three_conf);
    [reflexivity
    |intros s [<-|[<-|[<-|[<-|[<-|[]]]]]] _; reflexivity
    |
    |reflexivity].
  apply (@idents_calendar "Calendar Home" "Home");
    [exists "Calendar "; repeat split; simpl; intuition discriminate|].
  apply idents_other; [discriminate|].
  apply (@idents_calendar "CALENDAR work" "work");
    [exists "CALENDAR "; repeat split; simpl; intuition discriminate|].
  apply idents_other; [discriminate|].
  apply (@idents_calendar "calendar Private" "Private");
    [exists "calendar "; repeat split; simpl; intuition discriminate|].
  apply idents_nil.
Defined.

(** ** The collection that [main_khal] builds *)

Section CollectionBuilt.
Variable Obj : Type.
Variable Calendar : khalendar.kwargs -> M Obj.



End CollectionBuilt.


Lemma parse_consumes_schema_witness :
  keys (_conf_parser Examples.inheriting_locale_parsed)
  = keys (_conf_parser Examples.inheriting_locale)
  /\ (forall n, n <> "locale" ->
                assoc n (_conf_parser Examples.inheriting_locale_parsed)
                = assoc n (_conf_parser Examples.inheriting_locale))
  /\ Raw._defaults (_conf_parser Examples.inheriting_locale_parsed)
     = Raw._defaults (_conf_parser Examples.inheriting_locale)
  /\ exists opts',
      Raw.section_dict (_conf_parser Examples.inheriting_locale_parsed)
                       "locale" = Some opts'
      /\ (forall k,
            assoc k opts'
            = if existsb (fun f : field =>
                            String.eqb (Raw.optionxform (fst (fst f))) k)
                         (schema_of (new Examples.utc_only LocaleSection))
              then None
              else assoc k [("local_timezone", "UTC"); ("colour", "red")])
      /\ (forall k,
            assoc k (Raw.visible opts'
                       (Raw._defaults
                          (_conf_parser Examples.inheriting_locale_parsed)))
            = if existsb (fun f : field =>
                            String.eqb (Raw.optionxform (fst (fst f))) k)
                         (schema_of (new Examples.utc_only LocaleSection))
              then assoc k (Raw._defaults
                              (_conf_parser Examples.inheriting_locale))
              else assoc k (Raw.visible
                              [("local_timezone", "UTC"); ("colour", "red")]
                              (Raw._defaults
                                 (_conf_parser Examples.inheriting_locale)))).
Proof.
  apply (parse_consumes_schema Examples.utc_only LocaleSection
           (new Examples.utc_only LocaleSection) "locale"
           [("local_timezone", "UTC"); ("colour", "red")]
           Examples.inheriting_locale Examples.inheriting_locale_parsed
           VNone);
    [reflexivity|discriminate|reflexivity
    |repeat constructor; simpl; intuition discriminate|reflexivity].
Defined.


(** ** What is logged about unknown sections and options *)

Lemma schema_filters_log env c :
  Forall (fun f : field =>
            forall x rec, In rec (snd (run_filter (snd f) x)) ->
                          exists cmd,
                            rec = (ERROR, InvalidCommand cmd)
                            /\ existsb (String.eqb cmd) commands = false)
         (schema_of (new env c)).
Proof.
  assert (B : forall x rec,
             In rec (snd (run_filter (Some _parse_bool_string) x)) ->
             exists cmd, rec = (ERROR, InvalidCommand cmd)
                         /\ existsb (String.eqb cmd) commands = false).
  { intros x rec. unfold run_filter.
    destruct (parse_bool_string_bool x st0) as [b E]. rewrite E.
    intros []. }
  assert (T : forall x rec,
             In rec (snd (run_filter (Some (_parse_time_zone env)) x)) ->
             exists cmd, rec = (ERROR, InvalidCommand cmd)
                         /\ existsb (String.eqb cmd) commands = false).
  { intros x rec. rewrite run_time_zone. intros []. }
  assert (C : forall x rec,
             In rec (snd (run_filter (Some _parse_commands) x)) ->
             exists cmd, rec = (ERROR, InvalidCommand cmd)
                         /\ existsb (String.eqb cmd) commands = false).
  { intros x rec. unfold run_filter, _parse_commands.
    destruct (existsb (String.eqb x) commands) eqn:X; cbn.
    - intros [].
    - intros [<-|[]]. now exists x. }
  assert (P : forall x rec,
             In rec (snd (run_filter (Some (expand_path env)) x)) ->
             exists cmd, rec = (ERROR, InvalidCommand cmd)
                         /\ existsb (String.eqb cmd) commands = false)
    by (intros x rec []).
  assert (N : forall x rec,
             In rec (snd (run_filter (Some (py_int env)) x)) ->
             exists cmd, rec = (ERROR, InvalidCommand cmd)
                         /\ existsb (String.eqb cmd) commands = false).
  { intros x rec. unfold run_filter, py_int.
    destruct (int env x); intros []. }
  assert (Z : forall x rec,
             In rec (snd (run_filter None x)) ->
             exists cmd, rec = (ERROR, InvalidCommand cmd)
                         /\ existsb (String.eqb cmd) commands = false)
    by (intros x rec []).
  destruct c; cbn [schema_of new _schema];
    repeat (apply Forall_cons; [cbn [snd]; assumption|]); apply Forall_nil.
Qed.

(** The records of the loop of [Section.parse]. *)
Lemma fields_records section schema :
  Forall (fun f : field =>
            forall x rec, In rec (snd (run_filter (snd f) x)) ->
                          exists cmd,
                            rec = (ERROR, InvalidCommand cmd)
                            /\ existsb (String.eqb cmd) commands = false)
         schema ->
  forall opts acc r opts' l rec,
    fields section schema opts acc = (r, opts', l) ->
    In rec l ->
    (exists o, In o (option_names schema)
               /\ rec = (ERROR, MissingRequiredOption o section))
    \/ (exists cmd, rec = (ERROR, InvalidCommand cmd)
                    /\ existsb (String.eqb cmd) commands = false).
Proof.
  induction 1 as [|[[o d] f] schema Hf Hs IH]; intros opts acc r opts' l rec.
  - simpl. now intros [= _ _ <-].
  - rewrite fields_cons. cbn [snd] in Hf.
    assert (Up : (exists o', In o' (option_names schema)
                             /\ rec = (ERROR, MissingRequiredOption o' section))
                 \/ (exists cmd, rec = (ERROR, InvalidCommand cmd)
                                 /\ existsb (String.eqb cmd) commands = false)
                 -> (exists o', In o' (option_names ((o, d, f) :: schema))
                                /\ rec = (ERROR,
                                          MissingRequiredOption o' section))
                    \/ (exists cmd, rec = (ERROR, InvalidCommand cmd)
                                    /\ existsb (String.eqb cmd) commands
                                       = false)).
    { intros [[o' [I0 E]]|R]; [left|now right].
      exists o'. split; [now right|exact E]. }
    destruct (assoc (Raw.optionxform o) opts) as [x|] eqn:A.
    + pose proof (Hf x) as L.
      destruct (run_filter f x) as [[v|e] lf]; cbn [snd] in L.
      * destruct (fields section schema _ _) as [[r1 o1] l1] eqn:F.
        intros [= _ _ <-] I0. apply in_app_or in I0. destruct I0 as [I0|I0].
        -- right. now apply L.
        -- apply Up. exact (IH _ _ _ _ _ _ F I0).
      * intros [= _ _ <-] I0. right. now apply L.
    + destruct (fields section schema _ _) as [[r1 o1] l1] eqn:F.
      intros [= _ _ <-] I0. apply in_app_or in I0. destruct I0 as [I0|I0].
      * destruct (is_None d); [|destruct I0]. destruct I0 as [<-|[]].
        left. exists o. split; [now left|reflexivity].
      * apply Up. exact (IH _ _ _ _ _ _ F I0).
Qed.

(** The records of one section of the scan: the warning alone for a
    section that no class matches, errors about the options of the
    schema otherwise. *)
Lemma section_run_records env section opts acc r opts' l :
  section_run env section opts acc = (r, opts', l) ->
  match class_of env section with
  | None => l = [(WARNING, UnknownSection section)]
  | Some _ =>
      forall rec, In rec l ->
        (exists o, rec = (ERROR, MissingRequiredOption o section)
                   /\ looked_up env section (Raw.optionxform o) = true)
        \/ (exists cmd, rec = (ERROR, InvalidCommand cmd)
                        /\ existsb (String.eqb cmd) commands = false)
  end.
Proof.
  rewrite section_run_eq.
  destruct (class_of env section) as [c|] eqn:C; [|now intros [= _ _ <-]].
  destruct (fields section (schema_for env section) opts
              (parsed0 env section, false)) as [[r1 o1] l1] eqn:F.
  intros E rec I0.
  assert (El : l1 = l).
  { destruct r1 as [[parsed [|]]|e]; now injection E. }
  subst l1.
  assert (Hs : Forall (fun f : field =>
                         forall x rec, In rec (snd (run_filter (snd f) x)) ->
                           exists cmd,
                             rec = (ERROR, InvalidCommand cmd)
                             /\ existsb (String.eqb cmd) commands = false)
                      (schema_for env section)).
  { rewrite (schema_for_class env _ _ C). apply schema_filters_log. }
  destruct (fields_records section _ Hs _ _ _ _ _ rec F I0)
    as [[o [Io ->]]|R]; [left|now right].
  exists o. split; [reflexivity|].
  unfold looked_up. apply existsb_exists. unfold option_names in Io.
  apply in_map_iff in Io. destruct Io as [f [<- If]].
  exists f. split; [exact If|apply String.eqb_refl].
Qed.

Lemma scan_records env raw :
  forall acc r raw' l rec,
    scan env raw acc = (r, raw', l) -> In rec l ->
    (exists n, In n (keys raw) /\ class_of env n = None
               /\ rec = (WARNING, UnknownSection n))
    \/ (exists o n, In n (keys raw) /\ class_of env n <> None
                    /\ looked_up env n (Raw.optionxform o) = true
                    /\ rec = (ERROR, MissingRequiredOption o n))
    \/ (exists cmd, rec = (ERROR, InvalidCommand cmd)
                    /\ existsb (String.eqb cmd) commands = false).
Proof.
  induction raw as [|[section opts] raw IH]; intros acc r raw' l rec.
  - simpl. now intros [= _ _ <-].
  - rewrite scan_cons.
    destruct (section_run env section opts acc) as [[r1 o1] l1] eqn:R.
    pose proof (section_run_records env _ _ _ _ _ _ R) as L1.
    assert (Here : In rec l1 ->
                   (exists n, In n (keys ((section, opts) :: raw))
                              /\ class_of env n = None
                              /\ rec = (WARNING, UnknownSection n))
                   \/ (exists o n, In n (keys ((section, opts) :: raw))
                                   /\ class_of env n <> None
                                   /\ looked_up env n (Raw.optionxform o)
                                      = true
                                   /\ rec = (ERROR,
                                             MissingRequiredOption o n))
                   \/ (exists cmd, rec = (ERROR, InvalidCommand cmd)
                                   /\ existsb (String.eqb cmd) commands
                                      = false)).
    { intros I1. destruct (class_of env section) as [c|] eqn:C.
      - destruct (L1 rec I1) as [[o [-> Lk]]|Rc]; [|now right; right].
        right. left. exists o, section.
        repeat split; [now left|congruence|exact Lk].
      - subst l1. destruct I1 as [<-|[]]. left. exists section.
        repeat split; [now left|exact C]. }
    destruct r1 as [acc1|e].
    + destruct (scan env raw acc1) as [[r2 raw2] l2] eqn:S.
      intros [= _ _ <-] I0. apply in_app_or in I0.
      destruct I0 as [I0|I0]; [now apply Here|].
      destruct (IH _ _ _ _ _ S I0)
        as [[n [In0 [Cn ->]]]|[[o [n [In0 [Cn [Lk ->]]]]]|Rc]].
      * left. exists n. repeat split; [now right|exact Cn].
      * right. left. exists o, n. repeat split; [now right|exact Cn|exact Lk].
      * now right; right.
    + intros [= _ _ <-]. exact Here.
Qed.

Lemma not_unknown_section section (l : list record) :
  (forall r, In r l -> is_unknown_section section r = false) ->
  filter (is_unknown_section section) l = [].
Proof.
  induction l as [|a l IH]; [reflexivity|]. intros H. cbn [filter].
  rewrite (H a (or_introl eq_refl)). apply IH. intros r I0. apply H.
  now right.
Qed.

(** One warning for each section that no class matches. *)
Lemma scan_unknown_count env s raw :
  class_of env s = None ->
  forall acc acc' raw' l,
    scan env raw acc = (Ok acc', raw', l) ->
    List.length (filter (is_unknown_section s) l)
    = List.length (filter (String.eqb s) (keys raw)).
Proof.
  intros Cs. induction raw as [|[section opts] raw IH]; intros acc acc' raw' l.
  - simpl. now intros [= _ _ <-].
  - rewrite scan_cons.
    destruct (section_run env section opts acc) as [[[acc1|e] o1] l1] eqn:R;
      [|discriminate].
    pose proof (section_run_records env _ _ _ _ _ _ R) as L1.
    destruct (scan env raw acc1) as [[r2 raw2] l2] eqn:S.
    intros [= -> _ <-]. rewrite filter_app, List.length_app.
    rewrite (IH _ _ _ _ S).
    change (keys ((section, opts) :: raw)) with (section :: keys raw).
    cbn [filter].
    destruct (class_of env section) as [c|] eqn:C.
    + assert (E : filter (is_unknown_section s) l1 = []).
      { apply not_unknown_section. intros r I0.
        now destruct (L1 r I0) as [[o [-> _]]|[cmd [-> _]]]. }
      rewrite E.
      destruct (String.eqb_spec s section) as [<-|N]; [congruence|reflexivity].
    + subst l1. cbn [filter is_unknown_section]. rewrite String.eqb_sym.
      now destruct (String.eqb s section).
Qed.

Lemma count_name s (l : list string) :
  NoDup l -> In s l -> List.length (filter (String.eqb s) l) = 1.
Proof.
  induction l as [|x l IH]; [intros _ []|].
  intros ND I0. inversion ND as [|? ? NI ND']; subst. cbn [filter].
  destruct (String.eqb_spec s x) as [<-|N].
  - assert (E : filter (String.eqb s) l = []).
    { clear - NI. induction l as [|y l IHl]; [reflexivity|]. cbn [filter].
      destruct (String.eqb_spec s y) as [<-|N]; [exfalso; apply NI; now left|].
      apply IHl. intros I0. apply NI. now right. }
    now rewrite E.
  - destruct I0 as [<-|I0]; [contradiction|]. now apply IH.
Qed.

(** An option that the parse of a schema has left is an option of the
    section that the schema does not look up. *)
Lemma consume_In schema (opts : options) k x :
  NoDup (keys opts) ->
  In (k, x) (consume schema opts) ->
  In (k, x) opts
  /\ existsb (fun f : field => String.eqb (Raw.optionxform (fst (fst f))) k)
             schema = false.
Proof.
  intros ND I0. split.
  - clear ND. revert opts I0. unfold consume.
    induction schema as [|f schema IH]; intros opts I0; [exact I0|].
    cbn [fold_left] in I0. exact (in_assoc_del _ _ _ _ (IH _ I0)).
  - pose proof (consume_lookup schema opts k ND) as L.
    destruct (existsb _ schema); [|reflexivity].
    exfalso. apply (proj1 (assoc_None_notin _ k (consume schema opts)) L).
    unfold keys. apply in_map_iff. now exists (k, x).
Qed.

Lemma leftovers_In rec (raw : raw_sections) :
  In rec (leftovers raw) ->
  exists section opts o x,
    In (section, opts) raw /\ In (o, x) opts
    /\ rec = (WARNING, UnknownOption o section).
Proof.
  unfold leftovers. intros I0. apply in_flat_map in I0.
  destruct I0 as [[section opts] [I1 I2]]. apply in_map_iff in I2.
  destruct I2 as [[o x] [<- I2]]. now exists section, opts, o, x.
Qed.

(** The visible options of a section have each name once. *)
Lemma visible_keys (opts d : options) :
  NoDup (keys opts) -> NoDup (keys d) -> NoDup (keys (Raw.visible opts d)).
Proof.
  intros N1 N2. unfold Raw.visible, keys. rewrite map_app.
  apply NoDup_app.
  - exact N1.
  - clear - N2. induction d as [|[k0 v0] d IHd]; [constructor|].
    inversion N2 as [|? ? NI ND']; subst. cbn [filter fst].
    destruct (negb (assoc_mem k0 opts)); [|now apply IHd].
    cbn [map fst]. constructor; [|now apply IHd].
    intros I0. apply NI. apply in_map_iff in I0.
    destruct I0 as [y [<- I0]]. apply filter_In in I0.
    apply in_map_iff. exists y. tauto.
  - intros a I1 I2. apply in_map_iff in I2. destruct I2 as [y [<- I2]].
    apply filter_In in I2. destruct I2 as [_ I2].
    apply negb_true_iff in I2. unfold assoc_mem in I2.
    destruct (assoc (fst y) opts) eqn:A; [discriminate|].
    apply assoc_None_notin in A. now apply A.
Qed.

(** [warn_leftovers] on any parser, with or without defaults: one
    warning for each option that each section shows. *)
Lemma warn_leftovers_shown st :
  NoDup (keys (_conf_parser st)) ->
  warn_leftovers st
  = (Ok tt,
     mkState (_conf_parser st)
       (log st ++ leftovers (shown (_conf_parser st)))).
Proof.
  intros ND. unfold warn_leftovers, bind at 1, Raw.sections.
  destruct st as [cp lg]. cbn [_conf_parser log].
  assert (G : forall (part : raw_sections) lg0,
             (forall s, In s part -> assoc (fst s) cp = Some (snd s)) ->
             for_each
               (filter (fun section =>
                          negb (String.eqb section Raw.DEFAULTSECT))
                       (keys part))
               (fun section (_ : unit) =>
                  bind (Raw.options section)
                    (fun opts =>
                       for_each opts
                         (fun option (_ : unit) =>
                            logger WARNING (UnknownOption option section))
                         tt))
               tt (mkState cp lg0)
             = (Ok tt,
                mkState cp
                  (lg0
                   ++ leftovers
                        (map (fun s : string * options =>
                                (fst s,
                                 Raw.visible (snd s) (Raw._defaults cp)))
                             (filter (fun s : string * options =>
                                        negb (String.eqb (fst s)
                                                Raw.DEFAULTSECT))
                                     part))))).
  { induction part as [|[section opts] part IH]; intros lg0 Hp.
    - cbn. unfold ret. now rewrite app_nil_r.
    - change (keys ((section, opts) :: part)) with (section :: keys part).
      cbn [filter fst].
      destruct (String.eqb section Raw.DEFAULTSECT) eqn:Ed; cbn [negb].
      + apply IH. intros s I0. apply Hp. now right.
      + cbn [for_each map]. unfold bind at 1. unfold bind at 1.
        unfold Raw.options at 1, Raw.section_dict. cbn [_conf_parser].
        rewrite Ed. pose proof (Hp _ (or_introl eq_refl)) as A.
        cbn [fst snd] in A. unfold options in *. rewrite A.
        rewrite (warn_options_eq section
                   (Raw.visible opts (Raw._defaults cp)) (mkState cp lg0)).
        cbn [_conf_parser log].
        rewrite (IH _ (fun s I0 => Hp s (or_intror I0))).
        rewrite leftovers_cons. cbn [fst snd]. now rewrite <- app_assoc. }
  apply (G cp lg). clear G.
  induction cp as [|[k o] cp IH]; [intros s []|].
  inversion ND as [|? ? NI ND']; subst.
  intros s [<-|I0]; cbn [fst snd assoc].
  - now rewrite String.eqb_refl.
  - destruct (String.eqb_spec (fst s) k) as [E|N].
    + exfalso. apply NI. rewrite <- E. unfold keys. apply in_map_iff.
      now exists s.
    + now apply IH.
Qed.

Lemma shown_keys (cp : raw_sections) :
  NoDup (keys cp) -> NoDup (keys (shown cp)).
Proof.
  unfold shown, keys. rewrite map_map. cbn [fst].
  generalize (Raw._defaults cp). intros _.
  induction cp as [|s cp IH]; [constructor|].
  intros ND. cbn [map] in ND. inversion ND as [|? ? NI ND']; subst.
  cbn [filter]. destruct (negb (String.eqb (fst s) Raw.DEFAULTSECT));
    [|now apply IH].
  cbn [map]. constructor; [|now apply IH].
  intros I0. apply NI. apply in_map_iff in I0. destruct I0 as [y [E I0]].
  apply filter_In in I0. apply in_map_iff. exists y. tauto.
Qed.

Lemma assoc_Some_In (V : Type) k (v : V) (d : list (string * V)) :
  assoc k d = Some v -> In (k, v) d.
Proof.
  induction d as [|[k0 v0] d IH]; [discriminate|]. simpl.
  destruct (String.eqb_spec k k0) as [->|N].
  - intros [= ->]. now left.
  - intros A. right. now apply IH.
Qed.


(** ** A group other than the calendars has one slot *)

(** Two sections of one class other than the calendars, in a file
    without a block [DEFAULT]. *)
Lemma later_section_overwrites_plain (env : Env) (pre mid post : raw_sections)
    (s1 s2 : string * options) (c : SectionClass) (v1 v2 : value)
    (st : state) :
  Raw.wfb (pre ++ s1 :: mid ++ s2 :: post) = true ->
  c <> CalendarSection ->
  class_of env (fst s1) = Some c -> class_of env (fst s2) = Some c ->
  values_of env s1 = Some v1 -> values_of env s2 = Some v2 ->
  same_result
    (fst (parse_config env (Loaded (pre ++ s1 :: mid ++ s2 :: post)) st))
    (fst (parse_config env (Loaded (pre ++ mid ++ s2 :: post)) st))
  /\ (forall items st',
         parse_config env (Loaded (pre ++ s1 :: mid ++ s2 :: post)) st
         = (Ok (VNamespace items), st') ->
         NoDup (keys items)
         /\ (forallb (fun s => negb (is_class env c s)) post = true ->
             assoc (group_name c) items = Some v2))
  /\ (forallb (coercible env) (pre ++ s1 :: mid ++ s2 :: post) = true ->
      forallb (complete env) (pre ++ s1 :: mid ++ s2 :: post) = true ->
      existsb (is_class env DefaultSection) (pre ++ s1 :: mid ++ s2 :: post)
      = true ->
      existsb (is_class env LocaleSection) (pre ++ s1 :: mid ++ s2 :: post)
      = true ->
      existsb (is_class env CalendarSection) (pre ++ s1 :: mid ++ s2 :: post)
      = true ->
      forallb (fun s => negb (is_class env c s)) post = true ->
      exists items st',
        parse_config env (Loaded (pre ++ s1 :: mid ++ s2 :: post)) st
        = (Ok (VNamespace items), st')
        /\ NoDup (keys items)
        /\ assoc (group_name c) items = Some v2).
Proof.
  intros W N C1 C2 V1 V2. destruct (wfb_wf _ W) as [ND _].
  assert (G : forall items st',
             parse_config env (Loaded (pre ++ s1 :: mid ++ s2 :: post)) st
             = (Ok (VNamespace items), st') ->
             NoDup (keys items)
             /\ (forallb (fun s => negb (is_class env c s)) post = true ->
                 assoc (group_name c) items = Some v2)).
  { intros items st' P. rewrite (parse_config_eq env _ st ND) in P.
    destruct (scan env (pre ++ s1 :: mid ++ s2 :: post) ([], false))
      as [[r raw'] l] eqn:S.
    destruct r as [[items' failed]|e]; [|discriminate].
    destruct (scan_Ok env _ _ _ _ _ _ _ S) as [-> _].
    assert (E : items = filed env (pre ++ s1 :: mid ++ s2 :: post) []).
    { destruct (negb _ || failed); [discriminate|]. now injection P as <- _. }
    subst items. split.
    + apply filed_keys. constructor.
    + intros Hp.
      change (pre ++ s1 :: mid ++ s2 :: post)
        with (pre ++ (s1 :: mid) ++ [s2] ++ post).
      rewrite !app_assoc. rewrite filed_app.
      rewrite (filed_other env c post _ Hp). rewrite filed_app.
      cbn [filed fold_left]. unfold file_one. rewrite C2, V2.
      destruct c; cbn [put group_name]; try apply assoc_set_same.
      now contradiction N. }
  split; [|split; [exact G|]].
  - rewrite (parse_config_fst env _ st ND).
    assert (ND' : Raw.names_ok (pre ++ mid ++ s2 :: post)).
    { apply (names_ok_incl _ _ ND).
      - exact (NoDup_keys_remove _ _ _ (proj1 ND)).
      - intros k. unfold keys.
        repeat (rewrite ?map_app, ?in_app_iff; cbn [map In]). tauto. }
    rewrite (parse_config_fst env _ st ND').
    pose proof (scan_repeated env c pre mid post s1 s2 v1 v2 ([], false)
                  N C1 C2 V1 V2) as R.
    destruct (fst (fst (scan env (pre ++ s1 :: mid ++ s2 :: post) _)))
      as [[i1 f1]|e1],
      (fst (fst (scan env (pre ++ mid ++ s2 :: post) _))) as [[i2 f2]|e2];
      cbn [rel_res] in R; try contradiction; [|exact R].
    destruct R as [Hf Hk]. cbn [fst snd] in Hf, Hk. subst f2.
    assert (E : dict_equiv i1 i2) by (intros k; now apply Hk).
    rewrite (missing_required_equiv i1 i2 E).
    destruct (negb _ || f1); [exact I|exact E].
  - intros Hc Hp Hd Hl Hcal Hpost.
    destruct (parse_config_calendar_names env _ st W Hc Hp Hd Hl Hcal)
      as [items [cals [st' [P _]]]].
    exists items, st'. split; [exact P|].
    destruct (G items st' P) as [Nk A]. split; [exact Nk|exact (A Hpost)].
Qed.

(** * Files with a block [DEFAULT] *)

(** ** What the sections show *)

Lemma NoDup_nodupb l : NoDup l -> nodupb l = true.
Proof.
  induction 1 as [|x l NI ND IH]; [reflexivity|]. cbn [nodupb].
  rewrite IH, andb_true_r. apply negb_true_iff.
  destruct (existsb (String.eqb x) l) eqn:X; [|reflexivity].
  apply existsb_exists in X. destruct X as [y [I0 E]].
  apply String.eqb_eq in E. now subst y.
Qed.

Lemma wfd_spec file :
  Raw.wfd file = true ->
  NoDup (keys file) /\ assoc "" file = None
  /\ Forall (fun s : string * options => NoDup (keys (snd s))) file.
Proof.
  unfold Raw.wfd. rewrite !andb_true_iff, negb_true_iff, forallb_forall.
  intros [[N E] F]. repeat split.
  - now apply nodupb_NoDup.
  - apply assoc_None_notin. now apply existsb_eqb_notin.
  - apply Forall_forall. intros s I0. apply nodupb_NoDup. now apply F.
Qed.

Lemma In_assoc_NoDup (V : Type) k (v : V) (d : list (string * V)) :
  NoDup (keys d) -> In (k, v) d -> assoc k d = Some v.
Proof.
  induction d as [|[k0 v0] d IH]; [intros _ []|].
  intros ND I0. inversion ND as [|? ? NI ND']; subst. simpl.
  destruct (String.eqb_spec k k0) as [->|N].
  - destruct I0 as [[= ->]|I0]; [reflexivity|].
    exfalso. apply NI. unfold keys. apply in_map_iff. now exists (k0, v).
  - destruct I0 as [[= -> ->]|I0]; [contradiction|]. now apply IH.
Qed.

Lemma defaults_keys file :
  Forall (fun s : string * options => NoDup (keys (snd s))) file ->
  NoDup (keys (Raw._defaults file)).
Proof.
  intros F. unfold Raw._defaults.
  destruct (assoc Raw.DEFAULTSECT file) as [d|] eqn:A; [|constructor].
  rewrite Forall_forall in F.
  exact (F _ (assoc_Some_In _ _ _ _ A)).
Qed.

Lemma shown_keys_eq (cp : raw_sections) :
  keys (shown cp)
  = filter (fun section => negb (String.eqb section Raw.DEFAULTSECT))
           (keys cp).
Proof.
  unfold shown, keys. rewrite map_map. cbn [fst].
  generalize (Raw._defaults cp). intros _.
  induction cp as [|s cp IH]; [reflexivity|]. cbn [filter map].
  destruct (negb (String.eqb (fst s) Raw.DEFAULTSECT)); cbn [map];
    now rewrite IH.
Qed.

Lemma shown_In (cp : raw_sections) section opts :
  In (section, opts) (shown cp) <->
  exists own,
    In (section, own) cp /\ section <> Raw.DEFAULTSECT
    /\ opts = Raw.visible own (Raw._defaults cp).
Proof.
  unfold shown. rewrite in_map_iff. split.
  - intros [[n own] [E I0]]. injection E as <- <-.
    apply filter_In in I0. destruct I0 as [I0 Nd]. cbn [fst] in Nd.
    apply negb_true_iff, String.eqb_neq in Nd. now exists own.
  - intros [own [I0 [Nd ->]]]. exists (section, own).
    split; [reflexivity|]. apply filter_In. split; [exact I0|].
    cbn [fst]. now apply negb_true_iff, String.eqb_neq.
Qed.

(** The sections that a file shows are those of a file without a block
    [DEFAULT]. *)
Lemma shown_wfb file : Raw.wfd file = true -> Raw.wfb (shown file) = true.
Proof.
  intros W. destruct (wfd_spec _ W) as [ND [E F]].
  unfold Raw.wfb. rewrite !andb_true_iff, !negb_true_iff, forallb_forall.
  repeat split.
  - apply NoDup_nodupb. now apply shown_keys.
  - destruct (existsb (String.eqb Raw.DEFAULTSECT) (keys (shown file)))
      eqn:X; [|reflexivity].
    apply existsb_exists in X. destruct X as [y [I0 Ey]].
    apply String.eqb_eq in Ey. subst y. rewrite shown_keys_eq in I0.
    apply filter_In in I0. destruct I0 as [_ I0].
    now rewrite String.eqb_refl in I0.
  - destruct (existsb (String.eqb "") (keys (shown file))) eqn:X;
      [|reflexivity].
    apply existsb_exists in X. destruct X as [y [I0 Ey]].
    apply String.eqb_eq in Ey. subst y. rewrite shown_keys_eq in I0.
    apply filter_In in I0. destruct I0 as [I0 _].
    apply assoc_None_notin in E. contradiction.
  - intros [n opts] I0. apply NoDup_nodupb. cbn [snd].
    apply shown_In in I0. destruct I0 as [own [I0 [_ ->]]].
    apply visible_keys; [|now apply defaults_keys].
    rewrite Forall_forall in F. exact (F _ I0).
Qed.

(** A file without a block [DEFAULT] shows what it holds. *)
Lemma shown_plain file : Raw.plain file -> shown file = file.
Proof.
  intros P. unfold shown. rewrite (plain_defaults _ P).
  destruct P as [P _]. apply assoc_None_notin in P.
  induction file as [|[n o] file IH]; [reflexivity|]. cbn [filter fst].
  destruct (String.eqb_spec n Raw.DEFAULTSECT) as [->|N].
  - exfalso. apply P. now left.
  - cbn [negb map fst snd]. rewrite visible_nil. f_equal. apply IH.
    intros I0. apply P. now right.
Qed.

(** ** The scan of a parser with defaults *)

Lemma parse_section_eq_defaults env section acc st own :
  section <> "" ->
  Raw.section_dict (_conf_parser st) section = Some own ->
  exists own',
    parse_section env section acc st
    = (fst (fst (section_run env section
                   (Raw.visible own (Raw._defaults (_conf_parser st))) acc)),
       mkState (assoc_set section own' (_conf_parser st))
         (log st
          ++ snd (section_run env section
                    (Raw.visible own (Raw._defaults (_conf_parser st)))
                    acc)))
    /\ (is_Ok (fst (fst (section_run env section
                           (Raw.visible own
                              (Raw._defaults (_conf_parser st))) acc)))
        = true ->
        own' = left_in env (section, own)).
Proof.
  intros Ne Hd. destruct acc as [items failed].
  destruct (section_dict_assoc _ _ _ Hd) as [Hst Nd].
  unfold parse_section, section_run, left_in, schema_for. cbn [fst snd].
  destruct (_get_section_parser env section) as [parser|] eqn:G.
  - destruct (get_section_parser_schema env _ _ G) as [c [_ [_ Hsch]]].
    destruct (new_schema env c) as [schema [Hs Hok]].
    pose proof (new_option_names_xform env c) as NDx.
    unfold schema_of in *. rewrite Hs in Hsch, NDx. unfold parse.
    rewrite Hsch. unfold bind at 1. unfold bind at 1.
    destruct (fields_eq_defaults section schema Hok NDx own
                (_parsed parser, false) st Ne Hd) as [own' [E Co]].
    exists own'. rewrite E.
    destruct (fields section schema
                (Raw.visible own (Raw._defaults (_conf_parser st)))
                (_parsed parser, false))
      as [[[[parsed [|]]|e] opts'] l]; cbn [fst snd ret is_Ok] in *.
    + split; [reflexivity|]. intros _. now apply Co.
    + split.
      * unfold store. destruct (is_collection parser); [|reflexivity].
        unfold bind, append.
        match goal with
        | |- context [assoc (_group parser) ?d] =>
            destruct (assoc (_group parser) d) as [[]|]; reflexivity
        end.
      * intros _. now apply Co.
    + split; [reflexivity|discriminate].
  - exists own. split; [|reflexivity].
    unfold bind, logger, ret; simpl.
    unfold options in *. now rewrite (assoc_set_id _ _ _ _ Hst).
Qed.

Lemma scan_eq_defaults env (todo : raw_sections) :
  forall cp acc lg,
    NoDup (keys todo) ->
    (forall s, In s todo ->
               fst s <> "" /\ Raw.section_dict cp (fst s) = Some (snd s)) ->
    exists cp',
      for_each (keys todo) (parse_section env) acc (mkState cp lg)
      = (fst (fst (scan env
                     (map (fun s : string * options =>
                             (fst s, Raw.visible (snd s) (Raw._defaults cp)))
                          todo) acc)),
         mkState cp'
           (lg ++ snd (scan env
                         (map (fun s : string * options =>
                                 (fst s,
                                  Raw.visible (snd s) (Raw._defaults cp)))
                              todo) acc)))
      /\ keys cp' = keys cp
      /\ Raw._defaults cp' = Raw._defaults cp
      /\ (forall n, ~ In n (keys todo) -> assoc n cp' = assoc n cp)
      /\ (is_Ok (fst (fst (scan env
                             (map (fun s : string * options =>
                                     (fst s,
                                      Raw.visible (snd s)
                                        (Raw._defaults cp)))
                                  todo) acc))) = true ->
          forall s, In s todo -> assoc (fst s) cp' = Some (left_in env s)).
Proof.
  induction todo as [|[n own] todo IH]; intros cp acc lg ND Hs.
  - exists cp. cbn. unfold ret. rewrite app_nil_r.
    repeat split; try reflexivity. intros _ s [].
  - change (keys ((n, own) :: todo)) with (n :: keys todo).
    cbn [for_each map fst snd]. rewrite scan_cons. unfold bind at 1.
    destruct (Hs _ (or_introl eq_refl)) as [Ne Hd]. cbn [fst snd] in Ne, Hd.
    destruct (parse_section_eq_defaults env n acc (mkState cp lg) own Ne Hd)
      as [own' [E Co]].
    cbn [_conf_parser log] in E, Co. rewrite E. clear E.
    destruct (section_dict_assoc _ _ _ Hd) as [Hst Nd].
    destruct (section_dict_set cp n own' Nd) as [Sd Df].
    inversion ND as [|? ? NI ND']; subst.
    assert (Kc : keys (assoc_set n own' cp) = keys cp).
    { rewrite keys_assoc_set. unfold assoc_mem.
      unfold options in *. now rewrite Hst. }
    destruct (section_run env n (Raw.visible own (Raw._defaults cp)) acc)
      as [[[acc1|e] o1] l1]; cbn [fst snd is_Ok] in *.
    + destruct (IH (assoc_set n own' cp) acc1 (lg ++ l1) ND')
        as [cp' [E' [K' [D' [O' C']]]]].
      { intros s I0. destruct (Hs s (or_intror I0)) as [Ns Ds].
        split; [exact Ns|].
        destruct (section_dict_assoc _ _ _ Ds) as [As Nds].
        unfold Raw.section_dict.
        destruct (String.eqb_spec (fst s) Raw.DEFAULTSECT); [contradiction|].
        rewrite assoc_set_other; [exact As|].
        intros Eq. apply NI. rewrite <- Eq. unfold keys. apply in_map_iff.
        now exists s. }
      rewrite Df in E', C'. exists cp'. rewrite E'.
      destruct (scan env _ acc1) as [[r2 raw2] l2]. cbn [fst snd] in *.
      rewrite <- app_assoc. split; [reflexivity|].
      split; [now rewrite K'|]. split; [now rewrite D'|]. split.
      * intros n0 NI0. rewrite O' by (intros I0; apply NI0; now right).
        apply assoc_set_other. intros Eq. apply NI0. now left.
      * intros Ok0 s [<-|I0].
        -- cbn [fst]. rewrite (O' n NI), assoc_set_same.
           now rewrite (Co eq_refl).
        -- now apply C'.
    + exists (assoc_set n own' cp). split; [reflexivity|].
      split; [exact Kc|]. split; [exact Df|]. split.
      * intros n0 NI0. apply assoc_set_other. intros Eq. apply NI0. now left.
      * discriminate.
Qed.

(** [parse_config] on any file that was read, by the scan of the
    sections that the file shows. *)
Lemma parse_config_eq_defaults env file st :
  NoDup (keys file) -> assoc "" file = None ->
  exists cp',
    parse_config env (Loaded file) st =
    (let '(r, _, l) := scan env (shown file) ([], false) in
     match r with
     | Raise e => (Raise e, mkState cp' (log st ++ l))
     | Ok (items, failed) =>
         (Ok (if negb (match missing_required items with
                       | [] => true | _ => false end) || failed
              then VNone else VNamespace items),
          mkState cp'
            (log st ++ l
             ++ map (fun g => (ERROR, MissingRequiredSection g))
                    (missing_required items)
             ++ leftovers (shown cp')))
     end)
    /\ keys cp' = keys file
    /\ Raw._defaults cp' = Raw._defaults file
    /\ (is_Ok (fst (fst (scan env (shown file) ([], false)))) = true ->
        forall s, In s file -> fst s <> Raw.DEFAULTSECT ->
                  assoc (fst s) cp' = Some (left_in env s)).
Proof.
  intros ND E0.
  unfold parse_config, set_conf_parser, Raw.sections, dump.
  unfold bind at 1 2 3 4. cbn [_conf_parser log].
  set (todo := filter (fun s : string * options =>
                         negb (String.eqb (fst s) Raw.DEFAULTSECT)) file).
  assert (Kt : filter (fun section =>
                         negb (String.eqb section Raw.DEFAULTSECT))
                      (keys file) = keys todo).
  { unfold todo, keys. clear. induction file as [|s file IH]; [reflexivity|].
    cbn [map filter]. destruct (negb (String.eqb (fst s) Raw.DEFAULTSECT));
      cbn [map]; now rewrite IH. }
  rewrite Kt.
  assert (NDt : NoDup (keys todo)).
  { rewrite <- Kt. now apply NoDup_filter. }
  destruct (scan_eq_defaults env todo file ([], false) (log st) NDt)
    as [cp' [E [K [D [O C]]]]].
  { intros s I0. unfold todo in I0. apply filter_In in I0.
    destruct I0 as [I0 Nd]. apply negb_true_iff, String.eqb_neq in Nd.
    split.
    - intros Eq. apply assoc_None_notin in E0. apply E0. rewrite <- Eq.
      unfold keys. apply in_map_iff. now exists s.
    - unfold Raw.section_dict.
      destruct (String.eqb_spec (fst s) Raw.DEFAULTSECT); [contradiction|].
      apply In_assoc_NoDup; [exact ND|]. now destruct s. }
  change (map (fun s : string * options =>
                 (fst s, Raw.visible (snd s) (Raw._defaults file))) todo)
    with (shown file) in E, C.
  exists cp'. rewrite E. clear E. split; [|split; [exact K|split; [exact D|]]].
  - destruct (scan env (shown file) ([], false))
      as [[[[items failed]|e] raw'] l]; cbn [fst snd]; [|reflexivity].
    unfold bind at 1. rewrite check_required_eq. cbn [_conf_parser log].
    unfold bind at 1.
    rewrite (warn_leftovers_shown (mkState cp' _))
      by (cbn [_conf_parser]; now rewrite K).
    cbn [_conf_parser log]. unfold bind, ret. rewrite <- !app_assoc.
    match goal with |- context [negb ?b || failed] =>
      destruct (negb b || failed) end; reflexivity.
  - intros Ok0 s I0 Nd. apply (C Ok0). unfold todo. apply filter_In.
    split; [exact I0|]. now apply negb_true_iff, String.eqb_neq.
Qed.

(** What [parse_config] returns depends on the file through what its
    sections show. *)
Lemma parse_config_shown env file st :
  Raw.wfd file = true ->
  fst (parse_config env (Loaded file) st)
  = fst (parse_config env (Loaded (shown file)) st).
Proof.
  intros W. destruct (wfd_spec _ W) as [ND [E0 _]].
  destruct (parse_config_eq_defaults env file st ND E0) as [cp' [E _]].
  rewrite E.
  destruct (wfb_wf _ (shown_wfb _ W)) as [NO _].
  rewrite (parse_config_eq env _ st NO).
  destruct (scan env (shown file) ([], false))
    as [[[[items failed]|e] raw'] l]; reflexivity.
Qed.

(** ** The calendars of the configuration, for any file *)

(** C1.  For a file that was read, with or without a block [DEFAULT]:
    when it has a section [default], a section [locale] and at least
    one section [calendar <identifier>], the three words in any case,
    and every section shows its required options and values that the
    coercions accept, [parse_config] returns a configuration.  Its
    [calendars] are namespaces whose names are the identifiers of the
    calendar sections: one for each such section, in the order of the
    file, the identifier as the file writes it. *)
Theorem parse_config_calendars (env : Env) (file : raw_sections)
    (idents : list string) (st : state) :
  Raw.wfd file = true ->
  forallb (coercible env) (shown file) = true ->
  forallb (complete env) (shown file) = true ->
  In "default" (map Str.lower (keys (shown file))) ->
  In "locale" (map Str.lower (keys (shown file))) ->
  calendar_idents (shown file) idents ->
  idents <> [] ->
  exists items cals st',
    parse_config env (Loaded file) st = (Ok (VNamespace items), st')
    /\ assoc "calendars" items = Some (VList cals)
    /\ names_of cals = Some idents
    /\ List.length cals = List.length idents.
Proof.
  intros W Hc Hp Hd Hl Hi Hn.
  destruct (parse_config_calendars_plain env (shown file) idents st
              (shown_wfb _ W) Hc Hp Hd Hl Hi Hn)
    as [items [cals [st1 [P [A [Ns Ln]]]]]].
  pose proof (parse_config_shown env file st W) as S. rewrite P in S.
  cbn [fst] in S.
  exists items, cals, (snd (parse_config env (Loaded file) st)).
  repeat split; try assumption.
  rewrite <- S. now destruct (parse_config env (Loaded file) st).
Qed.

Lemma parse_config_calendars_witness :
  exists items cals st',
    parse_config Examples.utc_only (Loaded Examples.three_inheriting) st0
    = (Ok (VNamespace items), st')
    /\ assoc "calendars" items = Some (VList cals)
    /\ names_of cals = Some ["Home"; "work"; "Private"]
    /\ List.length cals = List.length ["Home"; "work"; "Private"].
Proof.
  apply (parse_config_calendars Examples.utc_only Examples.three_inheriting
           ["Home"; "work"; "Private"] st0);
    [reflexivity|reflexivity|reflexivity
    |right; left; reflexivity
    |right; right; right; left; reflexivity
    | |discriminate].
  apply (@idents_calendar "Calendar Home" "Home");
    [exists "Calendar "; repeat split; simpl; intuition discriminate|].
  apply idents_other; [discriminate|].
  apply (@idents_calendar "CALENDAR work" "work");
    [exists "CALENDAR "; repeat split; simpl; intuition discriminate|].
  apply idents_other; [discriminate|].
  apply (@idents_calendar "calendar Private" "Private");
    [exists "calendar "; repeat split; simpl; intuition discriminate|].
  apply idents_nil.
Defined.

(** ** One slot for each group, for any file *)

(** C8.  For two files that were read, with or without a block
    [DEFAULT], the second showing the sections of the first but for
    one: when that section and a later one match the same class other
    than the calendars and both are parsed into a namespace, the two
    files give the same outcome; no failure comes from the repetition.
    In a configuration that [parse_config] returns each group is one
    key, and the group of the class holds the values of the later
    section when no section of the class follows it.  And
    [parse_config] does return such a configuration, with the values
    of the later section, as soon as the file has its required
    sections and each of its sections shows its required options and
    values that the coercions accept. *)
Theorem later_section_overwrites (env : Env) (file file' : raw_sections)
    (pre mid post : raw_sections) (s1 s2 : string * options)
    (c : SectionClass) (v1 v2 : value) (st : state) :
  Raw.wfd file = true -> Raw.wfd file' = true ->
  shown file = pre ++ s1 :: mid ++ s2 :: post ->
  shown file' = pre ++ mid ++ s2 :: post ->
  c <> CalendarSection ->
  class_of env (fst s1) = Some c -> class_of env (fst s2) = Some c ->
  values_of env s1 = Some v1 -> values_of env s2 = Some v2 ->
  same_result (fst (parse_config env (Loaded file) st))
              (fst (parse_config env (Loaded file') st))
  /\ (forall items st',
         parse_config env (Loaded file) st = (Ok (VNamespace items), st') ->
         NoDup (keys items)
         /\ (forallb (fun s => negb (is_class env c s)) post = true ->
             assoc (group_name c) items = Some v2))
  /\ (forallb (coercible env) (shown file) = true ->
      forallb (complete env) (shown file) = true ->
      existsb (is_class env DefaultSection) (shown file) = true ->
      existsb (is_class env LocaleSection) (shown file) = true ->
      existsb (is_class env CalendarSection) (shown file) = true ->
      forallb (fun s => negb (is_class env c s)) post = true ->
      exists items st',
        parse_config env (Loaded file) st = (Ok (VNamespace items), st')
        /\ NoDup (keys items)
        /\ assoc (group_name c) items = Some v2).
Proof.
  intros W W' E E' N C1 C2 V1 V2.
  pose proof (shown_wfb _ W) as Wb. rewrite E in Wb.
  destruct (later_section_overwrites_plain env pre mid post s1 s2 c v1 v2 st
              Wb N C1 C2 V1 V2) as [P1 [P2 P3]].
  pose proof (parse_config_shown env file st W) as S.
  pose proof (parse_config_shown env file' st W') as S'.
  rewrite E in S. rewrite E' in S'.
  split; [|split].
  - rewrite S, S'. exact P1.
  - intros items st' P. rewrite P in S. cbn [fst] in S.
    apply (P2 items
             (snd (parse_config env
                     (Loaded (pre ++ s1 :: mid ++ s2 :: post)) st))).
    rewrite S.
    now destruct (parse_config env (Loaded (pre ++ s1 :: mid ++ s2 :: post))
                    st).
  - rewrite E. intros Hc Hp Hd Hl Hcal Hpost.
    destruct (P3 Hc Hp Hd Hl Hcal Hpost) as [items [st1 [P [Nk A]]]].
    exists items, (snd (parse_config env (Loaded file) st)).
    split; [|now split]. rewrite P in S. cbn [fst] in S. rewrite <- S.
    now destruct (parse_config env (Loaded file) st).
Qed.

Lemma later_section_overwrites_witness :
  same_result
    (fst (parse_config Examples.utc_only
            (Loaded Examples.repeated_inheriting) st0))
    (fst (parse_config Examples.utc_only
            (Loaded (("DEFAULT", [("debug", "yes")])
                       :: List.tl (List.tl Examples.repeated_inheriting)))
            st0))
  /\ exists items st',
      parse_config Examples.utc_only (Loaded Examples.repeated_inheriting) st0
      = (Ok (VNamespace items), st')
      /\ NoDup (keys items)
      /\ assoc "default" items
         = Some (VNamespace [("debug", VBool true);
                             ("default_command", VStr "new");
                             ("default_calendar", VBool true)]).
Proof.
  destruct (later_section_overwrites Examples.utc_only
              Examples.repeated_inheriting
              (("DEFAULT", [("debug", "yes")])
                 :: List.tl (List.tl Examples.repeated_inheriting))
              []
              [("locale", Examples.locale_opts ++ [("debug", "yes")])]
              [("calendar home", [("path", "/tmp/cal"); ("debug", "yes")])]
              ("default", [("default_command", "agenda"); ("debug", "yes")])
              ("Default", [("default_command", "new"); ("debug", "yes")])
              DefaultSection
              (VNamespace [("debug", VBool true);
                           ("default_command", VStr "agenda");
                           ("default_calendar", VBool true)])
              (VNamespace [("debug", VBool true);
                           ("default_command", VStr "new");
                           ("default_calendar", VBool true)])
              st0 eq_refl eq_refl eq_refl eq_refl
              (fun E => match E with end)
              eq_refl eq_refl eq_refl eq_refl) as [P1 [_ P3]].
  split; [exact P1|].
  exact (P3 eq_refl eq_refl eq_refl eq_refl eq_refl eq_refl).
Defined.

(** ** Unknown sections and options, for any file *)

Lemma In_keys_visible option (own d : options) :
  In option (keys own) \/ In option (keys d) ->
  In option (keys (Raw.visible own d)).
Proof.
  intros H.
  destruct (assoc option (Raw.visible own d)) as [x|] eqn:A.
  - apply assoc_Some_In in A. unfold keys. apply in_map_iff.
    now exists (option, x).
  - exfalso. rewrite assoc_visible in A.
    destruct (assoc option own) eqn:Ao; [discriminate|].
    apply assoc_None_notin in Ao, A. tauto.
Qed.

(** C7 as the code has it, for a file that was read, with or without a
    block [DEFAULT].  Unknown sections and unknown options do not
    change what [parse_config] returns: it returns, or raises, as on
    the file without them.  Whenever [parse_config] returns, every
    record that it has logged is a warning about a section that no
    class matches or about an option that its section shows and its
    schema does not look up (or, with a block [DEFAULT], about an
    option of that block), or else an error about an option that a
    schema looks up, a command or a required group; each section that
    no class matches has exactly one warning, and every option that
    such a section shows, and every option that a section shows and
    its schema does not look up, appears exactly once in the
    unknown-option warnings.  [warn_leftovers] itself, on any parser,
    logs exactly one warning for each option that each of its sections
    shows. *)
Theorem unknown_only_warned (env : Env) (file : raw_sections) (st : state) :
  Raw.wfd file = true ->
  fst (parse_config env (Loaded file) st)
  = fst (parse_config env (Loaded (known env (shown file))) st)
  /\ (forall v st',
         parse_config env (Loaded file) st = (Ok v, st') ->
         exists l,
           log st' = log st ++ l
           /\ (forall rec,
                  In rec l ->
                  accounted env (keys (Raw._defaults file)) (shown file) rec)
           /\ (forall section opts,
                  In (section, opts) (shown file) ->
                  class_of env section = None ->
                  List.length (filter (is_unknown_section section) l) = 1)
           /\ (forall section opts option x,
                  In (section, opts) (shown file) -> In (option, x) opts ->
                  looked_up env section option = false ->
                  List.length (filter (is_unknown_option option section) l)
                  = 1))
  /\ (forall st1,
         NoDup (keys (_conf_parser st1)) ->
         warn_leftovers st1
         = (Ok tt,
            mkState (_conf_parser st1)
              (log st1 ++ leftovers (shown (_conf_parser st1))))
         /\ forall section own option,
             Raw.section_dict (_conf_parser st1) section = Some own ->
             NoDup (keys own) ->
             NoDup (keys (Raw._defaults (_conf_parser st1))) ->
             In option
                (keys (Raw.visible own (Raw._defaults (_conf_parser st1)))) ->
             List.length
               (filter (is_unknown_option option section)
                  (leftovers (shown (_conf_parser st1))))
             = 1).
Proof.
  intros W. destruct (wfd_spec _ W) as [ND [E0 NDo]].
  pose proof (defaults_keys _ NDo) as NDd.
  destruct (wfb_wf _ (shown_wfb _ W)) as [NOs _].
  split; [|split].
  - rewrite (parse_config_shown env file st W).
    now apply parse_config_known.
  - intros v st' P.
    destruct (parse_config_eq_defaults env file st ND E0)
      as [cp' [E [K [D C]]]].
    rewrite E in P. clear E.
    destruct (scan env (shown file) ([], false)) as [[r raw'] l] eqn:S.
    destruct r as [[items failed]|e]; [|discriminate].
    specialize (C eq_refl).
    destruct (scan_Ok env _ _ _ _ _ _ _ S) as [_ [_ [_ L]]].
    injection P as _ <-. cbn [log]. eexists. split; [reflexivity|].
    assert (NDc : NoDup (keys cp')) by (now rewrite K).
    assert (Own : forall section own',
               In (section, own') cp' -> section <> Raw.DEFAULTSECT ->
               exists own, In (section, own) file
                           /\ own' = left_in env (section, own)).
    { intros section own' I0 Nd.
      assert (Ik : In section (keys file)).
      { rewrite <- K. unfold keys. apply in_map_iff. now exists (section, own'). }
      unfold keys in Ik. apply in_map_iff in Ik.
      destruct Ik as [[n own] [En I1]]. cbn [fst] in En. subst n.
      exists own. split; [exact I1|].
      pose proof (C _ I1 Nd) as A. cbn [fst] in A.
      rewrite (In_assoc_NoDup _ _ _ _ NDc I0) in A. now injection A. }
    split; [|split].
    + intros rec I0. apply in_app_or in I0. destruct I0 as [I0|I0].
      { destruct (scan_records env _ _ _ _ _ rec S I0)
          as [[n [In0 [Cn ->]]]|[[o [n [In0 [Cn [Lk ->]]]]]|[cmd [-> X]]]].
        - now split.
        - now repeat split.
        - exact X. }
      apply in_app_or in I0. destruct I0 as [I0|I0].
      { apply in_map_iff in I0. destruct I0 as [g [<- I0]].
        unfold missing_required in I0. apply filter_In in I0.
        exact (proj1 I0). }
      destruct (leftovers_In _ _ I0) as [section [opts' [o [x [I1 [I2 ->]]]]]].
      apply shown_In in I1. destruct I1 as [own' [I1 [Nd ->]]].
      destruct (Own _ _ I1 Nd) as [own [I3 ->]].
      rewrite D in I2.
      exists (Raw.visible own (Raw._defaults file)). split; [|split].
      * apply shown_In. now exists own.
      * unfold Raw.visible in I2. apply in_app_or in I2.
        apply In_keys_visible. destruct I2 as [I2|I2].
        -- left. rewrite Forall_forall in NDo.
           destruct (consume_In _ own o x (NDo _ I3) I2) as [I4 _].
           unfold keys. apply in_map_iff. now exists (o, x).
        -- right. apply filter_In in I2. unfold keys. apply in_map_iff.
           now exists (o, x).
      * unfold Raw.visible in I2. apply in_app_or in I2.
        destruct I2 as [I2|I2].
        -- left. rewrite Forall_forall in NDo.
           exact (proj2 (consume_In _ own o x (NDo _ I3) I2)).
        -- right. apply filter_In in I2. unfold keys. apply in_map_iff.
           now exists (o, x).
    + intros section opts I1 Cs.
      rewrite filter_app, List.length_app.
      rewrite (scan_unknown_count env section _ Cs _ _ _ _ S).
      assert (Z : filter (is_unknown_section section)
                    (map (fun g => (ERROR, MissingRequiredSection g))
                         (missing_required items)
                     ++ leftovers (shown cp'))
                  = []).
      { apply not_unknown_section. intros r I0. apply in_app_or in I0.
        destruct I0 as [I0|I0].
        - apply in_map_iff in I0. now destruct I0 as [g [<- _]].
        - now destruct (leftovers_In _ _ I0) as [s [o' [o [x [_ [_ ->]]]]]]. }
      rewrite Z. cbn [List.length]. rewrite Nat.add_0_r.
      apply count_name; [exact (proj1 NOs)|].
      unfold keys. apply in_map_iff. now exists (section, opts).
    + intros section opts option x I1 I2 Lk.
      transitivity
        (List.length
           (filter (is_unknown_option option section)
              (leftovers (shown cp')))).
      { apply count_app3.
        - exact (scan_records_not_options option section l L).
        - induction (missing_required items) as [|g gs IHg];
            [reflexivity|exact IHg]. }
      apply shown_In in I1. destruct I1 as [own [I1 [Nd ->]]].
      pose proof (C _ I1 Nd) as A. cbn [fst] in A.
      rewrite Forall_forall in NDo. pose proof (NDo _ I1) as NDown.
      cbn [snd] in NDown.
      assert (NDl : NoDup (keys (left_in env (section, own)))).
      { unfold left_in. now apply consume_keys. }
      rewrite (leftovers_count section option _
                 (Raw.visible (left_in env (section, own))
                    (Raw._defaults cp'))).
      * assert (I3 : exists x', In (option, x')
                                   (Raw.visible (left_in env (section, own))
                                      (Raw._defaults cp'))).
        { rewrite D. unfold Raw.visible in I2 |- *.
          apply in_app_or in I2. destruct I2 as [I2|I2].
          - exists x. apply in_or_app. left. unfold left_in.
            apply consume_keeps; [exact Lk|exact I2].
          - apply filter_In in I2. destruct I2 as [I2 Nm]. cbn [fst] in Nm.
            exists x. apply in_or_app. right. apply filter_In.
            split; [exact I2|]. cbn [fst]. apply negb_true_iff.
            apply negb_true_iff in Nm. unfold assoc_mem in *.
            destruct (assoc option own) eqn:Ao; [discriminate|].
            destruct (assoc option (left_in env (section, own))) as [y|]
              eqn:Al; [|reflexivity].
            exfalso. apply assoc_Some_In in Al. unfold left_in in Al.
            destruct (consume_In _ own option y NDown Al) as [I4 _].
            apply assoc_None_notin in Ao. apply Ao. unfold keys.
            apply in_map_iff. now exists (option, y). }
        destruct I3 as [x' I3].
        apply (count_key option x'); [|exact I3].
        apply visible_keys; [exact NDl|now rewrite D].
      * now apply shown_keys.
      * apply shown_In. exists (left_in env (section, own)).
        split; [now apply assoc_Some_In|]. now split.
  - intros st1 N1. split; [now apply warn_leftovers_shown|].
    intros section own option Sd No Nd Io.
    destruct (section_dict_assoc _ _ _ Sd) as [A Ns].
    unfold keys in Io. apply in_map_iff in Io.
    destruct Io as [[k x] [<- Io]]. cbn [fst].
    rewrite (leftovers_count section k _
               (Raw.visible own (Raw._defaults (_conf_parser st1)))).
    + apply (count_key k x); [now apply visible_keys|exact Io].
    + now apply shown_keys.
    + apply shown_In. exists own. split; [now apply assoc_Some_In|].
      now split.
Qed.

Lemma unknown_only_warned_witness :
  fst (parse_config Examples.utc_only (Loaded Examples.unknown_inheriting)
         st0)
  = fst (parse_config Examples.utc_only
           (Loaded (known Examples.utc_only
                      (shown Examples.unknown_inheriting))) st0)
  /\ (exists l,
         log (snd Examples.unknown_inheriting_outcome) = log st0 ++ l
         /\ (forall rec,
                In rec l ->
                accounted Examples.utc_only ["colour"; "dateformat"]
                  (shown Examples.unknown_inheriting) rec)
         /\ List.length (filter (is_unknown_section "plugins") l) = 1
         /\ List.length (filter (is_unknown_option "path" "plugins") l) = 1
         /\ List.length (filter (is_unknown_option "colour" "plugins") l) = 1
         /\ List.length (filter (is_unknown_option "colour" "default") l) = 1
         /\ List.length (filter (is_unknown_option "sync" "calendar home") l)
            = 1)
  /\ (warn_leftovers Examples.inheriting_locale_parsed
      = (Ok tt,
         mkState (_conf_parser Examples.inheriting_locale_parsed)
           (log Examples.inheriting_locale_parsed
            ++ leftovers
                 (shown (_conf_parser Examples.inheriting_locale_parsed))))
      /\ List.length
           (filter (is_unknown_option "colour" "locale")
              (leftovers
                 (shown (_conf_parser Examples.inheriting_locale_parsed))))
         = 1
      /\ List.length
           (filter (is_unknown_option "dateformat" "locale")
              (leftovers
                 (shown (_conf_parser Examples.inheriting_locale_parsed))))
         = 1).
Proof.
  destruct (unknown_only_warned Examples.utc_only Examples.unknown_inheriting
              st0 eq_refl) as [P1 [P2 P3]].
  split; [exact P1|]. split.
  - destruct (P2 Examples.unknown_inheriting_conf
                (snd Examples.unknown_inheriting_outcome) eq_refl)
      as [l [E [Acc [Sec Opt]]]].
    exists l. split; [exact E|]. split; [exact Acc|].
    split; [|split; [|split; [|split]]].
    + apply (Sec "plugins"
               [("path", "/tmp/plugins"); ("colour", "red");
                ("dateformat", "%d.%m.")]);
        [right; right; now left|reflexivity].
    + apply (Opt "plugins"
               [("path", "/tmp/plugins"); ("colour", "red");
                ("dateformat", "%d.%m.")] "path" "/tmp/plugins");
        [right; right; now left|now left|reflexivity].
    + apply (Opt "plugins"
               [("path", "/tmp/plugins"); ("colour", "red");
                ("dateformat", "%d.%m.")] "colour" "red");
        [right; right; now left|right; now left|reflexivity].
    + apply (Opt "default"
               [("default_command", "agenda"); ("colour", "blue");
                ("dateformat", "%d.%m.")] "colour" "blue");
        [now left|right; now left|reflexivity].
    + apply (Opt "calendar home"
               [("path", "/tmp/cal"); ("sync", "hourly"); ("colour", "red");
                ("dateformat", "%d.%m.")] "sync" "hourly");
        [right; right; right; now left|right; now left|reflexivity].
  - assert (N1 : NoDup (keys (_conf_parser Examples.inheriting_locale_parsed)))
      by (repeat constructor; simpl; intuition discriminate).
    destruct (P3 Examples.inheriting_locale_parsed N1) as [E Cnt].
    split; [exact E|]. split.
    + apply (Cnt "locale" [("colour", "red")] "colour");
        [reflexivity
        |repeat constructor; simpl; intuition discriminate
        |repeat constructor; simpl; intuition discriminate
        |now left].
    + apply (Cnt "locale" [("colour", "red")] "dateformat");
        [reflexivity
        |repeat constructor; simpl; intuition discriminate
        |repeat constructor; simpl; intuition discriminate
        |right; right; now left].
Defined.
